(** * Autonomous delivery agent: grid world, search and route execution

    A shallow embedding of [environment.py], [algorithms.py] and [agent.py].

    Conventions of the embedding.
    - Python integers are [Z]; [//] and [%] are [Z.div] and [Z.modulo], which
      round towards minus infinity exactly as Python does for a non-zero
      divisor.  Division by zero raises in Python and is an error here.
    - A call either returns, raises an exception, or (for a [while] loop run
      with too little fuel) is cut off: the type [outcome].
    - Python sets are [gset], dictionaries that are only looked up are [gmap],
      dictionaries that are iterated are association lists in insertion order.
    - The terrain matrix [grid] is read only at in-bounds indices, and is a
      function from (row, column) to the stored cost.  Its entries are numpy
      integers in the source; they are [Z] here, and the sums are sums in
      [Z].  The module [Int64] has the searches and the scores once more
      with the wrapping 64-bit sums of numpy, and the lemmas that end in
      [_int64] show that the two agree while the costs are small.
    - The [random] module is a tape of draws with a cursor; [math.exp] is a
      parameter of the annealing code.
    - The counters [nodes_expanded] and [execution_time], the map loader and
      the visualizer take no part in what the calls return and are left
      out. *)

From Stdlib Require Import ZArith Floats Uint63 ZifyNat.
From stdpp Require Import gmap strings list.

Open Scope Z_scope.

#[local] Set Warnings "-clear-no-such-hyp,-register-all".

(** ** Outcomes of a call *)

Inductive outcome (A : Type) : Type :=
| Returned (a : A)
| Raised
| OutOfFuel.
Arguments Returned {A} a.
Arguments Raised {A}.
Arguments OutOfFuel {A}.

Definition obind {A B : Type} (m : outcome A) (k : A → outcome B) : outcome B :=
  match m with
  | Returned a => k a
  | Raised => Raised
  | OutOfFuel => OutOfFuel
  end.

Notation "'let*' x ':=' m 'in' k" := (obind m (fun x => k))
  (at level 10, x pattern, m at level 100, k at level 200).

(** ** environment.py *)

Definition Position : Type := Z * Z.

Inductive Direction : Type := UP | DOWN | LEFT | RIGHT | STAY.

(** [Direction.value] *)
Definition value (d : Direction) : Z * Z :=
  match d with
  | UP => (0, -1)
  | DOWN => (0, 1)
  | LEFT => (-1, 0)
  | RIGHT => (1, 0)
  | STAY => (0, 0)
  end.

Record DynamicObstacle : Type := mkDynamicObstacle {
  name : string;
  position : Position;
  pattern : list Direction;
  interval : Z;
  step_count : Z;
  history : list Position
}.

(** [DynamicObstacle.__init__] *)
Definition DynamicObstacle_init (nm : string) (start_pos : Position)
    (pat : list Direction) (iv : Z) : DynamicObstacle :=
  {| name := nm; position := start_pos; pattern := pat; interval := iv;
     step_count := 0; history := [start_pos] |}.

(** [self.pattern[i]] for an index already reduced modulo the length. *)
Definition pattern_at (pat : list Direction) (i : Z) : outcome Direction :=
  match pat !! Z.to_nat i with
  | Some d => Returned d
  | None => Raised
  end.

Definition shift (p : Position) (d : Direction) : Position :=
  (fst p + fst (value d), snd p + snd (value d)).

(** [DynamicObstacle.move]: the updated obstacle and the returned position.
    [time % interval] raises when the interval is zero, the pattern index
    raises when the pattern is empty; both happen before any field is
    written. *)
Definition move (o : DynamicObstacle) (time : Z)
    : outcome (DynamicObstacle * Position) :=
  if interval o =? 0 then Raised
  else if time `mod` interval o =? 0 then
    if Z.of_nat (length (pattern o)) =? 0 then Raised
    else
      let* d := pattern_at (pattern o)
            ((time `div` interval o) `mod` Z.of_nat (length (pattern o))) in
      let new_pos := shift (position o) d in
      Returned ({| name := name o; position := new_pos;
                   pattern := pattern o; interval := interval o;
                   step_count := step_count o;
                   history := history o ++ [new_pos] |}, new_pos)
  else Returned (o, position o).

(** The body of [for i in range(n)] in [get_position_at_time], for the
    indices [i, i+1, ...] ([count] of them). *)
Fixpoint replay (pat : list Direction) (count : nat) (i : Z)
    (current_pos : Position) : outcome Position :=
  match count with
  | O => Returned current_pos
  | S count' =>
      let* d := pattern_at pat (i `mod` Z.of_nat (length pat)) in
      replay pat count' (i + 1) (shift current_pos d)
  end.

(** [DynamicObstacle.get_position_at_time] *)
Definition get_position_at_time (o : DynamicObstacle) (time : Z)
    : outcome Position :=
  if interval o =? 0 then Raised
  else
    let effective_time := time `div` interval o in
    if Z.of_nat (length (pattern o)) =? 0 then Raised
    else
      match history o !! 0%nat with
      | None => Raised
      | Some current_pos =>
          replay (pattern o) (Z.to_nat (effective_time + 1)) 0 current_pos
      end.

Record GridEnvironment : Type := mkGridEnvironment {
  width : Z;
  height : Z;
  grid : Z → Z → Z;
  static_obstacles : gset Position;
  dynamic_obstacles : list (string * DynamicObstacle);
  packages : list (Z * Position);
  start_position : Position;
  delivery_points : gset Position
}.

(** [GridEnvironment.__init__]: every cell is a road. *)
Definition GridEnvironment_init (w h : Z) : GridEnvironment :=
  {| width := w; height := h; grid := fun _ _ => 1;
     static_obstacles := ∅; dynamic_obstacles := []; packages := [];
     start_position := (0, 0); delivery_points := ∅ |}.

Definition is_within_bounds (e : GridEnvironment) (x y : Z) : bool :=
  (0 <=? x) && (x <? width e) && (0 <=? y) && (y <? height e).

Definition get_terrain_cost (e : GridEnvironment) (x y : Z) : Z :=
  if negb (is_within_bounds e x y) then 999 else grid e y x.

Definition Position_eqb (p q : Position) : bool :=
  (fst p =? fst q) && (snd p =? snd q).

(** The loop over [self.dynamic_obstacles.values()] in [is_obstructed]. *)
Fixpoint obstacles_hit (obs : list (string * DynamicObstacle)) (x y time : Z)
    : outcome bool :=
  match obs with
  | [] => Returned false
  | (_, obstacle) :: rest =>
      let* obs_pos := get_position_at_time obstacle time in
      if Position_eqb (x, y) obs_pos then Returned true
      else obstacles_hit rest x y time
  end.

Definition is_obstructed (e : GridEnvironment) (x y time : Z) : outcome bool :=
  if bool_decide ((x, y) ∈ static_obstacles e) then Returned true
  else obstacles_hit (dynamic_obstacles e) x y time.

(** The loop over the four directions in [get_valid_moves]. *)
Fixpoint valid_moves_from (e : GridEnvironment) (dirs : list Direction)
    (x y time : Z) : outcome (list (Z * Z * Z)) :=
  match dirs with
  | [] => Returned []
  | direction :: rest =>
      let new_x := x + fst (value direction) in
      let new_y := y + snd (value direction) in
      if is_within_bounds e new_x new_y then
        let* blocked := is_obstructed e new_x new_y time in
        let* moves := valid_moves_from e rest x y time in
        Returned (if blocked then moves
                  else (new_x, new_y, get_terrain_cost e new_x new_y) :: moves)
      else valid_moves_from e rest x y time
  end.

Definition get_valid_moves (e : GridEnvironment) (x y time : Z)
    : outcome (list (Z * Z * Z)) :=
  valid_moves_from e [UP; DOWN; LEFT; RIGHT] x y time.

(** An obstacle on which neither method can raise. *)
Definition obstacle_ok (o : DynamicObstacle) : Prop :=
  interval o ≠ 0 ∧ pattern o ≠ [] ∧ history o ≠ [].

Definition env_ok (e : GridEnvironment) : Prop :=
  ∀ nm o, (nm, o) ∈ dynamic_obstacles e → obstacle_ok o.

(** The state of an obstacle after a call of [move], whether the call
    returned or raised (a raising call writes no field). *)
Definition move_state (o : DynamicObstacle) (time : Z) : DynamicObstacle :=
  match move o time with
  | Returned (o', _) => o'
  | _ => o
  end.

(** A sequence of [move] calls at the given times. *)
Definition run_moves (o : DynamicObstacle) (times : list Z) : DynamicObstacle :=
  fold_left move_state times o.

(** Every obstacle of the environment is moved at the times [sched] gives
    for its name. *)
Definition advance_obstacles (sched : string → list Z) (e : GridEnvironment)
    : GridEnvironment :=
  {| width := width e; height := height e; grid := grid e;
     static_obstacles := static_obstacles e;
     dynamic_obstacles :=
       map (fun no => (fst no, run_moves (snd no) (sched (fst no))))
           (dynamic_obstacles e);
     packages := packages e; start_position := start_position e;
     delivery_points := delivery_points e |}.

(** The environment of [test_obstacle_detection], and the same grid with a
    patrolling obstacle added. *)
Definition test_env : GridEnvironment :=
  {| width := 10; height := 10; grid := fun _ _ => 1;
     static_obstacles := {[ (5, 5) ]}; dynamic_obstacles := []; packages := [];
     start_position := (0, 0); delivery_points := ∅ |}.

Definition patrol : DynamicObstacle :=
  DynamicObstacle_init "patrol" (2, 2) [RIGHT; DOWN; LEFT; UP] 2.

Definition patrol_env : GridEnvironment :=
  {| width := 10; height := 10; grid := fun _ _ => 1;
     static_obstacles := {[ (5, 5) ]};
     dynamic_obstacles := [("patrol"%string, patrol)]; packages := [];
     start_position := (0, 0); delivery_points := ∅ |}.

(** ** heapq

    The binary heap of the Python standard library on a list, with the
    comparisons made in the order [heapq] makes them, so that entries that
    compare equal leave the heap in the order they do in Python. *)

Section heapq.
Context {A : Type} (lt : A → A → bool).

(** The [while pos > startpos] loop of [_siftdown]; [pos] bounds the
    number of iterations. *)
Fixpoint siftdown_loop (steps : nat) (heap : list A) (startpos pos : nat)
    (newitem : A) : list A :=
  match steps with
  | O => <[pos := newitem]> heap
  | S steps' =>
      if bool_decide (startpos < pos)%nat then
        let parentpos := ((pos - 1) / 2)%nat in
        match heap !! parentpos with
        | Some parent =>
            if lt newitem parent then
              siftdown_loop steps' (<[pos := parent]> heap) startpos
                parentpos newitem
            else <[pos := newitem]> heap
        | None => <[pos := newitem]> heap
        end
      else <[pos := newitem]> heap
  end.

Definition siftdown (heap : list A) (startpos pos : nat) : list A :=
  match heap !! pos with
  | Some newitem => siftdown_loop pos heap startpos pos newitem
  | None => heap
  end.

(** The [while childpos < endpos] loop of [_siftup]: the smaller child
    moves up until a leaf is reached; the result is the heap and the
    position of the emptied leaf. *)
Fixpoint siftup_loop (steps : nat) (heap : list A) (pos : nat)
    : list A * nat :=
  match steps with
  | O => (heap, pos)
  | S steps' =>
      let endpos := length heap in
      let childpos := (2 * pos + 1)%nat in
      if bool_decide (childpos < endpos)%nat then
        let rightpos := (childpos + 1)%nat in
        let childpos :=
          match heap !! childpos, heap !! rightpos with
          | Some l, Some r => if negb (lt l r) then rightpos else childpos
          | _, _ => childpos
          end in
        match heap !! childpos with
        | Some c => siftup_loop steps' (<[pos := c]> heap) childpos
        | None => (heap, pos)
        end
      else (heap, pos)
  end.

Definition siftup (heap : list A) (pos : nat) : list A :=
  match heap !! pos with
  | Some newitem =>
      let '(heap', leaf) := siftup_loop (length heap) heap pos in
      siftdown (<[leaf := newitem]> heap') pos leaf
  | None => heap
  end.

Definition heappush (heap : list A) (item : A) : list A :=
  siftdown (heap ++ [item]) 0 (length heap).

(** [None] on the empty heap, which the callers test before popping. *)
Definition heappop (heap : list A) : option (A * list A) :=
  match last heap with
  | None => None
  | Some lastelt =>
      match removelast heap with
      | [] => Some (lastelt, [])
      | returnitem :: rest => Some (returnitem, siftup (lastelt :: rest) 0)
      end
  end.
End heapq.

(** ** algorithms.py *)

(** [SearchNode]; [parent] is the back link to the node it was expanded
    from. *)
Inductive SearchNode : Type :=
  mkSearchNode (cost : Z) (position : Position) (time : Z)
    (parent : option SearchNode) (action : option Direction)
    (packages_delivered : gset Z).

Module Node.
Definition cost (n : SearchNode) : Z :=
  let '(mkSearchNode c _ _ _ _ _) := n in c.
Definition position (n : SearchNode) : Position :=
  let '(mkSearchNode _ p _ _ _ _) := n in p.
Definition time (n : SearchNode) : Z :=
  let '(mkSearchNode _ _ t _ _ _) := n in t.
Definition parent (n : SearchNode) : option SearchNode :=
  let '(mkSearchNode _ _ _ p _ _) := n in p.
Definition packages_delivered (n : SearchNode) : gset Z :=
  let '(mkSearchNode _ _ _ _ _ d) := n in d.
End Node.

(** [SearchNode(start)] *)
Definition SearchNode_start (start : Position) : SearchNode :=
  mkSearchNode 0 start 0 None None ∅.

(** [reconstruct_path]: the positions from the root to the node. *)
Fixpoint path_to_root (n : SearchNode) : list Position :=
  match n with
  | mkSearchNode _ p _ None _ _ => [p]
  | mkSearchNode _ p _ (Some parent) _ _ => p :: path_to_root parent
  end.

Definition reconstruct_path (n : SearchNode) : list Position :=
  reverse (path_to_root n).

(** The loop over [self.env.packages.items()] in [get_successors]. *)
Fixpoint collect_packages (pkgs : list (Z * Position)) (pos : Position)
    (new_packages : gset Z) : gset Z :=
  match pkgs with
  | [] => new_packages
  | (pkg_id, delivery_pos) :: rest =>
      collect_packages rest pos
        (if Position_eqb pos delivery_pos
            && negb (bool_decide (pkg_id ∈ new_packages))
         then {[pkg_id]} ∪ new_packages else new_packages)
  end.

(** [get_successors]; the diagnostic counter [nodes_expanded] is not
    modelled. *)
Definition get_successors (e : GridEnvironment) (node : SearchNode)
    : outcome (list SearchNode) :=
  let '(x, y) := Node.position node in
  let* moves := get_valid_moves e x y (Node.time node) in
  Returned
    (map (fun '(new_x, new_y, move_cost) =>
            mkSearchNode (Node.cost node + move_cost) (new_x, new_y)
              (Node.time node + 1) (Some node) None
              (collect_packages (packages e) (new_x, new_y)
                 (Node.packages_delivered node)))
         moves).

(** [BFS.search] *)
Fixpoint bfs_visit (successors : list SearchNode) (queue : list SearchNode)
    (visited : gset Position) : list SearchNode * gset Position :=
  match successors with
  | [] => (queue, visited)
  | successor :: rest =>
      if bool_decide (Node.position successor ∈ visited)
      then bfs_visit rest queue visited
      else bfs_visit rest (queue ++ [successor])
             ({[Node.position successor]} ∪ visited)
  end.

Fixpoint bfs_loop (fuel : nat) (e : GridEnvironment) (goal : Position)
    (queue : list SearchNode) (visited : gset Position)
    : outcome (option (list Position)) :=
  match fuel with
  | O => OutOfFuel
  | S fuel' =>
      match queue with
      | [] => Returned None
      | current :: queue' =>
          if Position_eqb (Node.position current) goal
          then Returned (Some (reconstruct_path current))
          else
            let* successors := get_successors e current in
            let '(queue'', visited') := bfs_visit successors queue' visited in
            bfs_loop fuel' e goal queue'' visited'
      end
  end.

Definition BFS_search (fuel : nat) (e : GridEnvironment)
    (start goal : Position) : outcome (option (list Position)) :=
  bfs_loop fuel e goal [SearchNode_start start] {[start]}.

(** Priorities: integers, or floats for the Euclidean heuristic. *)
Inductive Key : Type := KInt (z : Z) | KFloat (f : float).

(** Conversion of an integer to a float; exact below 2^53 in absolute
    value, and meant for integers below 2^63. *)
Definition Z_to_float (z : Z) : float :=
  if z <? 0 then PrimFloat.opp (PrimFloat.of_uint63 (Uint63.of_Z (- z)))
  else PrimFloat.of_uint63 (Uint63.of_Z z).

Definition Key_to_float (k : Key) : float :=
  match k with
  | KInt z => Z_to_float z
  | KFloat f => f
  end.

Definition Key_eqb (a b : Key) : bool :=
  match a, b with
  | KInt x, KInt y => x =? y
  | _, _ => PrimFloat.eqb (Key_to_float a) (Key_to_float b)
  end.

Definition Key_ltb (a b : Key) : bool :=
  match a, b with
  | KInt x, KInt y => x <? y
  | _, _ => PrimFloat.ltb (Key_to_float a) (Key_to_float b)
  end.

(** [new_g + h] *)
Definition Key_add (g : Z) (h : Key) : Key :=
  match h with
  | KInt z => KInt (g + z)
  | KFloat f => KFloat (PrimFloat.add (Z_to_float g) f)
  end.

(** [<] on the tuples [(priority, node)] held in the frontier: priorities
    first, and for equal priorities the nodes, which the dataclass orders by
    [cost] alone. *)
Definition entry_lt (a b : Key * SearchNode) : bool :=
  if Key_eqb (fst a) (fst b) then Node.cost (snd a) <? Node.cost (snd b)
  else Key_ltb (fst a) (fst b).

(** [UniformCostSearch.search] *)
Fixpoint ucs_visit (successors : list SearchNode)
    (frontier : list (Key * SearchNode)) (visited_costs : gmap Position Z)
    : list (Key * SearchNode) * gmap Position Z :=
  match successors with
  | [] => (frontier, visited_costs)
  | successor :: rest =>
      let better :=
        match visited_costs !! Node.position successor with
        | None => true
        | Some c => Node.cost successor <? c
        end in
      if better then
        ucs_visit rest
          (heappush entry_lt frontier (KInt (Node.cost successor), successor))
          (<[Node.position successor := Node.cost successor]> visited_costs)
      else ucs_visit rest frontier visited_costs
  end.

Fixpoint ucs_loop (fuel : nat) (e : GridEnvironment) (goal : Position)
    (frontier : list (Key * SearchNode)) (visited_costs : gmap Position Z)
    : outcome (option (list Position)) :=
  match fuel with
  | O => OutOfFuel
  | S fuel' =>
      match heappop entry_lt frontier with
      | None => Returned None
      | Some ((current_cost, current), frontier') =>
          let stale :=
            match visited_costs !! Node.position current with
            | None => false
            | Some c => Key_ltb (KInt c) current_cost
            end in
          if stale then ucs_loop fuel' e goal frontier' visited_costs
          else if Position_eqb (Node.position current) goal
          then Returned (Some (reconstruct_path current))
          else
            let* successors := get_successors e current in
            let '(frontier'', visited_costs') :=
              ucs_visit successors frontier' visited_costs in
            ucs_loop fuel' e goal frontier'' visited_costs'
      end
  end.

Definition UniformCostSearch_search (fuel : nat) (e : GridEnvironment)
    (start goal : Position) : outcome (option (list Position)) :=
  ucs_loop fuel e goal
    (heappush entry_lt [] (KInt 0, SearchNode_start start)) {[start := 0]}.

(** [AStarSearch.calculate_heuristic] *)
Definition calculate_heuristic (heuristic : string) (pos goal : Position)
    : Key :=
  let '(x1, y1) := pos in
  let '(x2, y2) := goal in
  if String.eqb heuristic "manhattan" then
    KInt (Z.abs (x1 - x2) + Z.abs (y1 - y2))
  else if String.eqb heuristic "euclidean" then
    KFloat (PrimFloat.sqrt (Z_to_float ((x1 - x2) ^ 2 + (y1 - y2) ^ 2)))
  else if String.eqb heuristic "chebyshev" then
    KInt (Z.max (Z.abs (x1 - x2)) (Z.abs (y1 - y2)))
  else KInt 0.

(** [AStarSearch.search] *)
Fixpoint astar_visit (e : GridEnvironment) (heuristic : string)
    (goal : Position) (current : SearchNode) (visited : gset Position)
    (successors : list SearchNode) (frontier : list (Key * SearchNode))
    (g_costs : gmap Position Z) : list (Key * SearchNode) * gmap Position Z :=
  match successors with
  | [] => (frontier, g_costs)
  | successor :: rest =>
      if bool_decide (Node.position successor ∈ visited)
      then astar_visit e heuristic goal current visited rest frontier g_costs
      else
        let new_g :=
          Node.cost current
          + get_terrain_cost e (fst (Node.position successor))
                               (snd (Node.position successor)) in
        let better :=
          match g_costs !! Node.position successor with
          | None => true
          | Some c => new_g <? c
          end in
        if better then
          let h := calculate_heuristic heuristic (Node.position successor) goal in
          let f := Key_add new_g h in
          astar_visit e heuristic goal current visited rest
            (heappush entry_lt frontier (f, successor))
            (<[Node.position successor := new_g]> g_costs)
        else astar_visit e heuristic goal current visited rest frontier g_costs
  end.

Fixpoint astar_loop (fuel : nat) (e : GridEnvironment) (heuristic : string)
    (goal : Position) (frontier : list (Key * SearchNode))
    (g_costs : gmap Position Z) (visited : gset Position)
    : outcome (option (list Position)) :=
  match fuel with
  | O => OutOfFuel
  | S fuel' =>
      match heappop entry_lt frontier with
      | None => Returned None
      | Some ((current_f, current), frontier') =>
          if bool_decide (Node.position current ∈ visited)
          then astar_loop fuel' e heuristic goal frontier' g_costs visited
          else
            let visited' := {[Node.position current]} ∪ visited in
            if Position_eqb (Node.position current) goal
            then Returned (Some (reconstruct_path current))
            else
              let* successors := get_successors e current in
              let '(frontier'', g_costs') :=
                astar_visit e heuristic goal current visited' successors
                  frontier' g_costs in
              astar_loop fuel' e heuristic goal frontier'' g_costs' visited'
      end
  end.

Definition AStarSearch_search (fuel : nat) (e : GridEnvironment)
    (heuristic : string) (start goal : Position)
    : outcome (option (list Position)) :=
  astar_loop fuel e heuristic goal
    (heappush entry_lt [] (calculate_heuristic heuristic start goal,
                           SearchNode_start start))
    {[start := 0]} ∅.

(** The grid of [test_algorithms.py]: five by five, every cell a road. *)
Definition road_env : GridEnvironment := GridEnvironment_init 5 5.

(** ** The random module

    A generator is a tape of raw draws and a cursor.  [random.random()]
    is a 53-bit integer scaled by 2^-53, as in CPython; [randint] and
    [sample] reduce a raw draw to the requested range, so that every value
    Python can produce is produced by some tape. *)

Record Rng : Type := mkRng { tape : nat → N; cursor : nat }.

Definition draw (g : Rng) : N * Rng :=
  (tape g (cursor g), {| tape := tape g; cursor := S (cursor g) |}).

(** [random.randint(a, b)]; raises on an empty range. *)
Definition randint (a b : Z) (g : Rng) : outcome (Z * Rng) :=
  if b <? a then Raised
  else let '(r, g') := draw g in Returned (a + Z.of_N r `mod` (b - a + 1), g').

(** [random.random()] *)
Definition random (g : Rng) : float * Rng :=
  let '(r, g') := draw g in
  (PrimFloat.mul (Z_to_float (Z.of_N r `mod` 2 ^ 53)) 0x1p-53%float, g').

(** [random.sample(range(lo, hi), 2)]: two distinct values of the range. *)
Definition sample2 (lo hi : Z) (g : Rng) : outcome (Z * Z * Rng) :=
  let n := hi - lo in
  if n <? 2 then Raised
  else
    let '(r1, g1) := draw g in
    let '(r2, g2) := draw g1 in
    let i := Z.of_N r1 `mod` n in
    let k := Z.of_N r2 `mod` (n - 1) in
    let j := if k <? i then k else k + 1 in
    Returned (lo + i, lo + j, g2).

(** ** Python list slices *)

Definition clamp_index (n i : Z) : Z :=
  if i <? 0 then Z.max (i + n) 0 else Z.min i n.

(** [l[start:stop]] *)
Definition py_slice {A : Type} (l : list A) (start stop : Z) : list A :=
  let n := Z.of_nat (length l) in
  let s := clamp_index n start in
  let t := clamp_index n stop in
  take (Z.to_nat (t - s)) (drop (Z.to_nat s) l).

(** [l[start:]] *)
Definition py_slice_from {A : Type} (l : list A) (start : Z) : list A :=
  drop (Z.to_nat (clamp_index (Z.of_nat (length l)) start)) l.

(** [l[:stop]] *)
Definition py_slice_to {A : Type} (l : list A) (stop : Z) : list A :=
  take (Z.to_nat (clamp_index (Z.of_nat (length l)) stop)) l.

(** [l[i]] for a non-negative index. *)
Definition py_index {A : Type} (l : list A) (i : Z) : outcome A :=
  if i <? 0 then Raised
  else match l !! Z.to_nat i with
       | Some a => Returned a
       | None => Raised
       end.

(** ** Path scores: an integer, or [float('inf')] for the empty path. *)

Inductive Score : Type := Finite (z : Z) | Infinite.

Definition Score_ltb (a b : Score) : bool :=
  match a, b with
  | Finite x, Finite y => x <? y
  | Finite _, Infinite => true
  | Infinite, _ => false
  end.

(** ** HillClimbing *)

(** The loop of [HillClimbing.evaluate_path] over [path[1:]]. *)
Fixpoint hc_evaluate_from (e : GridEnvironment) (cells : list Position)
    (time total_cost : Z) : outcome Z :=
  match cells with
  | [] => Returned total_cost
  | (x, y) :: rest =>
      let total_cost := total_cost + get_terrain_cost e x y in
      let* blocked := is_obstructed e x y time in
      hc_evaluate_from e rest (time + 1)
        (if blocked then total_cost + 1000 else total_cost)
  end.

Definition hc_evaluate_path (e : GridEnvironment) (path : list Position)
    : outcome Score :=
  match path with
  | [] => Returned Infinite
  | _ :: rest =>
      let* total := hc_evaluate_from e rest 0 0 in Returned (Finite total)
  end.

(** The loop over the four offsets in [find_alternative_route]. *)
Fixpoint far_visit (e : GridEnvironment) (original_segment : list Position)
    (current : Position) (path : list Position) (offsets : list (Z * Z))
    (queue : list (Position * list Position)) (visited : gset Position)
    : outcome (list (Position * list Position) * gset Position) :=
  match offsets with
  | [] => Returned (queue, visited)
  | (dx, dy) :: rest =>
      let neighbor := (fst current + dx, snd current + dy) in
      if is_within_bounds e (fst neighbor) (snd neighbor)
         && negb (bool_decide (neighbor ∈ visited)) then
        let* blocked := is_obstructed e (fst neighbor) (snd neighbor) 0 in
        if negb blocked && negb (bool_decide (neighbor ∈ original_segment))
        then far_visit e original_segment current path rest
               (queue ++ [(neighbor, path ++ [neighbor])])
               ({[neighbor]} ∪ visited)
        else far_visit e original_segment current path rest queue visited
      else far_visit e original_segment current path rest queue visited
  end.

Fixpoint far_loop (fuel : nat) (e : GridEnvironment) (end_ : Position)
    (original_segment : list Position)
    (queue : list (Position * list Position)) (visited : gset Position)
    : outcome (option (list Position)) :=
  match fuel with
  | O => OutOfFuel
  | S fuel' =>
      match queue with
      | [] => Returned None
      | (current, path) :: queue' =>
          if Position_eqb current end_ then Returned (Some (drop 1 path))
          else
            let* (queue'', visited') :=
              far_visit e original_segment current path
                [(0, 1); (1, 0); (0, -1); (-1, 0)] queue' visited in
            far_loop fuel' e end_ original_segment queue'' visited'
      end
  end.

(** [HillClimbing.find_alternative_route] *)
Definition find_alternative_route (fuel : nat) (e : GridEnvironment)
    (start end_ : Position) (original_segment : list Position)
    : outcome (option (list Position)) :=
  far_loop fuel e end_ original_segment [(start, [start])] {[start]}.

(** [HillClimbing.generate_neighbor]; an exception of the route finder is
    swallowed by the bare [except]. *)
Definition hc_generate_neighbor (fuel : nat) (e : GridEnvironment)
    (path : list Position) (g : Rng) : outcome (list Position * Rng) :=
  let len := Z.of_nat (length path) in
  if len <=? 2 then Returned (path, g)
  else
    let* (start_idx, g) := randint 1 (len - 2) g in
    let* (span, g) := randint 1 3 g in
    let end_idx := Z.min (start_idx + span) (len - 1) in
    let* segment_start := py_index path (start_idx - 1) in
    let* segment_end := py_index path end_idx in
    match find_alternative_route fuel e segment_start segment_end
            (py_slice path start_idx end_idx) with
    | Returned (Some (c :: alt_segment)) =>
        Returned (py_slice_to path start_idx ++ (c :: alt_segment)
                  ++ py_slice_from path end_idx, g)
    | Returned _ | Raised => Returned (path, g)
    | OutOfFuel => OutOfFuel
    end.

(** The [for _ in range(100)] loop of [HillClimbing.search]. *)
Fixpoint hc_inner (iterations : nat) (fuel : nat) (e : GridEnvironment)
    (current_path : list Position) (current_score : Score)
    (improvements : Z) (g : Rng)
    : outcome (list Position * Score * Rng) :=
  match iterations with
  | O => Returned (current_path, current_score, g)
  | S iterations' =>
      let* (neighbor, g) := hc_generate_neighbor fuel e current_path g in
      let* neighbor_score := hc_evaluate_path e neighbor in
      let '(current_path, current_score, improvements, g) :=
        if Score_ltb neighbor_score current_score
        then (neighbor, neighbor_score, improvements + 1, g)
        else
          let '(r, g) := random g in
          if PrimFloat.ltb r 0x1.999999999999ap-4%float
          then (neighbor, neighbor_score, improvements, g)
          else (current_path, current_score, improvements, g) in
      if 10 <=? improvements then Returned (current_path, current_score, g)
      else hc_inner iterations' fuel e current_path current_score
             improvements g
  end.

(** [path or []] for an optional path. *)
Definition or_empty (path : option (list Position)) : list Position :=
  match path with
  | Some p => p
  | None => []
  end.

(** The [for restart in range(self.max_restarts)] loop of
    [HillClimbing.search]. *)
Fixpoint hc_restarts (restarts : nat) (fuel : nat) (e : GridEnvironment)
    (start goal : Position) (best_path : list Position) (best_score : Score)
    (g : Rng) : outcome (list Position * Rng) :=
  match restarts with
  | O => Returned (best_path, g)
  | S restarts' =>
      let* current_path :=
        match best_path with
        | [] =>
            let* found := AStarSearch_search fuel e "manhattan" start goal in
            Returned (or_empty found)
        | _ => Returned best_path
        end in
      let* current_score := hc_evaluate_path e current_path in
      let* (current_path, current_score, g) :=
        hc_inner 100 fuel e current_path current_score 0 g in
      if Score_ltb current_score best_score
      then hc_restarts restarts' fuel e start goal current_path current_score g
      else hc_restarts restarts' fuel e start goal best_path best_score g
  end.

(** [HillClimbing.search], with [max_restarts] at its default of 10. *)
Definition HillClimbing_search (fuel : nat) (e : GridEnvironment)
    (start goal : Position) (initial_path : option (list Position)) (g : Rng)
    : outcome (list Position * Rng) :=
  let best_path := or_empty initial_path in
  let* best_score := hc_evaluate_path e best_path in
  hc_restarts 10 fuel e start goal best_path best_score g.

(** ** SimulatedAnnealing *)

Definition sa_evaluate_path (e : GridEnvironment) (path : list Position)
    : Score :=
  match path with
  | [] => Infinite
  | _ :: rest =>
      Finite (foldr Z.add 0 (map (fun '(x, y) => get_terrain_cost e x y) rest))
  end.

(** [SimulatedAnnealing.generate_neighbor]: two interior cells are swapped. *)
Definition sa_generate_neighbor (path : list Position) (g : Rng)
    : outcome (list Position * Rng) :=
  let len := Z.of_nat (length path) in
  if len <=? 3 then Returned (path, g)
  else
    let* (i, j, g) := sample2 1 (len - 1) g in
    let* pi := py_index path i in
    let* pj := py_index path j in
    Returned (<[Z.to_nat j := pi]> (<[Z.to_nat i := pj]> path), g).

Definition Score_to_float (s : Score) : float :=
  match s with
  | Finite z => Z_to_float z
  | Infinite => PrimFloat.infinity
  end.

(** [current_score - neighbor_score] as the float that is divided by the
    temperature. *)
Definition Score_diff (a b : Score) : float :=
  match a, b with
  | Finite x, Finite y => Z_to_float (x - y)
  | _, _ => PrimFloat.sub (Score_to_float a) (Score_to_float b)
  end.

Section annealing.
(** [math.exp], of which the model fixes nothing. *)
Variable exp : float → float.

(** The [while temperature > 1] loop of [SimulatedAnnealing.search]. *)
Fixpoint sa_loop (fuel : nat) (e : GridEnvironment) (cooling_rate : float)
    (temperature : float) (current_path : list Position)
    (current_score : Score) (best_path : list Position)
    (best_score : Score) (g : Rng) : outcome (list Position * Rng) :=
  match fuel with
  | O => OutOfFuel
  | S fuel' =>
      if PrimFloat.ltb 1%float temperature then
        let* (neighbor, g) := sa_generate_neighbor current_path g in
        let neighbor_score := sa_evaluate_path e neighbor in
        let '(current_path, current_score, best_path, best_score, g) :=
          if Score_ltb neighbor_score current_score then
            if Score_ltb neighbor_score best_score
            then (neighbor, neighbor_score, neighbor, neighbor_score, g)
            else (neighbor, neighbor_score, best_path, best_score, g)
          else
            let probability :=
              exp (PrimFloat.div (Score_diff current_score neighbor_score)
                     temperature) in
            let '(r, g) := random g in
            if PrimFloat.ltb r probability
            then (neighbor, neighbor_score, best_path, best_score, g)
            else (current_path, current_score, best_path, best_score, g) in
        sa_loop fuel' e cooling_rate
          (PrimFloat.mul temperature cooling_rate)
          current_path current_score best_path best_score g
      else Returned (best_path, g)
  end.

(** [SimulatedAnnealing.search], with the default initial temperature
    1000 and cooling rate 0.95. *)
Definition SimulatedAnnealing_search (fuel : nat) (e : GridEnvironment)
    (start goal : Position) (initial_path : option (list Position))
    (g : Rng) : outcome (list Position * Rng) :=
  let* current_path :=
    match or_empty initial_path with
    | [] =>
        let* found := AStarSearch_search fuel e "manhattan" start goal in
        Returned (or_empty found)
    | p => Returned p
    end in
  let current_score := sa_evaluate_path e current_path in
  sa_loop fuel e 0x1.e666666666666p-1%float 1000%float
    current_path current_score current_path current_score g.
End annealing.

(** ** agent.py *)

Record DeliveryStatus : Type := mkDeliveryStatus {
  status_packages_delivered : gset Z;
  total_cost : Z;
  total_time : Z;
  path_taken : list Position
}.

(** The mutable fields of a [DeliveryAgent]; the environment it holds is
    passed next to it. *)
Record DeliveryAgent : Type := mkDeliveryAgent {
  agent_position : Position;
  agent_fuel : Z;
  agent_time : Z;
  packages_delivered : gset Z;
  path_history : list Position;
  status_log : list DeliveryStatus
}.

(** [DeliveryAgent.__init__] *)
Definition DeliveryAgent_init (e : GridEnvironment) (fuel_capacity : Z)
    : DeliveryAgent :=
  {| agent_position := start_position e; agent_fuel := fuel_capacity;
     agent_time := 0; packages_delivered := ∅;
     path_history := [start_position e]; status_log := [] |}.

(** [DeliveryAgent.find_path] *)
Definition find_path (fuel : nat) (e : GridEnvironment)
    (start goal : Position) (algorithm heuristic : string)
    : outcome (option (list Position)) :=
  if String.eqb algorithm "bfs" then BFS_search fuel e start goal
  else if String.eqb algorithm "ucs"
  then UniformCostSearch_search fuel e start goal
  else AStarSearch_search fuel e heuristic start goal.

(** [self.env.packages[pkg_id]] *)
Fixpoint packages_lookup (pkgs : list (Z * Position)) (pkg_id : Z)
    : option Position :=
  match pkgs with
  | [] => None
  | (k, v) :: rest =>
      if k =? pkg_id then Some v else packages_lookup rest pkg_id
  end.

(** The [for pkg_id in remaining_packages] loop of
    [plan_delivery_route]: the nearest package so far, its path length and
    its path. *)
Fixpoint nearest_package (fuel : nat) (e : GridEnvironment)
    (current_pos : Position) (algorithm heuristic : string)
    (remaining : list Z) (nearest : option (Z * nat * list Position))
    : outcome (option (Z * nat * list Position)) :=
  match remaining with
  | [] => Returned nearest
  | pkg_id :: rest =>
      match packages_lookup (packages e) pkg_id with
      | None => Raised
      | Some goal_pos =>
          let* path := find_path fuel e current_pos goal_pos algorithm
                         heuristic in
          let closer :=
            match path, nearest with
            | None, _ | Some [], _ => false
            | Some _, None => true
            | Some p, Some (_, min_distance, _) =>
                bool_decide (length p < min_distance)%nat
            end in
          nearest_package fuel e current_pos algorithm heuristic rest
            (if closer then Some (pkg_id, length (or_empty path), or_empty path)
             else nearest)
      end
  end.

(** The [while remaining_packages] loop; [rounds] is the number of
    remaining packages, one of which leaves in every round that does not
    end the loop. *)
Fixpoint plan_loop (rounds : nat) (fuel : nat) (e : GridEnvironment)
    (algorithm heuristic : string) (current_pos : Position)
    (remaining : list Z) (full_route : list Position)
    : outcome (list Position) :=
  match remaining with
  | [] => Returned full_route
  | _ :: _ =>
      match rounds with
      | O => OutOfFuel
      | S rounds' =>
          let* nearest := nearest_package fuel e current_pos algorithm
                            heuristic remaining None in
          match nearest with
          | Some (nearest_pkg, _, nearest_path) =>
              if negb (nearest_pkg =? 0)
                 && negb (bool_decide (nearest_path = [])) then
                match packages_lookup (packages e) nearest_pkg with
                | None => Raised
                | Some goal_pos =>
                    plan_loop rounds' fuel e algorithm heuristic goal_pos
                      (filter (fun k => k ≠ nearest_pkg) remaining)
                      (full_route ++ drop 1 nearest_path)
                end
              else Returned full_route
          | None => Returned full_route
          end
      end
  end.

(** The keys of a dictionary given as an association list, each once, in
    the order of first insertion. *)
Fixpoint dict_keys (pkgs : list (Z * Position)) (seen : gset Z) : list Z :=
  match pkgs with
  | [] => []
  | (k, _) :: rest =>
      if bool_decide (k ∈ seen) then dict_keys rest seen
      else k :: dict_keys rest ({[k]} ∪ seen)
  end.

(** [DeliveryAgent.plan_delivery_route].  The set [remaining_packages] is
    iterated in the order of the dictionary keys. *)
Definition plan_delivery_route (fuel : nat) (e : GridEnvironment)
    (a : DeliveryAgent) (algorithm heuristic : string)
    : outcome (list Position) :=
  match packages e with
  | [] => Returned []
  | _ :: _ =>
      let remaining_packages :=
        filter (fun k => k ∉ packages_delivered a)
               (dict_keys (packages e) ∅) in
      let* full_route :=
        plan_loop (length remaining_packages) fuel e algorithm heuristic
          (agent_position a) remaining_packages [] in
      Returned (agent_position a :: full_route)
  end.


(** What [execute_route] prints. *)
Inductive Event : Type :=
| ObstacleDetected (pos : Position)
| ReplanningFailed
| PackageDelivered (pkg_id : Z) (pos : Position)
| OutOfFuelStop.

(** The loop over [self.env.packages.items()] after a move. *)
Fixpoint deliver_packages (pkgs : list (Z * Position)) (next_pos : Position)
    (delivered : gset Z) (output : list Event) : gset Z * list Event :=
  match pkgs with
  | [] => (delivered, output)
  | (pkg_id, delivery_pos) :: rest =>
      if Position_eqb next_pos delivery_pos
         && negb (bool_decide (pkg_id ∈ delivered))
      then deliver_packages rest next_pos ({[pkg_id]} ∪ delivered)
             (output ++ [PackageDelivered pkg_id next_pos])
      else deliver_packages rest next_pos delivered output
  end.

(** The state of the loop of [execute_route]: the agent, the local variable
    [route], the random generator and the printed lines. *)
Record ExecState : Type := mkExecState {
  agent : DeliveryAgent;
  route : list Position;
  rng : Rng;
  output : list Event
}.

(** How an iteration of a loop ends. *)
Inductive Flow (A : Type) : Type :=
| Continue (a : A)
| Break (a : A).
Arguments Continue {A} a.
Arguments Break {A} a.

Section execution.
(** [math.exp], used by the annealing fallback. *)
Variable exp : float → float.

(** [DeliveryAgent.replan_route] *)
Definition replan_route (fuel : nat) (e : GridEnvironment)
    (remaining_route : list Position) (g : Rng)
    : outcome (option (list Position) * Rng) :=
  if bool_decide (length remaining_route < 2)%nat then Returned (None, g)
  else
    let* current_pos := py_index remaining_route 0 in
    match last remaining_route with
    | None => Raised
    | Some goal_pos =>
        let* (new_path, g) :=
          HillClimbing_search fuel e current_pos goal_pos
            (Some remaining_route) g in
        match new_path with
        | [] =>
            let* (new_path, g) :=
              SimulatedAnnealing_search exp fuel e current_pos goal_pos
                (Some remaining_route) g in
            Returned (Some new_path, g)
        | _ => Returned (Some new_path, g)
        end
    end.

(** The obstruction check at the head of the loop body: [None] when
    replanning fails, otherwise the cell to step on. *)
Definition check_obstruction (fuel : nat) (e : GridEnvironment) (i : Z)
    (next_pos : Position) (st : ExecState)
    : outcome (option Position * ExecState) :=
  let* blocked :=
    is_obstructed e (fst next_pos) (snd next_pos) (agent_time (agent st)) in
  if blocked then
    let output := output st ++ [ObstacleDetected next_pos] in
    let* (new_route, g) :=
      replan_route fuel e (py_slice_from (route st) (i - 1)) (rng st) in
    match new_route with
    | Some (c :: new_route) =>
        let route := py_slice_to (route st) (i - 1) ++ c :: new_route in
        let* next_pos :=
          if i <? Z.of_nat (length route) then py_index route i
          else Returned next_pos in
        Returned (Some next_pos,
                  {| agent := agent st; route := route; rng := g;
                     output := output |})
    | _ =>
        Returned (None,
                  {| agent := agent st; route := route st; rng := g;
                     output := output ++ [ReplanningFailed] |})
    end
  else Returned (Some next_pos, st).

(** The move at the end of the loop body. *)
Definition move_to (e : GridEnvironment) (next_pos : Position)
    (st : ExecState) : Flow ExecState :=
  let a := agent st in
  let move_cost := get_terrain_cost e (fst next_pos) (snd next_pos) in
  if move_cost <=? agent_fuel a then
    let '(delivered, output) :=
      deliver_packages (packages e) next_pos (packages_delivered a)
        (output st) in
    Continue
      {| agent :=
           {| agent_position := next_pos;
              agent_fuel := agent_fuel a - move_cost;
              agent_time := agent_time a + 1;
              packages_delivered := delivered;
              path_history := path_history a ++ [next_pos];
              status_log := status_log a |};
         route := route st; rng := rng st; output := output |}
  else
    Break {| agent := a; route := route st; rng := rng st;
             output := output st ++ [OutOfFuelStop] |}.

(** One iteration of the loop of [execute_route]. *)
Definition execute_step (fuel : nat) (e : GridEnvironment) (i : Z)
    (next_pos : Position) (st : ExecState) : outcome (Flow ExecState) :=
  let* (target, st) := check_obstruction fuel e i next_pos st in
  match target with
  | Some next_pos => Returned (move_to e next_pos st)
  | None => Returned (Break st)
  end.

(** [for i, next_pos in enumerate(cells, i)] *)
Fixpoint execute_loop (fuel : nat) (e : GridEnvironment)
    (cells : list Position) (i : Z) (st : ExecState) : outcome ExecState :=
  match cells with
  | [] => Returned st
  | next_pos :: rest =>
      let* flow := execute_step fuel e i next_pos st in
      match flow with
      | Continue st => execute_loop fuel e rest (i + 1) st
      | Break st => Returned st
      end
  end.

(** [DeliveryAgent.execute_route]: the status, and the final state of the
    loop with the status logged in the agent. *)
Definition execute_route (fuel : nat) (e : GridEnvironment)
    (a : DeliveryAgent) (planned : list Position) (max_steps : Z) (g : Rng)
    : outcome (DeliveryStatus * ExecState) :=
  let* st :=
    execute_loop fuel e (py_slice planned 1 (max_steps + 1)) 1
      {| agent := a; route := planned; rng := g; output := [] |} in
  let a := agent st in
  let status :=
    {| status_packages_delivered := packages_delivered a;
       total_cost :=
         foldr Z.add 0
           (map (fun '(x, y) => get_terrain_cost e x y)
                (py_slice_from (path_history a) 1));
       total_time := agent_time a;
       path_taken := path_history a |} in
  Returned (status,
            {| agent :=
                 {| agent_position := agent_position a;
                    agent_fuel := agent_fuel a;
                    agent_time := agent_time a;
                    packages_delivered := packages_delivered a;
                    path_history := path_history a;
                    status_log := status_log a ++ [status] |};
               route := route st; rng := rng st; output := output st |}).
End execution.

(** The package ids of the delivery lines of an output. *)
Definition delivered_ids (out : list Event) : list Z :=
  omap (fun ev => match ev with
                  | PackageDelivered pkg_id _ => Some pkg_id
                  | _ => None
                  end) out.

(** The state an iteration ends in. *)
Definition flow_state {A : Type} (f : Flow A) : A :=
  match f with
  | Continue a => a
  | Break a => a
  end.

(** A generator whose raw draws are all zero, and a placeholder for
    [math.exp] in runs that never reach the annealing fallback. *)
Definition zero_rng : Rng := {| tape := fun _ => 0%N; cursor := 0 |}.

Definition exp_unused (x : float) : float := PrimFloat.nan.

(** The road grid with a static obstacle on the cell next to the start. *)
Definition blocked_env : GridEnvironment :=
  {| width := 5; height := 5; grid := fun _ _ => 1;
     static_obstacles := {[ (1, 0) ]}; dynamic_obstacles := []; packages := [];
     start_position := (0, 0); delivery_points := ∅ |}.

(** The road grid with three packages, two of them for the same cell. *)
Definition parcel_env : GridEnvironment :=
  {| width := 5; height := 5; grid := fun _ _ => 1;
     static_obstacles := ∅; dynamic_obstacles := [];
     packages := [(1, (1, 0)); (2, (1, 0)); (3, (4, 4))];
     start_position := (0, 0); delivery_points := {[ (1, 0); (4, 4) ]} |}.

(** The in-bounds cells of the grid, and the fuel that is enough for the
    breadth-first loop of [find_alternative_route], which puts a cell in its
    queue at most once. *)
Definition grid_cells (e : GridEnvironment) : gset Position :=
  list_to_set
    (x ← seqZ 0 (width e); y ← seqZ 0 (height e); [(x, y)]).

Definition repair_fuel (e : GridEnvironment) : nat :=
  S (S (size (grid_cells e))).

(** ** Walks on the static grid and their cost *)

(** [q] is one step up, down, left or right of [p]. *)
Definition adjacent (p q : Position) : Prop :=
  q ∈ [(p.1, p.2 - 1); (p.1, p.2 + 1); (p.1 - 1, p.2); (p.1 + 1, p.2)].

(** A cell that is in bounds and no static obstacle. *)
Definition passable (e : GridEnvironment) (q : Position) : Prop :=
  is_within_bounds e q.1 q.2 = true ∧ q ∉ static_obstacles e.

(** [reach e start q c]: some sequence of steps over passable cells leads
    from [start] to [q], and the terrain costs of the cells stepped on add up
    to [c]. *)
Inductive reach (e : GridEnvironment) (start : Position)
    : Position → Z → Prop :=
| reach_start : reach e start start 0
| reach_step (q q' : Position) (c : Z) :
    reach e start q c → adjacent q q' → passable e q' →
    reach e start q' (c + get_terrain_cost e q'.1 q'.2).

(** The total terrain cost of a path: the cost of every cell after the
    first, as [execute_route] and the annealing score add it up. *)
Definition cells_cost (e : GridEnvironment) (cells : list Position) : Z :=
  foldr Z.add 0 (map (fun '(x, y) => get_terrain_cost e x y) cells).

Definition route_cost (e : GridEnvironment) (path : list Position) : Z :=
  cells_cost e (drop 1 path).

(** A search node whose chain of parents is a sequence of steps from
    [start], with the cost the node records. *)
Fixpoint node_ok (e : GridEnvironment) (start : Position) (n : SearchNode)
    : Prop :=
  match n with
  | mkSearchNode c p _ None _ _ => p = start ∧ c = 0
  | mkSearchNode c p _ (Some parent) _ _ =>
      node_ok e start parent ∧ adjacent (Node.position parent) p ∧
      passable e p ∧ c = Node.cost parent + get_terrain_cost e p.1 p.2
  end.

(** Induction on the chain of parents of a node. *)
Fixpoint SearchNode_chain_ind (Q : SearchNode → Prop)
    (Hroot : ∀ c p t a d, Q (mkSearchNode c p t None a d))
    (Hchild : ∀ c p t parent a d,
        Q parent → Q (mkSearchNode c p t (Some parent) a d))
    (n : SearchNode) : Q n :=
  match n with
  | mkSearchNode c p t None a d => Hroot c p t a d
  | mkSearchNode c p t (Some parent) a d =>
      Hchild c p t parent a d (SearchNode_chain_ind Q Hroot Hchild parent)
  end.

(** The integer value of a heuristic that is not the Euclidean one. *)
Definition heuristic_value (heuristic : string) (goal pos : Position) : Z :=
  match calculate_heuristic heuristic pos goal with
  | KInt z => z
  | KFloat _ => 0
  end.

(** A frontier entry with an integer priority. *)
Definition int_keyed (entry : Key * SearchNode) : Prop :=
  ∃ z, entry.1 = KInt z.

(** ** Heap order *)

(** Every item is at least its parent. *)
Definition heap_ok {A : Type} (lt : A → A → bool) (heap : list A) : Prop :=
  ∀ i c p, (1 ≤ i)%nat → heap !! i = Some c →
           heap !! ((i - 1) / 2)%nat = Some p → lt c p = false.

(** The heap order holds between all items but the one at [pos], whose
    children are at least its parent. *)
Definition hole_ok {A : Type} (lt : A → A → bool) (heap : list A) (pos : nat)
    : Prop :=
  (∀ i c p, (1 ≤ i)%nat → i ≠ pos → ((i - 1) / 2)%nat ≠ pos →
            heap !! i = Some c → heap !! ((i - 1) / 2)%nat = Some p →
            lt c p = false) ∧
  (∀ i c p, (1 ≤ pos)%nat → ((i - 1) / 2)%nat = pos → (1 ≤ i)%nat →
            heap !! i = Some c →
            heap !! ((pos - 1) / 2)%nat = Some p → lt c p = false).

(** A path that keeps the two ends of a route. *)
Definition same_ends (reference path : list Position) : Prop :=
  path ≠ [] ∧ head path = head reference ∧ last path = last reference.

(** ** The state of A* between two iterations *)

(** A frontier entry of A*: a node reached by a walk, filed under its cost
    plus the heuristic value of its cell. *)
Definition astar_entry_ok (e : GridEnvironment) (heuristic : string)
    (start goal : Position) (entry : Key * SearchNode) : Prop :=
  node_ok e start entry.2 ∧
  entry.1 = KInt (Node.cost entry.2
                  + heuristic_value heuristic goal (Node.position entry.2)).

Record astar_inv (e : GridEnvironment) (heuristic : string)
    (start goal : Position) (frontier : list (Key * SearchNode))
    (g_costs : gmap Position Z) (visited : gset Position) : Prop := {
  (** the frontier is a heap of well-formed entries *)
  inv_heap : heap_ok entry_lt frontier;
  inv_entries : Forall (astar_entry_ok e heuristic start goal) frontier;
  (** the best known cost of an open cell is the cost of a frontier node *)
  inv_open :
    ∀ p c, p ∉ visited → g_costs !! p = Some c →
      ∃ n, (KInt (c + heuristic_value heuristic goal p), n) ∈ frontier ∧
           Node.position n = p ∧ Node.cost n = c;
  (** a closed cell was closed at a cost no walk beats, and its open
      neighbours are known at that cost plus their own *)
  inv_closed :
    ∀ q, q ∈ visited →
      ∃ X, (∀ c, reach e start q c → X ≤ c) ∧
           ∀ q', adjacent q q' → passable e q' → q' ∉ visited →
             ∃ c', g_costs !! q' = Some c' ∧
                   c' ≤ X + get_terrain_cost e q'.1 q'.2;
  inv_start : start ∈ visited ∨ g_costs !! start = Some 0
}.

(** A frontier entry of uniform-cost search. *)
Definition ucs_entry_ok (e : GridEnvironment) (start : Position)
    (entry : Key * SearchNode) : Prop :=
  node_ok e start entry.2 ∧ int_keyed entry.

(** A grid whose first row costs 1 and whose other cells are free of
    charge, except two costly cells in the middle column: the cheapest way
    from (0,0) to (2,0) is the loop through the bottom row. *)
Definition swamp_env : GridEnvironment :=
  {| width := 3; height := 4;
     grid := fun y x =>
       if y =? 0 then 1 else if (x =? 1) && (y <? 3) then 5 else 0;
     static_obstacles := ∅; dynamic_obstacles := []; packages := [];
     start_position := (0, 0); delivery_points := ∅ |}.

(** A grid with costs from 1 to 3 and one obstacle that starts at (0,3) and
    moves up every second tick. *)
Definition cart_env : GridEnvironment :=
  {| width := 4; height := 4;
     grid := fun y x =>
       if ((x =? 2) && (y =? 0)) || ((x =? 1) && (y =? 2)) then 3 else 1;
     static_obstacles := ∅;
     dynamic_obstacles :=
       [("cart"%string, DynamicObstacle_init "cart" (0, 3) [UP] 2)];
     packages := []; start_position := (1, 3); delivery_points := ∅ |}.

(** Fuel that is enough for breadth-first search and for A*, which close a
    cell at most once and file at most four entries for each cell they
    close. *)
Definition search_fuel (e : GridEnvironment) : nat :=
  (5 * size (grid_cells e) + 7)%nat.

(** ** The state of uniform-cost search between two iterations *)

(** A node of uniform-cost search on a grid whose costs lie between 0 and
    [cmax]: the costs do not decrease along its chain of parents, no cell
    occurs twice in the chain, and the best known cost of every cell of the
    chain is at most the cost of the node that stands on it. *)
Fixpoint ucs_chain_ok (e : GridEnvironment) (start : Position) (cmax : Z)
    (visited_costs : gmap Position Z) (n : SearchNode) : Prop :=
  match n with
  | mkSearchNode c p _ None _ _ =>
      p = start ∧ c = 0 ∧ ∃ c', visited_costs !! p = Some c' ∧ c' ≤ c
  | mkSearchNode c p _ (Some parent) _ _ =>
      ucs_chain_ok e start cmax visited_costs parent ∧
      p ∈ grid_cells e ∧
      Node.cost parent ≤ c ≤ Node.cost parent + cmax ∧
      (∃ c', visited_costs !! p = Some c' ∧ c' ≤ c) ∧
      p ∉ path_to_root parent
  end.

(** The cells uniform-cost search can put in its frontier, and the bound on
    the cost of a node. *)
Definition ucs_cells (e : GridEnvironment) (start : Position)
    : gset Position :=
  {[start]} ∪ grid_cells e.

Definition ucs_cost_bound (e : GridEnvironment) (cmax : Z) : Z :=
  Z.of_nat (S (size (grid_cells e))) * cmax.

(** The weight of a cell: its best known cost, or one more than the bound
    while it has none.  Every entry filed lowers the weight of its cell. *)
Definition ucs_weight (e : GridEnvironment) (cmax : Z)
    (visited_costs : gmap Position Z) (p : Position) : nat :=
  match visited_costs !! p with
  | Some c => Z.to_nat c
  | None => S (Z.to_nat (ucs_cost_bound e cmax))
  end.

(** Fuel that is enough for uniform-cost search when the terrain costs lie
    between 0 and [cmax]. *)
Definition ucs_fuel (e : GridEnvironment) (cmax : Z) : nat :=
  (2 + 2 * (S (size (grid_cells e))
            * S (Z.to_nat (ucs_cost_bound e cmax))))%nat.

(** The invariant of the loop of uniform-cost search: the frontier holds
    chains, and the best known costs are costs of cells of the grid within
    the bound. *)
Definition ucs_state_ok (e : GridEnvironment) (start : Position) (cmax : Z)
    (frontier : list (Key * SearchNode)) (visited_costs : gmap Position Z)
    : Prop :=
  Forall (fun entry => ucs_chain_ok e start cmax visited_costs entry.2)
         frontier ∧
  ∀ p c, visited_costs !! p = Some c →
         p ∈ ucs_cells e start ∧ 0 ≤ c ≤ ucs_cost_bound e cmax.

(** The measure that every iteration of uniform-cost search lowers. *)
Definition ucs_measure (e : GridEnvironment) (start : Position) (cmax : Z)
    (frontier : list (Key * SearchNode)) (visited_costs : gmap Position Z)
    : nat :=
  (length frontier
   + 2 * sum_list_with (ucs_weight e cmax visited_costs)
           (elements (ucs_cells e start)))%nat.

(** Fuel that is enough for every search strategy of [find_path]. *)
Definition plan_fuel (e : GridEnvironment) (cmax : Z) : nat :=
  Nat.max (search_fuel e) (ucs_fuel e cmax).

(** A tuple moved by a displacement. *)
Definition translate (p v : Position) : Position := (p.1 + v.1, p.2 + v.2).

(** The displacement of one pass through a pattern. *)
Definition pattern_displacement (pat : list Direction) : Position :=
  foldl shift (0, 0) pat.

(** ** Paths of the searches in a world that moves *)

(** A search node that [get_successors] can have made, starting from the
    node of [start]: every node of its chain of parents stands on a cell in
    bounds, one step from the cell of its parent, that was not obstructed at
    the time of its parent; times count the steps and costs add the terrain
    costs up. *)
Fixpoint node_walk (e : GridEnvironment) (start : Position) (n : SearchNode)
    : Prop :=
  match n with
  | mkSearchNode c p t None _ _ => p = start ∧ t = 0 ∧ c = 0
  | mkSearchNode c p t (Some parent) _ _ =>
      node_walk e start parent ∧ adjacent (Node.position parent) p ∧
      is_within_bounds e p.1 p.2 = true ∧
      is_obstructed e p.1 p.2 (Node.time parent) = Returned false ∧
      t = Node.time parent + 1 ∧
      c = Node.cost parent + get_terrain_cost e p.1 p.2
  end.

(** A path whose cell number [i + 1] is in bounds, one step from cell number
    [i], and not obstructed at time [i], the time at which the step to it
    starts. *)
Definition timed_walk (e : GridEnvironment) (path : list Position) : Prop :=
  ∀ (i : nat) p q, path !! i = Some p → path !! S i = Some q →
    adjacent p q ∧ is_within_bounds e q.1 q.2 = true ∧
    is_obstructed e q.1 q.2 (Z.of_nat i) = Returned false.

(** What the three searches promise of a path they return. *)
Definition search_path_ok (e : GridEnvironment) (start goal : Position)
    (path : list Position) : Prop :=
  head path = Some start ∧ last path = Some goal ∧ timed_walk e path.

(** A node of the queue: a walk over cells that are all marked visited and
    all different. *)
Definition bfs_node_ok (e : GridEnvironment) (start : Position)
    (visited : gset Position) (n : SearchNode) : Prop :=
  node_walk e start n ∧ NoDup (path_to_root n) ∧
  ∀ p, p ∈ path_to_root n → p ∈ visited.

(** A frontier entry of A*: a walk over cells that are all different, of
    which all but the last are closed. *)
Definition astar_node_ok (e : GridEnvironment) (start : Position)
    (visited : gset Position) (entry : Key * SearchNode) : Prop :=
  node_walk e start entry.2 ∧ NoDup (path_to_root entry.2) ∧
  ∀ p, p ∈ drop 1 (path_to_root entry.2) → p ∈ visited.

(** ** Walks on the static grid as lists of cells *)

(** Every cell after the first is passable and one step from the cell before
    it. *)
Fixpoint static_walk (e : GridEnvironment) (path : list Position) : Prop :=
  match path with
  | p :: (q :: _) as rest => adjacent p q ∧ passable e q ∧ static_walk e rest
  | _ => True
  end.

(** [path] leads from [start] to [goal]. *)
Definition connects (e : GridEnvironment) (start goal : Position)
    (path : list Position) : Prop :=
  head path = Some start ∧ last path = Some goal ∧ static_walk e path.

(** ** The state of breadth-first search between two iterations *)

(** The queue holds the nodes of one depth before those of the next. *)
Definition bfs_levels (queue : list SearchNode) : Prop :=
  ∃ t A B, queue = A ++ B ∧ Forall (fun n => Node.time n = t) A ∧
           Forall (fun n => Node.time n = t + 1) B.

(** A cell that was expanded: it is not the goal and all its passable
    neighbours are marked visited. *)
Definition bfs_closed (e : GridEnvironment) (goal : Position)
    (visited : gset Position) (p : Position) : Prop :=
  p ∈ visited ∧ p ≠ goal ∧
  ∀ p', adjacent p p' → passable e p' → p' ∈ visited.

Record bfs_inv (e : GridEnvironment) (start goal : Position)
    (queue : list SearchNode) (visited : gset Position) : Prop := {
  bfs_nodes :
    Forall (fun n => node_walk e start n ∧ Node.position n ∈ visited) queue;
  bfs_order : bfs_levels queue;
  (** a visited cell was expanded or waits in the queue *)
  bfs_visited :
    ∀ p, p ∈ visited →
      bfs_closed e goal visited p ∨ ∃ n, n ∈ queue ∧ Node.position n = p;
  (** every walk from the start ends in an expanded cell or passes a node of
      the queue that is no deeper than the walk is long at that cell *)
  bfs_bound :
    ∀ w q, connects e start q w →
      bfs_closed e goal visited q ∨
      ∃ m w', m ∈ queue ∧ connects e (Node.position m) q w' ∧
              (Z.to_nat (Node.time m) + length w' ≤ length w)%nat
}.

(** ** The state of uniform-cost search on a static grid *)

(** The cell [p] was expanded at its best known cost [c]: it is not the
    goal, no walk reaches it for less, and each passable neighbour is known
    at no more than [c] plus its own terrain cost. *)
Definition ucs_done (e : GridEnvironment) (start goal : Position)
    (visited_costs : gmap Position Z) (p : Position) (c : Z) : Prop :=
  p ≠ goal ∧ (∀ c0, reach e start p c0 → c ≤ c0) ∧
  ∀ p', adjacent p p' → passable e p' →
        ∃ c', visited_costs !! p' = Some c' ∧
              c' ≤ c + get_terrain_cost e p'.1 p'.2.

(** The frontier holds a node on [p] filed under the cost [c]. *)
Definition ucs_filed (frontier : list (Key * SearchNode)) (p : Position)
    (c : Z) : Prop :=
  ∃ n, (KInt c, n) ∈ frontier ∧ Node.position n = p.

(** A frontier entry: a walk filed under its cost, which is at least the
    best known cost of its cell. *)
Definition ucs_static_entry (e : GridEnvironment) (start : Position)
    (visited_costs : gmap Position Z) (entry : Key * SearchNode) : Prop :=
  node_ok e start entry.2 ∧ entry.1 = KInt (Node.cost entry.2) ∧
  ∃ c, visited_costs !! Node.position entry.2 = Some c ∧
       c ≤ Node.cost entry.2.

(** Every best known cost is the cost of a walk, and its cell is [skip] (the
    cell being expanded), was expanded at that cost, or is filed under it. *)
Definition ucs_costs_ok (e : GridEnvironment) (start goal : Position)
    (skip : option Position) (frontier : list (Key * SearchNode))
    (visited_costs : gmap Position Z) : Prop :=
  ∀ p c, visited_costs !! p = Some c →
    reach e start p c ∧
    (skip = Some p ∨ ucs_done e start goal visited_costs p c
     ∨ ucs_filed frontier p c).

Record ucs_inv (e : GridEnvironment) (start goal : Position)
    (frontier : list (Key * SearchNode)) (visited_costs : gmap Position Z)
    : Prop := {
  ucs_heap : heap_ok entry_lt frontier;
  ucs_entries : Forall (ucs_static_entry e start visited_costs) frontier;
  ucs_costs : ucs_costs_ok e start goal None frontier visited_costs;
  ucs_start : visited_costs !! start = Some 0
}.

(** ** The open and closed cells of A* on a static grid *)

(** The cell is closed, or a node on it waits in the frontier. *)
Definition astar_covered (frontier : list (Key * SearchNode))
    (visited : gset Position) (p : Position) : Prop :=
  p ∈ visited ∨ ∃ entry, entry ∈ frontier ∧ Node.position entry.2 = p.

Record astar_cover_inv (e : GridEnvironment) (start goal : Position)
    (frontier : list (Key * SearchNode)) (g_costs : gmap Position Z)
    (visited : gset Position) : Prop := {
  (** a closed cell is not the goal, and its passable neighbours are covered *)
  cover_closed :
    ∀ p, p ∈ visited →
      p ≠ goal ∧
      ∀ p', adjacent p p' → passable e p' → astar_covered frontier visited p';
  (** a cell with a known cost is covered *)
  cover_known :
    ∀ p, is_Some (g_costs !! p) → astar_covered frontier visited p;
  cover_start : is_Some (g_costs !! start)
}.

(** ** Scores of the local searches *)

(** The number of cells of [cells] that are obstructed when they are checked
    at the times [time], [time + 1], ... in turn. *)
Fixpoint obstructed_steps (e : GridEnvironment) (cells : list Position)
    (time : Z) : Z :=
  match cells with
  | [] => 0
  | (x, y) :: rest =>
      (match is_obstructed e x y time with
       | Returned true => 1
       | _ => 0
       end) + obstructed_steps e rest (time + 1)
  end.


(** ** The queue of [find_alternative_route] *)

(** A cell the route finder may step on: in bounds, free at time 0 and not
    part of the segment that is being replaced. *)
Definition far_cell_ok (e : GridEnvironment) (segment : list Position)
    (c : Position) : Prop :=
  is_within_bounds e c.1 c.2 = true ∧
  is_obstructed e c.1 c.2 0 = Returned false ∧ c ∉ segment.

(** A chain of cells each one step from the one before it. *)
Definition chain (path : list Position) : Prop :=
  ∀ (i : nat) p q, path !! i = Some p → path !! S i = Some q → adjacent p q.

(** A queue entry: the chain that leads from [start] to its cell. *)
Definition far_entry_ok (e : GridEnvironment) (segment : list Position)
    (start : Position) (visited : gset Position)
    (entry : Position * list Position) : Prop :=
  head entry.2 = Some start ∧ last entry.2 = Some entry.1 ∧
  chain entry.2 ∧ Forall (far_cell_ok e segment) (drop 1 entry.2) ∧
  NoDup entry.2 ∧ ∀ c, c ∈ entry.2 → c ∈ visited.

(** ** The searches and scores with numpy's 64-bit sums

    The terrain matrix is a numpy array of 64-bit integers, so the entries
    [get_terrain_cost] reads from it are numpy integers, and a sum with a
    numpy integer is a numpy integer that wraps around at 2^63.  The
    definitions above add in [Z], which is what the source computes as long
    as no sum leaves the 64-bit range; the definitions of this module wrap
    every sum that has a matrix entry in it, as numpy does.  The entries of
    the matrix are taken to be 64-bit values, and so is a Python integer
    that is added to a numpy integer (what numpy does with a larger one
    depends on its version). *)

Definition wrap64 (z : Z) : Z := (z + 2 ^ 63) `mod` 2 ^ 64 - 2 ^ 63.

Definition add64 (a b : Z) : Z := wrap64 (a + b).

(** A number of the source with its type: a Python integer, or a numpy
    integer.  The sum of two Python integers is exact, any other sum is a
    numpy integer. *)
Inductive Num : Type :=
| PyInt (z : Z)
| NpInt (z : Z).

Definition Num_value (n : Num) : Z :=
  match n with PyInt z | NpInt z => z end.

Definition Num_add (a b : Num) : Num :=
  match a, b with
  | PyInt x, PyInt y => PyInt (x + y)
  | _, _ => NpInt (add64 (Num_value a) (Num_value b))
  end.

Module Int64.

(** [get_terrain_cost]: the Python integer 999 out of bounds, an entry of
    the matrix in bounds. *)
Definition get_terrain_cost (e : GridEnvironment) (x y : Z) : Num :=
  if negb (is_within_bounds e x y) then PyInt 999 else NpInt (grid e y x).

(** [get_successors]: [move_cost] is the cost of a cell in bounds, so
    [node.cost + move_cost] is a 64-bit sum. *)

Definition get_successors (e : GridEnvironment) (node : SearchNode)
    : outcome (list SearchNode) :=
  let '(x, y) := Node.position node in
  let* moves := get_valid_moves e x y (Node.time node) in
  Returned
    (map (fun '(new_x, new_y, move_cost) =>
            mkSearchNode (add64 (Node.cost node) move_cost) (new_x, new_y)
              (Node.time node + 1) (Some node) None
              (collect_packages (packages e) (new_x, new_y)
                 (Node.packages_delivered node)))
         moves).

(** [BFS.search] *)
Fixpoint bfs_loop (fuel : nat) (e : GridEnvironment) (goal : Position)
    (queue : list SearchNode) (visited : gset Position)
    : outcome (option (list Position)) :=
  match fuel with
  | O => OutOfFuel
  | S fuel' =>
      match queue with
      | [] => Returned None
      | current :: queue' =>
          if Position_eqb (Node.position current) goal
          then Returned (Some (reconstruct_path current))
          else
            let* successors := get_successors e current in
            let '(queue'', visited') := bfs_visit successors queue' visited in
            bfs_loop fuel' e goal queue'' visited'
      end
  end.

Definition BFS_search (fuel : nat) (e : GridEnvironment)
    (start goal : Position) : outcome (option (list Position)) :=
  bfs_loop fuel e goal [SearchNode_start start] {[start]}.

(** [UniformCostSearch.search]; the loop over the successors does no
    arithmetic and is [ucs_visit]. *)
Fixpoint ucs_loop (fuel : nat) (e : GridEnvironment) (goal : Position)
    (frontier : list (Key * SearchNode)) (visited_costs : gmap Position Z)
    : outcome (option (list Position)) :=
  match fuel with
  | O => OutOfFuel
  | S fuel' =>
      match heappop entry_lt frontier with
      | None => Returned None
      | Some ((current_cost, current), frontier') =>
          let stale :=
            match visited_costs !! Node.position current with
            | None => false
            | Some c => Key_ltb (KInt c) current_cost
            end in
          if stale then ucs_loop fuel' e goal frontier' visited_costs
          else if Position_eqb (Node.position current) goal
          then Returned (Some (reconstruct_path current))
          else
            let* successors := get_successors e current in
            let '(frontier'', visited_costs') :=
              ucs_visit successors frontier' visited_costs in
            ucs_loop fuel' e goal frontier'' visited_costs'
      end
  end.

Definition UniformCostSearch_search (fuel : nat) (e : GridEnvironment)
    (start goal : Position) : outcome (option (list Position)) :=
  ucs_loop fuel e goal
    (heappush entry_lt [] (KInt 0, SearchNode_start start)) {[start := 0]}.

(** [new_g + h]: a 64-bit sum for an integer heuristic, a float sum for the
    Euclidean one. *)
Definition Key_add (g : Z) (h : Key) : Key :=
  match h with
  | KInt z => KInt (add64 g z)
  | KFloat f => KFloat (PrimFloat.add (Z_to_float g) f)
  end.

(** [AStarSearch.search]: the successors stand on cells in bounds, so
    [current.cost + get_terrain_cost(...)] has a matrix entry in it. *)
Fixpoint astar_visit (e : GridEnvironment) (heuristic : string)
    (goal : Position) (current : SearchNode) (visited : gset Position)
    (successors : list SearchNode) (frontier : list (Key * SearchNode))
    (g_costs : gmap Position Z) : list (Key * SearchNode) * gmap Position Z :=
  match successors with
  | [] => (frontier, g_costs)
  | successor :: rest =>
      if bool_decide (Node.position successor ∈ visited)
      then astar_visit e heuristic goal current visited rest frontier g_costs
      else
        let new_g :=
          add64 (Node.cost current)
            (Num_value
               (get_terrain_cost e (fst (Node.position successor))
                                   (snd (Node.position successor)))) in
        let better :=
          match g_costs !! Node.position successor with
          | None => true
          | Some c => new_g <? c
          end in
        if better then
          let h := calculate_heuristic heuristic (Node.position successor) goal in
          let f := Key_add new_g h in
          astar_visit e heuristic goal current visited rest
            (heappush entry_lt frontier (f, successor))
            (<[Node.position successor := new_g]> g_costs)
        else astar_visit e heuristic goal current visited rest frontier g_costs
  end.

Fixpoint astar_loop (fuel : nat) (e : GridEnvironment) (heuristic : string)
    (goal : Position) (frontier : list (Key * SearchNode))
    (g_costs : gmap Position Z) (visited : gset Position)
    : outcome (option (list Position)) :=
  match fuel with
  | O => OutOfFuel
  | S fuel' =>
      match heappop entry_lt frontier with
      | None => Returned None
      | Some ((current_f, current), frontier') =>
          if bool_decide (Node.position current ∈ visited)
          then astar_loop fuel' e heuristic goal frontier' g_costs visited
          else
            let visited' := {[Node.position current]} ∪ visited in
            if Position_eqb (Node.position current) goal
            then Returned (Some (reconstruct_path current))
            else
              let* successors := get_successors e current in
              let '(frontier'', g_costs') :=
                astar_visit e heuristic goal current visited' successors
                  frontier' g_costs in
              astar_loop fuel' e heuristic goal frontier'' g_costs' visited'
      end
  end.

Definition AStarSearch_search (fuel : nat) (e : GridEnvironment)
    (heuristic : string) (start goal : Position)
    : outcome (option (list Position)) :=
  astar_loop fuel e heuristic goal
    (heappush entry_lt [] (calculate_heuristic heuristic start goal,
                           SearchNode_start start))
    {[start := 0]} ∅.

(** [HillClimbing.evaluate_path]: [total_cost] starts as the Python
    integer 0. *)
Fixpoint hc_evaluate_from (e : GridEnvironment) (cells : list Position)
    (time : Z) (total_cost : Num) : outcome Num :=
  match cells with
  | [] => Returned total_cost
  | (x, y) :: rest =>
      let total_cost := Num_add total_cost (get_terrain_cost e x y) in
      let* blocked := is_obstructed e x y time in
      hc_evaluate_from e rest (time + 1)
        (if blocked then Num_add total_cost (PyInt 1000) else total_cost)
  end.

Definition hc_evaluate_path (e : GridEnvironment) (path : list Position)
    : outcome Score :=
  match path with
  | [] => Returned Infinite
  | _ :: rest =>
      let* total := hc_evaluate_from e rest 0 (PyInt 0) in
      Returned (Finite (Num_value total))
  end.

(** [SimulatedAnnealing.evaluate_path]: [sum] starts from the Python
    integer 0 and adds from the left. *)
Definition sa_evaluate_path (e : GridEnvironment) (path : list Position)
    : Score :=
  match path with
  | [] => Infinite
  | _ :: rest =>
      Finite (Num_value
                (foldl Num_add (PyInt 0)
                   (map (fun '(x, y) => get_terrain_cost e x y) rest)))
  end.

End Int64.

(** The sums of the searches stay in the 64-bit range on a grid of terrain
    costs between 0 and [cmax]: no path without a repeated cell costs more
    than the number of cells times [cmax], and an integer heuristic between
    two cells of the grid is below the width plus the height. *)
Definition sums_fit (e : GridEnvironment) (cmax : Z) : Prop :=
  0 ≤ cmax ∧
  (Z.of_nat (size (grid_cells e)) + 2) * cmax
  + Z.max 0 (width e) + Z.max 0 (height e) < 2 ^ 63.




(** * Properties *)

(** ** The grid world *)

Lemma Position_eqb_eq (p q : Position) : Position_eqb p q = true ↔ p = q.
Proof.
  destruct p as [a b], q as [c d]. unfold Position_eqb. simpl.
  rewrite andb_true_iff, !Z.eqb_eq. split; [intros [-> ->] | intros [= -> ->]]; done.
Qed.

Lemma Position_eqb_neq (p q : Position) : Position_eqb p q = false ↔ p ≠ q.
Proof.
  rewrite <- not_true_iff_false, Position_eqb_eq. done.
Qed.

Lemma pattern_at_in_range (pat : list Direction) (i : Z) :
  pat ≠ [] → ∃ d, pattern_at pat (i `mod` Z.of_nat (length pat)) = Returned d.
Proof.
  intros Hne. unfold pattern_at.
  assert (0 < Z.of_nat (length pat)) as Hlen
    by (destruct pat; [done | simpl; lia]).
  pose proof (Z.mod_pos_bound i _ Hlen) as Hb.
  destruct (pat !! Z.to_nat (i `mod` Z.of_nat (length pat))) as [d|] eqn:E.
  - by exists d.
  - apply lookup_ge_None in E. lia.
Qed.

Lemma replay_returns (pat : list Direction) (count : nat) :
  pat ≠ [] → ∀ i p, ∃ q, replay pat count i p = Returned q.
Proof.
  intros Hne. induction count as [|count IH]; intros i p; simpl.
  - by exists p.
  - destruct (pattern_at_in_range pat i Hne) as [d ->]. simpl. apply IH.
Qed.

Lemma get_position_at_time_returns (o : DynamicObstacle) (time : Z) :
  obstacle_ok o → ∃ p, get_position_at_time o time = Returned p.
Proof.
  intros (Hi & Hp & Hh). unfold get_position_at_time.
  apply Z.eqb_neq in Hi. rewrite Hi.
  destruct (Z.eqb_spec (Z.of_nat (length (pattern o))) 0) as [E|_].
  { destruct (pattern o); [done | simpl in E; lia]. }
  destruct (history o) as [|h0 hs]; [done | simpl].
  by apply replay_returns.
Qed.

Lemma obstacles_hit_spec (obs : list (string * DynamicObstacle)) (x y time : Z) :
  (∀ nm o, (nm, o) ∈ obs → obstacle_ok o) →
  ∃ b, obstacles_hit obs x y time = Returned b ∧
       (b = true ↔
        ∃ nm o, (nm, o) ∈ obs ∧ get_position_at_time o time = Returned (x, y)).
Proof.
  induction obs as [|[nm o] rest IH]; intros Hok; simpl.
  - exists false. split; [done |]. split; [done |].
    intros (? & ? & Hin & _). by apply elem_of_nil in Hin.
  - destruct (get_position_at_time_returns o time) as [p Hp].
    { apply (Hok nm). left. }
    rewrite Hp. simpl.
    destruct (Position_eqb (x, y) p) eqn:E.
    + apply Position_eqb_eq in E as <-. exists true. split; [done |].
      split; [| done]. intros _. exists nm, o. split; [left | done].
    + apply Position_eqb_neq in E.
      destruct IH as (b & Hb & Hiff).
      { intros nm' o' Hin. apply (Hok nm'). by right. }
      exists b. split; [done |]. rewrite Hiff. split.
      * intros (nm' & o' & Hin & Hpos). exists nm', o'. split; [by right | done].
      * intros (nm' & o' & Hin & Hpos).
        apply elem_of_cons in Hin as [[= -> ->] | Hin].
        -- rewrite Hp in Hpos. injection Hpos as ->. done.
        -- by exists nm', o'.
Qed.

Lemma is_obstructed_returns (e : GridEnvironment) (x y time : Z) :
  env_ok e → ∃ b, is_obstructed e x y time = Returned b.
Proof.
  intros Hok. unfold is_obstructed. case_bool_decide; [by exists true |].
  destruct (obstacles_hit_spec (dynamic_obstacles e) x y time Hok) as (b & Hb & _).
  by exists b.
Qed.

(** C1: on an environment whose obstacles are well formed, [is_obstructed]
    returns, and it returns true exactly when the cell is a static obstacle
    or the predicted position of some dynamic obstacle at that time; a static
    obstacle at (5,5) blocks (5,5) at every time, and (0,0) is free at time 0
    when it is no static obstacle and no obstacle is predicted there. *)
Theorem is_obstructed_correct (e : GridEnvironment) (x y time : Z) :
  env_ok e →
  (∃ b, is_obstructed e x y time = Returned b ∧
        (b = true ↔
         (x, y) ∈ static_obstacles e ∨
         ∃ nm o, (nm, o) ∈ dynamic_obstacles e ∧
                 get_position_at_time o time = Returned (x, y))) ∧
  ((5, 5) ∈ static_obstacles e → is_obstructed e 5 5 time = Returned true) ∧
  ((0, 0) ∉ static_obstacles e →
   (∀ nm o, (nm, o) ∈ dynamic_obstacles e →
            get_position_at_time o 0 ≠ Returned (0, 0)) →
   is_obstructed e 0 0 0 = Returned false).
Proof.
  intros Hok.
  assert (∀ x y time, ∃ b, is_obstructed e x y time = Returned b ∧
        (b = true ↔
         (x, y) ∈ static_obstacles e ∨
         ∃ nm o, (nm, o) ∈ dynamic_obstacles e ∧
                 get_position_at_time o time = Returned (x, y))) as Hspec.
  { clear x y time. intros x y time. unfold is_obstructed. case_bool_decide as Hs.
    - exists true. split; [done |]. split; [by left | done].
    - destruct (obstacles_hit_spec (dynamic_obstacles e) x y time Hok)
        as (b & Hb & Hiff).
      exists b. split; [done |]. rewrite Hiff. split; [by right |].
      by intros [? | ?]. }
  split; [apply Hspec |]. split.
  - intros Hs. unfold is_obstructed. by rewrite bool_decide_eq_true_2.
  - intros Hs Hd. destruct (Hspec 0 0 0) as (b & -> & Hiff).
    destruct b; [| done]. destruct Hiff as [Hiff _].
    destruct (Hiff eq_refl) as [? | (nm & o & Hin & Hpos)]; [done |].
    by destruct (Hd nm o Hin).
Qed.

Lemma patrol_env_ok : env_ok patrol_env.
Proof.
  intros nm o Hin. apply list_elem_of_singleton in Hin as [= -> ->].
  repeat split; done.
Defined.

Lemma is_obstructed_correct_witness :
  env_ok patrol_env ∧ is_obstructed patrol_env 5 5 7 = Returned true.
Proof.
  split; [exact patrol_env_ok |].
  apply (is_obstructed_correct patrol_env 5 5 7 patrol_env_ok).
  vm_compute. reflexivity.
Defined.

Example is_obstructed_test_env :
  is_obstructed test_env 5 5 0 = Returned true ∧
  is_obstructed test_env 0 0 0 = Returned false.
Proof. split; vm_compute; reflexivity. Qed.

(** The patrol starts at (2,2); the replay applies one pattern step already
    at time 0. *)
Example patrol_positions :
  map (get_position_at_time patrol) [0; 1; 2; 3; 4; 6; 8] =
  map Returned [(3, 2); (3, 2); (3, 3); (3, 3); (2, 3); (2, 2); (3, 2)].
Proof. vm_compute. reflexivity. Qed.

Lemma move_keeps_configuration (o : DynamicObstacle) (time : Z) :
  pattern (move_state o time) = pattern o ∧
  interval (move_state o time) = interval o ∧
  (history o ≠ [] →
   history (move_state o time) ≠ [] ∧
   history (move_state o time) !! 0%nat = history o !! 0%nat).
Proof.
  unfold move_state, move.
  destruct (interval o =? 0); [done |].
  destruct (time `mod` interval o =? 0); [| done].
  destruct (Z.of_nat (length (pattern o)) =? 0); [done |].
  destruct (pattern_at _ _) as [d| |]; simpl; [| done | done].
  split; [done |]. split; [done |]. intros Hne.
  destruct (history o); [done | simpl; done].
Qed.

Lemma run_moves_keeps_configuration (times : list Z) :
  ∀ o, pattern (run_moves o times) = pattern o ∧
       interval (run_moves o times) = interval o ∧
       (history o ≠ [] →
        history (run_moves o times) ≠ [] ∧
        history (run_moves o times) !! 0%nat = history o !! 0%nat).
Proof.
  induction times as [|time times IH]; intros o; simpl; [done |].
  destruct (move_keeps_configuration o time) as (Hp & Hi & Hh).
  destruct (IH (move_state o time)) as (Hp' & Hi' & Hh').
  unfold run_moves in *. rewrite Hp', Hi', Hp, Hi.
  split; [done |]. split; [done |]. intros Hne.
  destruct (Hh Hne) as [Hne1 Hh1]. destruct (Hh' Hne1) as [Hne2 Hh2].
  split; [done |]. by rewrite Hh2.
Qed.

Lemma get_position_at_time_configuration (o o' : DynamicObstacle) (time : Z) :
  pattern o' = pattern o → interval o' = interval o →
  history o' !! 0%nat = history o !! 0%nat →
  get_position_at_time o' time = get_position_at_time o time.
Proof.
  intros Hp Hi Hh. unfold get_position_at_time. by rewrite Hp, Hi, Hh.
Qed.

Lemma get_position_at_time_run_moves (o : DynamicObstacle) (times : list Z)
    (time : Z) :
  history o ≠ [] →
  get_position_at_time (run_moves o times) time = get_position_at_time o time.
Proof.
  intros Hne.
  destruct (run_moves_keeps_configuration times o) as (Hp & Hi & Hh).
  destruct (Hh Hne) as [_ Hh0].
  by apply get_position_at_time_configuration.
Qed.

Lemma obstacles_hit_advance (sched : string → list Z)
    (obs : list (string * DynamicObstacle)) (x y time : Z) :
  (∀ nm o, (nm, o) ∈ obs → history o ≠ []) →
  obstacles_hit
    (map (fun no => (fst no, run_moves (snd no) (sched (fst no)))) obs)
    x y time
  = obstacles_hit obs x y time.
Proof.
  induction obs as [|[nm o] rest IH]; intros Hh; simpl; [done |].
  rewrite get_position_at_time_run_moves by (apply (Hh nm); left).
  destruct (get_position_at_time o time) as [p| |]; simpl; [| done | done].
  destruct (Position_eqb (x, y) p); [done |].
  apply IH. intros nm' o' Hin. apply (Hh nm'). by right.
Qed.

(** C4: the predicted position of an obstacle depends only on the start
    position, the pattern, the interval and the time: it is the same for an
    obstacle that has been moved any number of times as for a fresh obstacle
    of the same configuration (and any name), and hence [is_obstructed] gives
    the same answer after the obstacles of an environment have been moved. *)
Theorem get_position_at_time_pure (nm nm' : string) (start_pos : Position)
    (pat : list Direction) (iv : Z) (times : list Z)
    (sched : string → list Z) (e : GridEnvironment) (x y time : Z) :
  (∀ n o, (n, o) ∈ dynamic_obstacles e → history o ≠ []) →
  get_position_at_time
    (run_moves (DynamicObstacle_init nm start_pos pat iv) times) time
  = get_position_at_time (DynamicObstacle_init nm' start_pos pat iv) time
  ∧ is_obstructed (advance_obstacles sched e) x y time
    = is_obstructed e x y time.
Proof.
  intros Hh. split.
  - rewrite get_position_at_time_run_moves by done.
    by apply get_position_at_time_configuration.
  - unfold is_obstructed. simpl. case_bool_decide; [done |].
    by apply obstacles_hit_advance.
Qed.

Lemma get_position_at_time_pure_witness :
  (∀ n o, (n, o) ∈ dynamic_obstacles patrol_env → history o ≠ []) ∧
  get_position_at_time
    (run_moves (DynamicObstacle_init "a" (2, 2) [RIGHT; DOWN] 2) [0; 1; 2; 4])
    2
  = get_position_at_time (DynamicObstacle_init "b" (2, 2) [RIGHT; DOWN] 2) 2
  ∧ is_obstructed (advance_obstacles (fun _ => [0; 2; 4]) patrol_env) 3 3 2
    = is_obstructed patrol_env 3 3 2.
Proof.
  assert (∀ n o, (n, o) ∈ dynamic_obstacles patrol_env → history o ≠ [])
    as Hh.
  { intros n o Hin. apply list_elem_of_singleton in Hin as [= -> ->]. done. }
  split; [exact Hh |].
  exact (get_position_at_time_pure "a" "b" (2, 2) [RIGHT; DOWN] 2 [0; 1; 2; 4]
           (fun _ => [0; 2; 4]) patrol_env 3 3 2 Hh).
Defined.

(** The moved obstacle really is in a different state: [move] has changed
    its current position and history, the prediction has not changed. *)
Example patrol_moved :
  position (run_moves patrol [0; 2; 4]) = (2, 3) ∧
  history (run_moves patrol [0; 2; 4]) = [(2, 2); (3, 2); (3, 3); (2, 3)] ∧
  get_position_at_time (run_moves patrol [0; 2; 4]) 0 = Returned (3, 2).
Proof. vm_compute. done. Qed.

Lemma valid_moves_from_spec (e : GridEnvironment) (dirs : list Direction)
    (x y time : Z) :
  env_ok e →
  ∃ moves, valid_moves_from e dirs x y time = Returned moves ∧
    ∀ nx ny c, (nx, ny, c) ∈ moves ↔
      (∃ d, d ∈ dirs ∧ nx = x + fst (value d) ∧ ny = y + snd (value d)) ∧
      is_within_bounds e nx ny = true ∧
      is_obstructed e nx ny time = Returned false ∧
      c = get_terrain_cost e nx ny.
Proof.
  intros Hok. induction dirs as [|d dirs IH]; simpl.
  - exists []. split; [done |]. intros nx ny c. split.
    + intros Hin. by apply elem_of_nil in Hin.
    + intros [(d & Hin & _) _]. by apply elem_of_nil in Hin.
  - destruct IH as (moves & -> & Hmoves). simpl.
    set (new_x := x + (value d).1). set (new_y := y + (value d).2).
    destruct (is_within_bounds e new_x new_y) eqn:Hb.
    + destruct (is_obstructed_returns e new_x new_y time Hok) as [blocked Hbl].
      rewrite Hbl. simpl. eexists. split; [done |]. intros nx ny c.
      destruct blocked.
      * rewrite Hmoves. split.
        -- intros ((d' & Hd' & ? & ?) & ? & ? & ?).
           split; [| done]. exists d'. split; [by right | done].
        -- intros ((d' & Hd' & -> & ->) & ? & Hfree & ?).
           split; [| done]. exists d'. split; [| done].
           apply elem_of_cons in Hd' as [-> | ?]; [| done].
           fold new_x new_y in Hfree. congruence.
      * rewrite elem_of_cons, Hmoves. split.
        -- intros [[= -> -> ->] | ((d' & Hd' & ? & ?) & ? & ? & ?)].
           ++ split; [| done]. exists d. split; [left | done].
           ++ split; [| done]. exists d'. split; [by right | done].
        -- intros ((d' & Hd' & -> & ->) & ? & ? & ->).
           apply elem_of_cons in Hd' as [-> | ?]; [by left | right].
           split; [| done]. by exists d'.
    + exists moves. split; [done |]. intros nx ny c. rewrite Hmoves. split.
      * intros ((d' & Hd' & ? & ?) & ? & ? & ?).
        split; [| done]. exists d'. split; [by right | done].
      * intros ((d' & Hd' & -> & ->) & Hin & ? & ?).
        split; [| done]. exists d'. split; [| done].
        apply elem_of_cons in Hd' as [-> | ?]; [| done].
        fold new_x new_y in Hin. congruence.
Qed.

Lemma valid_moves_from_NoDup (e : GridEnvironment) (dirs : list Direction)
    (x y time : Z) (moves : list (Z * Z * Z)) :
  NoDup dirs →
  valid_moves_from e dirs x y time = Returned moves →
  NoDup moves ∧
  ∀ nx ny c, (nx, ny, c) ∈ moves →
    ∃ d, d ∈ dirs ∧ nx = x + fst (value d) ∧ ny = y + snd (value d).
Proof.
  intros Hnd. revert moves. induction Hnd as [|d dirs Hd Hnd IH]; simpl; intros moves.
  - intros [= <-]. split; [constructor |]. intros ??? Hin.
    by apply elem_of_nil in Hin.
  - assert (∀ ms, valid_moves_from e dirs x y time = Returned ms →
              NoDup ms ∧ ∀ nx ny c, (nx, ny, c) ∈ ms →
                ∃ d0, d0 ∈ d :: dirs ∧ nx = x + (value d0).1 ∧
                      ny = y + (value d0).2) as IH'.
    { intros ms Hms. destruct (IH ms Hms) as [Hn Hin]. split; [done |].
      intros nx ny c H. destruct (Hin nx ny c H) as (d0 & ? & ?).
      exists d0. split; [by right | done]. }
    destruct (is_within_bounds e _ _); [| apply IH'].
    destruct (is_obstructed e _ _ time) as [blocked| |]; simpl; [| done | done].
    destruct (valid_moves_from e dirs x y time) as [ms| |] eqn:Hms; simpl;
      [| done | done].
    intros [= <-]. destruct (IH ms eq_refl) as [Hn Hin].
    destruct blocked; [by apply IH' |]. split.
    + constructor; [| done]. intros Hmem.
      destruct (Hin _ _ _ Hmem) as (d0 & Hd0 & Hx & Hy).
      assert (d0 = d) as ->; [| done].
      destruct d, d0; simpl in Hx, Hy; first [done | lia].
    + intros nx ny c Hmem. apply elem_of_cons in Hmem as [[= -> -> ->] | Hmem].
      * exists d. split; [left | done].
      * destruct (Hin _ _ _ Hmem) as (d0 & ? & ?). exists d0.
        split; [by right | done].
Qed.

(** C9: on an environment whose obstacles are well formed, [get_valid_moves]
    returns, without repetition, exactly the cells among up, down, left and
    right of (x, y) that are in bounds and not obstructed at the time, each
    with its terrain cost; every returned cell is one axis-aligned step away,
    so none is diagonal and none is (x, y) itself. *)
Theorem get_valid_moves_correct (e : GridEnvironment) (x y time : Z) :
  env_ok e →
  ∃ moves, get_valid_moves e x y time = Returned moves ∧
    NoDup moves ∧
    (∀ nx ny c, (nx, ny, c) ∈ moves ↔
       (nx, ny) ∈ [(x, y - 1); (x, y + 1); (x - 1, y); (x + 1, y)] ∧
       is_within_bounds e nx ny = true ∧
       is_obstructed e nx ny time = Returned false ∧
       c = get_terrain_cost e nx ny) ∧
    (∀ nx ny c, (nx, ny, c) ∈ moves →
       Z.abs (nx - x) + Z.abs (ny - y) = 1).
Proof.
  intros Hok. unfold get_valid_moves.
  destruct (valid_moves_from_spec e [UP; DOWN; LEFT; RIGHT] x y time Hok)
    as (moves & Hmoves & Hspec).
  assert (∀ nx ny,
    (∃ d, d ∈ [UP; DOWN; LEFT; RIGHT] ∧
          nx = x + (value d).1 ∧ ny = y + (value d).2) ↔
    (nx, ny) ∈ [(x, y - 1); (x, y + 1); (x - 1, y); (x + 1, y)]) as Hdirs.
  { intros nx ny. rewrite !elem_of_cons. split.
    - intros (d & Hd & -> & ->). rewrite !elem_of_cons in Hd.
      destruct Hd as [-> | [-> | [-> | [-> | Hd]]]]; simpl;
        [| | | | by apply elem_of_nil in Hd].
      + left. f_equal; lia.
      + right; left. f_equal; lia.
      + right; right; left. f_equal; lia.
      + right; right; right; left. f_equal; lia.
    - intros [[= -> ->] | [[= -> ->] | [[= -> ->] | [[= -> ->] | H]]]];
        [| | | | by apply elem_of_nil in H].
      + exists UP. rewrite !elem_of_cons. simpl. split; [tauto | lia].
      + exists DOWN. rewrite !elem_of_cons. simpl. split; [tauto | lia].
      + exists LEFT. rewrite !elem_of_cons. simpl. split; [tauto | lia].
      + exists RIGHT. rewrite !elem_of_cons. simpl. split; [tauto | lia]. }
  exists moves. split; [done |].
  destruct (valid_moves_from_NoDup e [UP; DOWN; LEFT; RIGHT] x y time moves)
    as [Hnd Hfrom]; [| done |].
  { repeat (constructor;
      [intros Hin; rewrite ?elem_of_cons, elem_of_nil in Hin;
       intuition discriminate |]).
    constructor. }
  split; [done |]. split.
  - intros nx ny c. rewrite Hspec, Hdirs. done.
  - intros nx ny c Hin. destruct (Hfrom nx ny c Hin) as (d & _ & -> & ->).
    destruct d; simpl; try lia.
    apply Hspec in Hin as [(d & Hd & Hx & Hy) _].
    rewrite !elem_of_cons, elem_of_nil in Hd. simpl in Hx, Hy.
    destruct Hd as [-> | [-> | [-> | [-> | []]]]]; simpl in *; lia.
Qed.

Lemma get_valid_moves_correct_witness :
  env_ok patrol_env ∧
  ∃ moves, get_valid_moves patrol_env 4 5 0 = Returned moves ∧
    NoDup moves ∧
    (∀ nx ny c, (nx, ny, c) ∈ moves ↔
       (nx, ny) ∈ [(4, 5 - 1); (4, 5 + 1); (4 - 1, 5); (4 + 1, 5)] ∧
       is_within_bounds patrol_env nx ny = true ∧
       is_obstructed patrol_env nx ny 0 = Returned false ∧
       c = get_terrain_cost patrol_env nx ny) ∧
    (∀ nx ny c, (nx, ny, c) ∈ moves →
       Z.abs (nx - 4) + Z.abs (ny - 5) = 1).
Proof.
  split; [exact patrol_env_ok |].
  exact (get_valid_moves_correct patrol_env 4 5 0 patrol_env_ok).
Defined.

(** Next to the static obstacle at (5,5) and to the patrol, and in a corner. *)
Example get_valid_moves_examples :
  get_valid_moves patrol_env 4 5 0 = Returned [(4, 4, 1); (4, 6, 1); (3, 5, 1)] ∧
  get_valid_moves patrol_env 3 3 0 = Returned [(3, 4, 1); (2, 3, 1); (4, 3, 1)] ∧
  get_valid_moves patrol_env 0 0 0 = Returned [(0, 1, 1); (1, 0, 1)].
Proof. vm_compute. done. Qed.

(** ** Route repair *)

Lemma elem_of_grid_cells (e : GridEnvironment) (x y : Z) :
  (x, y) ∈ grid_cells e ↔ is_within_bounds e x y = true.
Proof.
  unfold grid_cells, is_within_bounds.
  rewrite elem_of_list_to_set, list_elem_of_bind.
  rewrite !andb_true_iff, !Z.leb_le, !Z.ltb_lt. split.
  - intros (x' & Hy & Hx). apply list_elem_of_bind in Hy as (y' & Hxy & Hy).
    apply list_elem_of_singleton in Hxy as [= -> ->].
    apply elem_of_seqZ in Hx, Hy. lia.
  - intros Hb. exists x. split; [| apply elem_of_seqZ; lia].
    apply list_elem_of_bind. exists y.
    split; [apply list_elem_of_singleton; done | apply elem_of_seqZ; lia].
Qed.

Lemma size_unvisited_insert (cells visited : gset Position) (p : Position) :
  p ∈ cells → p ∉ visited →
  (size (cells ∖ ({[p]} ∪ visited)) < size (cells ∖ visited))%nat.
Proof.
  intros Hc Hv. apply subset_size. set_solver.
Qed.

Lemma far_visit_returns (e : GridEnvironment) (segment : list Position)
    (current : Position) (path : list Position) (offsets : list (Z * Z)) :
  env_ok e →
  ∀ queue visited,
  ∃ queue' visited',
    far_visit e segment current path offsets queue visited
    = Returned (queue', visited') ∧
    (size (grid_cells e ∖ visited') + length queue'
     ≤ size (grid_cells e ∖ visited) + length queue)%nat.
Proof.
  intros Hok. induction offsets as [|[dx dy] rest IH]; intros queue visited;
    simpl.
  - exists queue, visited. split; [done | lia].
  - destruct (is_within_bounds e _ _
              && negb (bool_decide (_ ∈ visited))) eqn:E; [| apply IH].
    apply andb_true_iff in E as [Hb Hv].
    apply negb_true_iff, bool_decide_eq_false in Hv.
    destruct (is_obstructed_returns e (current.1 + dx) (current.2 + dy) 0 Hok)
      as [blocked ->]. simpl.
    destruct (negb blocked && negb (bool_decide (_ ∈ segment))); [| apply IH].
    destruct (IH (queue ++ [((current.1 + dx, current.2 + dy),
                             path ++ [(current.1 + dx, current.2 + dy)])])
                 ({[(current.1 + dx, current.2 + dy)]} ∪ visited))
      as (queue' & visited' & -> & Hle).
    exists queue', visited'. split; [done |].
    rewrite length_app in Hle. simpl in Hle.
    pose proof (size_unvisited_insert (grid_cells e) visited
                  (current.1 + dx, current.2 + dy)) as Hlt.
    simpl in Hb. apply elem_of_grid_cells in Hb. specialize (Hlt Hb Hv).
    etrans; [exact Hle |].
    match goal with
    | |- (?b + _ ≤ _)%nat =>
        change (b < size (grid_cells e ∖ visited))%nat in Hlt
    end.
    lia.
Qed.

Lemma far_loop_returns (e : GridEnvironment) (end_ : Position)
    (segment : list Position) :
  env_ok e →
  ∀ fuel queue visited,
  (size (grid_cells e ∖ visited) + length queue < fuel)%nat →
  ∃ r, far_loop fuel e end_ segment queue visited = Returned r.
Proof.
  intros Hok. induction fuel as [|fuel IH]; intros queue visited Hfuel;
    [lia |]. cbn -[far_visit].
  destruct queue as [|[current path] queue]; [by eexists |].
  destruct (Position_eqb current end_); [by eexists |].
  destruct (far_visit_returns e segment current path
              [(0, 1); (1, 0); (0, -1); (-1, 0)] Hok queue visited)
    as (queue' & visited' & -> & Hle).
  cbn -[far_visit]. apply IH. simpl in Hfuel. lia.
Qed.

Lemma find_alternative_route_returns (e : GridEnvironment)
    (start end_ : Position) (segment : list Position) (fuel : nat) :
  env_ok e → (repair_fuel e ≤ fuel)%nat →
  ∃ r, find_alternative_route fuel e start end_ segment = Returned r.
Proof.
  intros Hok Hfuel. unfold find_alternative_route.
  apply far_loop_returns; [done |]. unfold repair_fuel in Hfuel. simpl.
  assert (size (grid_cells e ∖ {[start]}) ≤ size (grid_cells e))%nat
    by (apply subseteq_size; set_solver).
  lia.
Qed.

Lemma randint_range (a b : Z) (g : Rng) :
  a ≤ b → ∃ v g', randint a b g = Returned (v, g') ∧ a ≤ v ≤ b.
Proof.
  intros Hab. unfold randint.
  destruct (Z.ltb_spec b a) as [? | _]; [lia |].
  destruct (draw g) as [r g'] eqn:Hd. eexists _, g'. split; [done |].
  pose proof (Z.mod_pos_bound (Z.of_N r) (b - a + 1)). lia.
Qed.

Lemma py_index_lookup {A : Type} (l : list A) (i : Z) :
  0 ≤ i < Z.of_nat (length l) → ∃ a, py_index l i = Returned a.
Proof.
  intros Hi. unfold py_index.
  destruct (Z.ltb_spec i 0) as [? | _]; [lia |].
  destruct (l !! Z.to_nat i) as [a|] eqn:E; [by exists a |].
  apply lookup_ge_None in E. lia.
Qed.

Lemma same_ends_splice (path alt : list Position) (start_idx end_idx : Z) :
  path ≠ [] → 1 ≤ start_idx → end_idx < Z.of_nat (length path) →
  same_ends path
    (py_slice_to path start_idx ++ alt ++ py_slice_from path end_idx).
Proof.
  intros Hne Hs He. unfold same_ends, py_slice_to, py_slice_from, clamp_index.
  destruct path as [|p0 path]; [done |]. clear Hne.
  destruct (Z.ltb_spec start_idx 0) as [? | _]; [lia |].
  set (n := Z.of_nat (length (p0 :: path))) in *.
  assert (∃ k, Z.to_nat (Z.min start_idx n) = S k) as [k ->].
  { exists (Z.to_nat (Z.min start_idx n) - 1)%nat. subst n. simpl length. lia. }
  set (d := Z.to_nat (if end_idx <? 0 then Z.max (end_idx + n) 0
                      else Z.min end_idx n)).
  assert (d < length (p0 :: path))%nat as Hd.
  { subst d n. simpl length in *. destruct (Z.ltb_spec end_idx 0); lia. }
  split; [done |]. split; [done |].
  rewrite !last_app.
  destruct (last (drop d (p0 :: path))) as [x|] eqn:El.
  - rewrite last_lookup in El |- *. rewrite length_drop in El.
    rewrite lookup_drop in El. rewrite <- El. f_equal. lia.
  - apply last_None in El. apply (f_equal length) in El.
    rewrite length_drop in El. simpl in El. simpl in Hd. lia.
Qed.

Lemma same_ends_refl (path : list Position) : path ≠ [] → same_ends path path.
Proof. done. Qed.

Lemma same_ends_trans (a b c : list Position) :
  same_ends a b → same_ends b c → same_ends a c.
Proof. intros (? & ? & ?) (? & ? & ?). repeat split; congruence. Qed.

Lemma hc_evaluate_from_returns (e : GridEnvironment) (cells : list Position) :
  env_ok e → ∀ time total, ∃ z, hc_evaluate_from e cells time total = Returned z.
Proof.
  intros Hok. induction cells as [|[x y] rest IH]; intros time total; simpl.
  - by eexists.
  - destruct (is_obstructed_returns e x y time Hok) as [b ->]. simpl. apply IH.
Qed.

Lemma hc_evaluate_path_returns (e : GridEnvironment) (path : list Position) :
  env_ok e → ∃ s, hc_evaluate_path e path = Returned s.
Proof.
  intros Hok. destruct path as [|p rest]; simpl; [by eexists |].
  destruct (hc_evaluate_from_returns e rest Hok 0 0) as [z ->]. by eexists.
Qed.

Lemma hc_generate_neighbor_returns (fuel : nat) (e : GridEnvironment)
    (path : list Position) (g : Rng) :
  env_ok e → (repair_fuel e ≤ fuel)%nat → path ≠ [] →
  ∃ neighbor g', hc_generate_neighbor fuel e path g = Returned (neighbor, g') ∧
                 same_ends path neighbor.
Proof.
  intros Hok Hfuel Hne. unfold hc_generate_neighbor.
  destruct (Z.leb_spec (Z.of_nat (length path)) 2) as [_ | Hlen].
  { exists path, g. split; [done | by apply same_ends_refl]. }
  destruct (randint_range 1 (Z.of_nat (length path) - 2) g)
    as (start_idx & g1 & -> & Hs); [lia |]. cbn [obind].
  destruct (randint_range 1 3 g1) as (span & g2 & -> & Hsp); [lia |]. cbn [obind].
  set (end_idx := Z.min (start_idx + span) (Z.of_nat (length path) - 1)).
  destruct (py_index_lookup path (start_idx - 1)) as [segment_start ->];
    [lia |]. cbn [obind].
  destruct (py_index_lookup path end_idx) as [segment_end ->];
    [subst end_idx; lia |]. cbn [obind].
  destruct (find_alternative_route_returns e segment_start segment_end
              (py_slice path start_idx end_idx) fuel Hok Hfuel) as [r ->].
  destruct r as [[|c alt]|].
  - exists path, g2. split; [done | by apply same_ends_refl].
  - eexists _, g2. split; [done |].
    apply same_ends_splice; [done | lia | subst end_idx; lia].
  - exists path, g2. split; [done | by apply same_ends_refl].
Qed.

Lemma hc_inner_returns (fuel : nat) (e : GridEnvironment)
    (reference : list Position) :
  env_ok e → (repair_fuel e ≤ fuel)%nat →
  ∀ iterations current_path current_score improvements g,
  same_ends reference current_path →
  ∃ path score g',
    hc_inner iterations fuel e current_path current_score improvements g
    = Returned (path, score, g') ∧ same_ends reference path.
Proof.
  intros Hok Hfuel.
  induction iterations as [|iterations IH];
    intros current_path current_score improvements g Hends; simpl.
  - by eexists _, _, _.
  - destruct (hc_generate_neighbor_returns fuel e current_path g Hok Hfuel)
      as (neighbor & g1 & -> & Hn); [apply Hends |]. simpl.
    pose proof (same_ends_trans _ _ _ Hends Hn) as Hn'.
    destruct (hc_evaluate_path_returns e neighbor Hok) as [neighbor_score ->].
    simpl.
    destruct (Score_ltb neighbor_score current_score).
    + destruct (10 <=? improvements + 1); [by eexists _, _, _ | by apply IH].
    + match goal with
      | |- context [PrimFloat.ltb ?a ?b] => destruct (PrimFloat.ltb a b)
      end.
      * destruct (10 <=? improvements); [by eexists _, _, _ | by apply IH].
      * destruct (10 <=? improvements); [by eexists _, _, _ | by apply IH].
Qed.

Lemma hc_restarts_returns (fuel : nat) (e : GridEnvironment)
    (start goal : Position) (reference : list Position) :
  env_ok e → (repair_fuel e ≤ fuel)%nat →
  ∀ restarts best_path best_score g,
  same_ends reference best_path →
  ∃ path g',
    hc_restarts restarts fuel e start goal best_path best_score g
    = Returned (path, g') ∧ same_ends reference path.
Proof.
  intros Hok Hfuel.
  induction restarts as [|restarts IH]; intros best_path best_score g Hends;
    simpl.
  - by eexists _, _.
  - destruct best_path as [|p0 best_path]; [by destruct Hends |]. simpl.
    destruct (hc_evaluate_path_returns e (p0 :: best_path) Hok)
      as [current_score Hs].
    simpl in Hs. rewrite Hs. simpl.
    destruct (hc_inner_returns fuel e reference Hok Hfuel 100
                (p0 :: best_path) current_score 0 g Hends)
      as (path & score & g' & Hi & Hends').
    simpl in Hi. rewrite Hi. simpl.
    destruct (Score_ltb score best_score); by apply IH.
Qed.

Section repair_properties.
Variable exp : float → float.

(** With enough fuel the repair returns; its result is the failure value or
    a path that is not empty. *)
Lemma replan_route_returns (fuel : nat) (e : GridEnvironment)
    (remaining_route : list Position) (g : Rng) :
  env_ok e → (repair_fuel e ≤ fuel)%nat →
  ∃ r g', replan_route exp fuel e remaining_route g = Returned (r, g') ∧
          r ≠ Some [].
Proof.
  intros Hok Hfuel. unfold replan_route.
  case_bool_decide as Hlen; [by exists None, g |].
  destruct remaining_route as [|current_pos rest] eqn:Hr;
    [simpl in Hlen; lia |].
  rewrite <- Hr in *. assert (remaining_route ≠ []) as Hne by (by subst).
  replace (py_index remaining_route 0) with (Returned current_pos)
    by (by subst).
  cbn [obind]. destruct (last remaining_route) as [goal_pos|] eqn:Hlast;
    [| by apply last_None in Hlast].
  unfold HillClimbing_search. cbn [or_empty].
  destruct (hc_evaluate_path_returns e remaining_route Hok)
    as [best_score ->]. cbn [obind].
  destruct (hc_restarts_returns fuel e current_pos goal_pos remaining_route
              Hok Hfuel 10 remaining_route best_score g)
    as (path & g' & -> & Hne' & _);
    [by apply same_ends_refl |]. cbn [obind].
  destruct path as [|p0 path]; [done |].
  by exists (Some (p0 :: path)), g'.
Qed.

(** C8: on an environment whose obstacles are well formed and with the
    fuel [repair_fuel], [replan_route] returns for every random tape; for a
    remaining route of at least two cells the result is a path, not empty,
    that starts at the first cell and ends at the last cell of the
    remaining route; for a shorter one it is the failure value.  An empty
    path is never returned. *)
Theorem replan_route_well_formed (fuel : nat) (e : GridEnvironment)
    (remaining_route : list Position) (g : Rng) :
  env_ok e → (repair_fuel e ≤ fuel)%nat →
  ∃ r g', replan_route exp fuel e remaining_route g = Returned (r, g') ∧
    match r with
    | Some path =>
        (2 ≤ length remaining_route)%nat ∧
        path ≠ [] ∧
        head path = head remaining_route ∧
        last path = last remaining_route
    | None => (length remaining_route < 2)%nat
    end.
Proof.
  intros Hok Hfuel. unfold replan_route.
  case_bool_decide as Hlen; [by exists None, g |].
  destruct remaining_route as [|current_pos rest] eqn:Hr;
    [simpl in Hlen; lia |].
  rewrite <- Hr in *. assert (remaining_route ≠ []) as Hne by (by subst).
  replace (py_index remaining_route 0) with (Returned current_pos)
    by (by subst).
  cbn [obind]. destruct (last remaining_route) as [goal_pos|] eqn:Hlast;
    [| by apply last_None in Hlast].
  unfold HillClimbing_search. cbn [or_empty].
  destruct (hc_evaluate_path_returns e remaining_route Hok)
    as [best_score ->]. cbn [obind].
  destruct (hc_restarts_returns fuel e current_pos goal_pos remaining_route
              Hok Hfuel 10 remaining_route best_score g)
    as (path & g' & -> & Hne' & Hhead & Hl);
    [by apply same_ends_refl |]. cbn [obind].
  destruct path as [|p0 path]; [done |].
  exists (Some (p0 :: path)), g'. split; [done |].
  rewrite Hhead, Hl, Hlast. split; [lia | done].
Qed.
End repair_properties.

Lemma replan_route_well_formed_witness :
  env_ok blocked_env ∧ (repair_fuel blocked_env ≤ 100)%nat ∧
  ∃ r g', replan_route exp_unused 100 blocked_env
            [(0, 0); (1, 0); (2, 0); (3, 0)] zero_rng = Returned (r, g') ∧
    match r with
    | Some path =>
        (2 ≤ length [(0, 0); (1, 0); (2, 0); (3, 0)])%nat ∧
        path ≠ [] ∧
        head path = head [(0, 0); (1, 0); (2, 0); (3, 0)] ∧
        last path = last [(0, 0); (1, 0); (2, 0); (3, 0)]
    | None => (length [(0, 0); (1, 0); (2, 0); (3, 0)] < 2)%nat
    end.
Proof.
  assert (env_ok blocked_env) as Hok.
  { intros nm o Hin. simpl in Hin. by apply elem_of_nil in Hin. }
  assert (repair_fuel blocked_env ≤ 100)%nat as Hfuel.
  { apply Nat.leb_le. vm_compute. reflexivity. }
  split; [exact Hok |]. split; [exact Hfuel |].
  exact (replan_route_well_formed exp_unused 100 blocked_env
           [(0, 0); (1, 0); (2, 0); (3, 0)] zero_rng Hok Hfuel).
Defined.

(** The repair of the route blocked at its second cell: the detour around
    (1,0), which keeps the cell (2,0) it rejoins the route at. *)
Example replan_route_blocked :
  ∃ g', replan_route exp_unused 100 blocked_env
          [(0, 0); (1, 0); (2, 0); (3, 0)] zero_rng
        = Returned (Some [(0, 0); (0, 1); (1, 1); (2, 1); (2, 0); (2, 0);
                          (3, 0)], g').
Proof.
  destruct (replan_route _ _ _ _ _) as [[r g]| |] eqn:E; vm_compute in E;
    [| done | done].
  injection E as <- <-. by eexists.
Qed.

(** ** Route execution *)

Lemma deliver_packages_spec (pkgs : list (Z * Position)) (next_pos : Position) :
  ∀ delivered output delivered' output',
  deliver_packages pkgs next_pos delivered output = (delivered', output') →
  ∃ ids, output' = output ++ map (fun k => PackageDelivered k next_pos) ids ∧
         NoDup ids ∧
         (∀ k, k ∈ ids → k ∉ delivered) ∧
         (∀ k, k ∈ delivered' ↔ k ∈ delivered ∨ k ∈ ids).
Proof.
  induction pkgs as [|[pkg_id delivery_pos] rest IH];
    intros delivered output delivered' output'; simpl.
  - intros [= <- <-]. exists []. simpl. rewrite app_nil_r.
    split; [done |]. split; [constructor |]. set_solver.
  - destruct (Position_eqb next_pos delivery_pos
              && negb (bool_decide (pkg_id ∈ delivered))) eqn:E.
    + apply andb_true_iff in E as [_ E].
      apply negb_true_iff, bool_decide_eq_false in E.
      intros H. destruct (IH _ _ _ _ H) as (ids & -> & Hnd & Hfresh & Hmem).
      exists (pkg_id :: ids). simpl. rewrite <- app_assoc. split; [done |].
      split; [| split].
      * constructor; [| done]. intros Hin. apply Hfresh in Hin. set_solver.
      * intros k Hk. apply elem_of_cons in Hk as [-> | Hk]; [done |].
        apply Hfresh in Hk. set_solver.
      * intros k. rewrite Hmem. set_solver.
    + intros H. apply (IH _ _ _ _ H).
Qed.

Lemma delivered_ids_app (out1 out2 : list Event) :
  delivered_ids (out1 ++ out2) = delivered_ids out1 ++ delivered_ids out2.
Proof. apply omap_app. Qed.

Lemma delivered_ids_deliveries (ids : list Z) (pos : Position) :
  delivered_ids (map (fun k => PackageDelivered k pos) ids) = ids.
Proof. induction ids as [|k ids IH]; simpl; [done | by f_equal]. Qed.

Section execution_properties.
Variable exp : float → float.

Lemma check_obstruction_agent (fuel : nat) (e : GridEnvironment) (i : Z)
    (next_pos : Position) (st st1 : ExecState) (target : option Position) :
  check_obstruction exp fuel e i next_pos st = Returned (target, st1) →
  agent st1 = agent st ∧
  ∃ extra, output st1 = output st ++ extra ∧ delivered_ids extra = [].
Proof.
  unfold check_obstruction.
  destruct (is_obstructed e _ _ _) as [[|]| |]; simpl; try done.
  - destruct (replan_route exp fuel e _ (rng st)) as [[new_route g]| |];
      simpl; try done.
    destruct new_route as [[|c new_route]|].
    + intros [= <- <-]. simpl. split; [done |].
      exists [ObstacleDetected next_pos; ReplanningFailed].
      by rewrite <- app_assoc.
    + destruct (if i <? _ then _ else _) as [p| |]; simpl; try done.
      intros [= <- <-]. simpl. split; [done |].
      by exists [ObstacleDetected next_pos].
    + intros [= <- <-]. simpl. split; [done |].
      exists [ObstacleDetected next_pos; ReplanningFailed].
      by rewrite <- app_assoc.
  - intros [= <- <-]. split; [done |]. exists []. by rewrite app_nil_r.
Qed.

Lemma move_to_fuel (e : GridEnvironment) (next_pos : Position)
    (st : ExecState) :
  0 ≤ agent_fuel (agent st) →
  0 ≤ agent_fuel (agent (flow_state (move_to e next_pos st))) ∧
  (0 ≤ get_terrain_cost e next_pos.1 next_pos.2 →
   agent_fuel (agent (flow_state (move_to e next_pos st)))
   ≤ agent_fuel (agent st)).
Proof.
  intros Hf. unfold move_to.
  destruct (Z.leb_spec (get_terrain_cost e next_pos.1 next_pos.2)
              (agent_fuel (agent st))) as [Hle | Hlt].
  - destruct (deliver_packages _ _ _ _). simpl. lia.
  - simpl. lia.
Qed.

Lemma get_terrain_cost_nonneg (e : GridEnvironment) (x y : Z) :
  (∀ x y, 0 ≤ grid e y x) → 0 ≤ get_terrain_cost e x y.
Proof.
  intros Hg. unfold get_terrain_cost.
  destruct (negb (is_within_bounds e x y)); [lia | apply Hg].
Qed.

Lemma execute_step_fuel (fuel : nat) (e : GridEnvironment) (i : Z)
    (next_pos : Position) (st : ExecState) (flow : Flow ExecState) :
  (∀ x y, 0 ≤ grid e y x) →
  0 ≤ agent_fuel (agent st) →
  execute_step exp fuel e i next_pos st = Returned flow →
  0 ≤ agent_fuel (agent (flow_state flow)) ≤ agent_fuel (agent st).
Proof.
  intros Hg Hf. unfold execute_step.
  destruct (check_obstruction exp fuel e i next_pos st)
    as [[target st1]| |] eqn:Hc; simpl; try done.
  apply check_obstruction_agent in Hc as [Ha _].
  destruct target as [p|]; intros [= <-].
  - rewrite <- Ha in *.
    destruct (move_to_fuel e p st1) as [H1 H2]; [lia |].
    split; [done |]. apply H2. by apply get_terrain_cost_nonneg.
  - simpl. rewrite Ha. lia.
Qed.

Lemma execute_loop_fuel (fuel : nat) (e : GridEnvironment)
    (cells : list Position) :
  (∀ x y, 0 ≤ grid e y x) →
  ∀ i st st', 0 ≤ agent_fuel (agent st) →
  execute_loop exp fuel e cells i st = Returned st' →
  0 ≤ agent_fuel (agent st') ≤ agent_fuel (agent st).
Proof.
  intros Hg. induction cells as [|next_pos rest IH]; intros i st st' Hf; simpl.
  - intros [= <-]. lia.
  - destruct (execute_step exp fuel e i next_pos st) as [flow| |] eqn:Hs;
      simpl; try done.
    pose proof (execute_step_fuel _ _ _ _ _ _ Hg Hf Hs) as Hstep.
    destruct flow as [st1 | st1]; simpl in Hstep.
    + intros Hl. apply IH in Hl; lia.
    + intros [= <-]. done.
Qed.

Lemma check_obstruction_returns (fuel : nat) (e : GridEnvironment) (i : Z)
    (next_pos : Position) (st : ExecState) :
  env_ok e → (repair_fuel e ≤ fuel)%nat → 0 ≤ i →
  ∃ target st1,
    check_obstruction exp fuel e i next_pos st = Returned (target, st1).
Proof.
  intros Hok Hfuel Hi. unfold check_obstruction.
  destruct (is_obstructed_returns e next_pos.1 next_pos.2
              (agent_time (agent st)) Hok) as [blocked ->]. cbn [obind].
  destruct blocked; [| by eexists _, _].
  destruct (replan_route_returns exp fuel e
              (py_slice_from (route st) (i - 1)) (rng st) Hok Hfuel)
    as (r & g' & -> & Hr). cbn [obind].
  destruct r as [[|c new_route]|]; [done | | by eexists _, _].
  destruct (Z.ltb_spec i
              (Z.of_nat (length (py_slice_to (route st) (i - 1)
                                 ++ c :: new_route)))) as [Hlt | _].
  - destruct (py_index_lookup
                (py_slice_to (route st) (i - 1) ++ c :: new_route) i)
      as [p ->]; [lia |]. by eexists _, _.
  - by eexists _, _.
Qed.

Lemma execute_loop_returns (fuel : nat) (e : GridEnvironment)
    (cells : list Position) :
  env_ok e → (repair_fuel e ≤ fuel)%nat →
  ∀ i st, 0 ≤ i → ∃ st', execute_loop exp fuel e cells i st = Returned st'.
Proof.
  intros Hok Hfuel. induction cells as [|next_pos rest IH]; intros i st Hi;
    cbn [execute_loop]; [by eexists |].
  unfold execute_step.
  destruct (check_obstruction_returns fuel e i next_pos st Hok Hfuel Hi)
    as (target & st1 & ->). cbn [obind].
  destruct target as [p|]; cbn [obind]; [| by eexists].
  destruct (move_to e p st1); [apply IH; lia | by eexists].
Qed.

(** On an environment whose obstacles are well formed and with the fuel
    [repair_fuel], [execute_route] returns for every route, step budget and
    random tape. *)
Lemma execute_route_returns (fuel : nat) (e : GridEnvironment)
    (a : DeliveryAgent) (planned : list Position) (max_steps : Z) (g : Rng) :
  env_ok e → (repair_fuel e ≤ fuel)%nat →
  ∃ status st,
    execute_route exp fuel e a planned max_steps g = Returned (status, st).
Proof.
  intros Hok Hfuel. unfold execute_route.
  destruct (execute_loop_returns fuel e (py_slice planned 1 (max_steps + 1))
              Hok Hfuel 1
              {| agent := a; route := planned; rng := g; output := [] |})
    as [st ->]; [lia |].
  by eexists _, _.
Qed.

(** C5: with terrain costs that are not negative and an agent whose fuel
    is not negative, every iteration of the loop of [execute_route] leaves
    the fuel between zero and its value before the iteration, and so does
    the whole call, which returns when the obstacles are well formed and the
    repair has its fuel; and when the cell to step on costs more than the
    fuel that is left, the loop ends at once with the agent unchanged,
    whatever cells were still to come. *)
Theorem execute_route_fuel (fuel : nat) (e : GridEnvironment) :
  (∀ x y, 0 ≤ grid e y x) →
  (∀ i next_pos st flow,
     0 ≤ agent_fuel (agent st) →
     execute_step exp fuel e i next_pos st = Returned flow →
     0 ≤ agent_fuel (agent (flow_state flow)) ≤ agent_fuel (agent st)) ∧
  (∀ a planned max_steps g status st,
     0 ≤ agent_fuel a →
     execute_route exp fuel e a planned max_steps g = Returned (status, st) →
     0 ≤ agent_fuel (agent st) ≤ agent_fuel a) ∧
  (env_ok e → (repair_fuel e ≤ fuel)%nat →
   ∀ a planned max_steps g,
     0 ≤ agent_fuel a →
     ∃ status st,
       execute_route exp fuel e a planned max_steps g = Returned (status, st) ∧
       0 ≤ agent_fuel (agent st) ≤ agent_fuel a) ∧
  (∀ i next_pos rest st target st1,
     check_obstruction exp fuel e i next_pos st
     = Returned (Some target, st1) →
     agent_fuel (agent st) < get_terrain_cost e target.1 target.2 →
     ∃ st', execute_loop exp fuel e (next_pos :: rest) i st = Returned st' ∧
            agent st' = agent st ∧
            output st' = output st1 ++ [OutOfFuelStop]).
Proof.
  intros Hg.
  assert (∀ a planned max_steps g status st,
            0 ≤ agent_fuel a →
            execute_route exp fuel e a planned max_steps g
            = Returned (status, st) →
            0 ≤ agent_fuel (agent st) ≤ agent_fuel a) as Hroute.
  { intros a planned max_steps g status st Hf. unfold execute_route.
    destruct (execute_loop exp fuel e _ 1 _) as [st1| |] eqn:Hl; simpl;
      try done.
    intros [= <- <-]. simpl.
    apply execute_loop_fuel in Hl; done. }
  split; [| split; [done |]; split].
  - intros i next_pos st flow Hf Hs. by eapply execute_step_fuel.
  - intros Hok Hfuel a planned max_steps g Hf.
    destruct (execute_route_returns fuel e a planned max_steps g Hok Hfuel)
      as (status & st & Hret).
    exists status, st. split; [done |]. by eapply Hroute.
  - intros i next_pos rest st target st1 Hc Hlt. simpl.
    unfold execute_step. rewrite Hc. simpl.
    pose proof (check_obstruction_agent _ _ _ _ _ _ _ Hc) as [Ha _].
    unfold move_to. rewrite Ha.
    destruct (Z.leb_spec (get_terrain_cost e target.1 target.2)
                (agent_fuel (agent st))) as [Hle | _]; [lia |].
    simpl. eexists. split; [done |]. done.
Qed.

Lemma execute_step_deliveries (fuel : nat) (e : GridEnvironment) (i : Z)
    (next_pos : Position) (st : ExecState) (flow : Flow ExecState) :
  execute_step exp fuel e i next_pos st = Returned flow →
  ∃ ids,
    delivered_ids (output (flow_state flow))
    = delivered_ids (output st) ++ ids ∧
    NoDup ids ∧
    (∀ k, k ∈ ids → k ∉ packages_delivered (agent st)) ∧
    (∀ k, k ∈ packages_delivered (agent (flow_state flow)) ↔
          k ∈ packages_delivered (agent st) ∨ k ∈ ids).
Proof.
  unfold execute_step.
  destruct (check_obstruction exp fuel e i next_pos st)
    as [[target st1]| |] eqn:Hc; simpl; try done.
  apply check_obstruction_agent in Hc as (Ha & extra & Hout & Hextra).
  assert (delivered_ids (output st1) = delivered_ids (output st)) as Hids.
  { by rewrite Hout, delivered_ids_app, Hextra, app_nil_r. }
  destruct target as [p|]; intros [= <-].
  - unfold move_to.
    destruct (get_terrain_cost e p.1 p.2 <=? agent_fuel (agent st1)).
    + destruct (deliver_packages _ _ _ _) as [delivered' output'] eqn:Hd.
      apply deliver_packages_spec in Hd as (ids & -> & Hnd & Hfresh & Hmem).
      exists ids. simpl.
      rewrite delivered_ids_app, delivered_ids_deliveries, Hids, <- Ha.
      done.
    + exists []. simpl. rewrite delivered_ids_app, Hids, Ha. simpl.
      split; [done |]. split; [constructor |]. set_solver.
  - exists []. simpl. rewrite Hids, Ha, app_nil_r.
    split; [done |]. split; [constructor |]. set_solver.
Qed.

Lemma execute_loop_deliveries (fuel : nat) (e : GridEnvironment)
    (cells : list Position) :
  ∀ i st st',
  execute_loop exp fuel e cells i st = Returned st' →
  ∃ ids,
    delivered_ids (output st') = delivered_ids (output st) ++ ids ∧
    NoDup ids ∧
    (∀ k, k ∈ ids → k ∉ packages_delivered (agent st)) ∧
    (∀ k, k ∈ packages_delivered (agent st') ↔
          k ∈ packages_delivered (agent st) ∨ k ∈ ids).
Proof.
  induction cells as [|next_pos rest IH]; intros i st st'; simpl.
  - intros [= <-]. exists []. rewrite app_nil_r.
    split; [done |]. split; [constructor |]. set_solver.
  - destruct (execute_step exp fuel e i next_pos st) as [flow| |] eqn:Hs;
      simpl; try done.
    apply execute_step_deliveries in Hs as (ids1 & Hout1 & Hnd1 & Hf1 & Hm1).
    destruct flow as [st1 | st1]; simpl in *.
    + intros Hl. apply IH in Hl as (ids2 & Hout2 & Hnd2 & Hf2 & Hm2).
      exists (ids1 ++ ids2). rewrite Hout2, Hout1, <- app_assoc.
      split; [done |]. split; [| split].
      * apply NoDup_app. split; [done |]. split; [| done].
        intros k Hk1 Hk2. apply Hf2 in Hk2. apply Hk2, Hm1. by right.
      * intros k Hk. apply elem_of_app in Hk as [Hk | Hk]; [by apply Hf1 |].
        apply Hf2 in Hk. intros Hin. apply Hk, Hm1. by left.
      * intros k. rewrite Hm2, Hm1, elem_of_app. tauto.
    + intros [= <-]. by exists ids1.
Qed.

Lemma execute_route_delivered_set (fuel : nat) (e : GridEnvironment)
    (a : DeliveryAgent) (planned : list Position) (max_steps : Z) (g : Rng)
    (status : DeliveryStatus) (st : ExecState) :
  execute_route exp fuel e a planned max_steps g = Returned (status, st) →
  status_packages_delivered status = packages_delivered (agent st) ∧
  ∀ k, k ∈ packages_delivered (agent st) ↔
       k ∈ packages_delivered a ∨ k ∈ delivered_ids (output st).
Proof.
  unfold execute_route.
  destruct (execute_loop exp fuel e _ 1 _) as [st1| |] eqn:Hl; simpl;
    try done.
  intros [= <- <-]. simpl.
  apply execute_loop_deliveries in Hl as (ids & Hout & _ & _ & Hmem).
  simpl in *. by rewrite Hout.
Qed.

(** C6: a call of [execute_route] returns when the obstacles are well
    formed and the repair has its fuel, and in a call that returns no package
    id is reported delivered twice, whatever cells the realized path
    revisits; the ids reported are ids that were not delivered before the
    call; the delivered set after the call is the set before the call with
    the reported ids added, and no iteration of the loop removes an id from
    it. *)
Theorem execute_route_delivers_once (fuel : nat) (e : GridEnvironment)
    (a : DeliveryAgent) (planned : list Position) (max_steps : Z) (g : Rng) :
  (env_ok e → (repair_fuel e ≤ fuel)%nat →
   ∃ status st,
     execute_route exp fuel e a planned max_steps g = Returned (status, st)) ∧
  ∀ status st,
    execute_route exp fuel e a planned max_steps g = Returned (status, st) →
    NoDup (delivered_ids (output st)) ∧
    (∀ k, k ∈ delivered_ids (output st) → k ∉ packages_delivered a) ∧
    (∀ k, k ∈ packages_delivered (agent st) ↔
          k ∈ packages_delivered a ∨ k ∈ delivered_ids (output st)) ∧
    packages_delivered a ⊆ packages_delivered (agent st) ∧
    status_packages_delivered status = packages_delivered (agent st) ∧
    (∀ i next_pos st0 flow,
       execute_step exp fuel e i next_pos st0 = Returned flow →
       packages_delivered (agent st0)
       ⊆ packages_delivered (agent (flow_state flow))).
Proof.
  split; [by apply execute_route_returns |].
  intros status st. unfold execute_route.
  destruct (execute_loop exp fuel e _ 1 _) as [st1| |] eqn:Hl; simpl;
    try done.
  intros [= <- <-]. simpl.
  apply execute_loop_deliveries in Hl as (ids & Hout & Hnd & Hfresh & Hmem).
  simpl in *. rewrite Hout.
  split; [done |]. split; [done |]. split; [done |].
  split; [intros k Hk; apply Hmem; by left |]. split; [done |].
  intros i next_pos st0 flow Hs.
  apply execute_step_deliveries in Hs as (ids' & _ & _ & _ & Hm).
  intros k Hk. apply Hm. by left.
Qed.
End execution_properties.

Lemma execute_route_fuel_witness :
  (∀ x y, 0 ≤ grid road_env y x) ∧
  match execute_route exp_unused 100 road_env (DeliveryAgent_init road_env 2)
          [(0, 0); (1, 0); (2, 0); (3, 0)] 10 zero_rng with
  | Returned (_, st) => 0 ≤ agent_fuel (agent st) ≤ 2
  | _ => False
  end.
Proof.
  assert (∀ x y, 0 ≤ grid road_env y x) as Hg by (intros; simpl; lia).
  split; [exact Hg |].
  destruct (execute_route exp_unused 100 road_env
              (DeliveryAgent_init road_env 2)
              [(0, 0); (1, 0); (2, 0); (3, 0)] 10 zero_rng)
    as [[status st]| |] eqn:E.
  - refine (proj1 (proj2 (execute_route_fuel exp_unused 100 road_env Hg))
              (DeliveryAgent_init road_env 2) _ _ _ status st _ E).
    simpl. lia.
  - vm_compute in E. discriminate E.
  - vm_compute in E. discriminate E.
Defined.

(** With fuel for two moves the agent stops on the third cell. *)
Example execute_route_out_of_fuel :
  ∃ status st,
    execute_route exp_unused 100 road_env (DeliveryAgent_init road_env 2)
      [(0, 0); (1, 0); (2, 0); (3, 0)] 10 zero_rng = Returned (status, st) ∧
    agent_fuel (agent st) = 0 ∧
    path_taken status = [(0, 0); (1, 0); (2, 0)] ∧
    output st = [OutOfFuelStop].
Proof.
  destruct (execute_route exp_unused 100 road_env
              (DeliveryAgent_init road_env 2)
              [(0, 0); (1, 0); (2, 0); (3, 0)] 10 zero_rng)
    as [[status st]| |] eqn:E; vm_compute in E; [| done | done].
  injection E as <- <-. eexists _, _. split; [done |]. done.
Qed.

(** The scenario of [test_execute_route]. *)
Example execute_route_test :
  ∃ status st,
    execute_route exp_unused 100 (GridEnvironment_init 10 10)
      (DeliveryAgent_init (GridEnvironment_init 10 10) 1000)
      [(0, 0); (1, 0); (2, 0); (3, 0)] 10 zero_rng = Returned (status, st) ∧
    total_time status = 3 ∧ length (path_taken status) = 4%nat.
Proof.
  destruct (execute_route _ _ _ _ _ _ _) as [[status st]| |] eqn:E;
    vm_compute in E; [| done | done].
  injection E as <- <-. eexists _, _. split; [done |]. done.
Qed.

Lemma execute_route_delivers_once_witness :
  match execute_route exp_unused 100 parcel_env
          (DeliveryAgent_init parcel_env 1000)
          [(0, 0); (1, 0); (0, 0); (1, 0); (1, 1); (1, 0)] 10 zero_rng with
  | Returned (_, st) => NoDup (delivered_ids (output st))
  | _ => False
  end.
Proof.
  destruct (execute_route exp_unused 100 parcel_env
              (DeliveryAgent_init parcel_env 1000)
              [(0, 0); (1, 0); (0, 0); (1, 0); (1, 1); (1, 0)] 10 zero_rng)
    as [[status st]| |] eqn:E.
  - exact (proj1 (proj2 (execute_route_delivers_once exp_unused _ _ _ _ _ _)
                    status st E)).
  - vm_compute in E. discriminate E.
  - vm_compute in E. discriminate E.
Defined.

(** The route passes the cell of packages 1 and 2 three times. *)
Example execute_route_revisit :
  ∃ status st,
    execute_route exp_unused 100 parcel_env
      (DeliveryAgent_init parcel_env 1000)
      [(0, 0); (1, 0); (0, 0); (1, 0); (1, 1); (1, 0)] 10 zero_rng
    = Returned (status, st) ∧
    output st = [PackageDelivered 1 (1, 0); PackageDelivered 2 (1, 0)] ∧
    path_taken status = [(0, 0); (1, 0); (0, 0); (1, 0); (1, 1); (1, 0)] ∧
    (∀ k, k ∈ status_packages_delivered status ↔ k = 1 ∨ k = 2).
Proof.
  destruct (execute_route exp_unused 100 parcel_env _ _ _ _)
    as [[status st]| |] eqn:E.
  2, 3: vm_compute in E; discriminate E.
  pose proof (execute_route_delivered_set exp_unused _ _ _ _ _ _ status st E)
    as [Hst Hmem].
  assert (output st = [PackageDelivered 1 (1, 0); PackageDelivered 2 (1, 0)]
          ∧ path_taken status
            = [(0, 0); (1, 0); (0, 0); (1, 0); (1, 1); (1, 0)]) as [Ho Hp].
  { vm_compute in E. injection E as <- <-. done. }
  eexists _, _. split; [done |]. split; [done |]. split; [done |].
  intros k. rewrite Hst, Hmem, Ho. simpl. set_solver.
Qed.

(** An iteration whose cell is not obstructed steps on the cell taken from
    the slice that the loop enumerates; the variable [route], which a
    repair rebinds, is not read. *)
Lemma execute_step_unobstructed (exp : float → float) (fuel : nat)
    (e : GridEnvironment) (i : Z) (next_pos : Position) (st : ExecState) :
  is_obstructed e next_pos.1 next_pos.2 (agent_time (agent st))
  = Returned false →
  execute_step exp fuel e i next_pos st = Returned (move_to e next_pos st).
Proof.
  intros Hfree. unfold execute_step, check_obstruction. by rewrite Hfree.
Qed.

(** C7: on the road grid with a static obstacle at (1,0), the route
    (0,0),(1,0),(2,0),(3,0) is repaired at its first step: the detour
    (0,0),(0,1),(1,1),(2,1),(2,0),(2,0),(3,0) becomes the route and the agent
    steps on its second cell (0,1); the next two steps are then (2,0) and
    (3,0), the cells of the route as it was before the repair, and not (1,1)
    and (2,1), the cells of the repaired route. *)
Theorem execute_route_leaves_repaired_route :
  ∃ status st,
    execute_route exp_unused 100 blocked_env
      (DeliveryAgent_init blocked_env 1000)
      [(0, 0); (1, 0); (2, 0); (3, 0)] 10 zero_rng = Returned (status, st) ∧
    output st = [ObstacleDetected (1, 0)] ∧
    route st = [(0, 0); (0, 1); (1, 1); (2, 1); (2, 0); (2, 0); (3, 0)] ∧
    path_taken status = [(0, 0); (0, 1); (2, 0); (3, 0)] ∧
    path_taken status ≠ take 4 (route st).
Proof.
  destruct (execute_route exp_unused 100 blocked_env _ _ _ _)
    as [[status st]| |] eqn:E; vm_compute in E; [| done | done].
  injection E as <- <-. eexists _, _. split; [done |]. simpl.
  repeat split; done.
Qed.

(** ** The exhaustive searches on the road grid *)

(** C2: on the five by five grid of roads, breadth-first search, uniform-cost
    search and A* with each of the three heuristics return, from (0,0) to
    (4,4), a path of nine cells that starts at (0,0) and ends at (4,4). *)
Theorem searches_on_road_grid :
  Forall
    (fun search : Position → Position → outcome (option (list Position)) =>
       ∃ path, search (0, 0) (4, 4) = Returned (Some path) ∧
               length path = 9%nat ∧
               head path = Some (0, 0) ∧ last path = Some (4, 4))
    [BFS_search 100 road_env;
     UniformCostSearch_search 100 road_env;
     AStarSearch_search 100 road_env "manhattan";
     AStarSearch_search 100 road_env "euclidean";
     AStarSearch_search 100 road_env "chebyshev"].
Proof.
  repeat (apply Forall_cons; split;
          [eexists; (split; [vm_compute; reflexivity | done]) |]).
  apply Forall_nil_2.
Qed.

(** ** The binary heap *)

(** Linear arithmetic with the division by two of the parent index. *)
Ltac dlia := zify; Z.to_euclidean_division_equations; lia.

Section heapq_properties.
Context {A : Type} (lt : A → A → bool) (P : A → Prop).

(** [lt] is a strict weak order on the items that satisfy [P]. *)
Hypothesis lt_asym : ∀ a b, P a → P b → lt a b = true → lt b a = false.
Hypothesis le_trans :
  ∀ a b c, P a → P b → P c → lt b a = false → lt c b = false → lt c a = false.

Lemma hole_ok_insert (heap : list A) (pos : nat) (x : A) :
  hole_ok lt (<[pos := x]> heap) pos ↔ hole_ok lt heap pos.
Proof.
  unfold hole_ok. split; intros [H1 H2]; split.
  - intros i c p Hi Hne Hpne Hc Hp.
    apply (H1 i c p); try done; by rewrite list_lookup_insert_ne.
  - intros i c p Hpos Hpar Hi Hc Hp.
    apply (H2 i c p); try done; rewrite list_lookup_insert_ne; try done; dlia.
  - intros i c p Hi Hne Hpne Hc Hp.
    rewrite list_lookup_insert_ne in Hc, Hp by done. by apply (H1 i c p).
  - intros i c p Hpos Hpar Hi Hc Hp.
    rewrite list_lookup_insert_ne in Hc, Hp by dlia. by apply (H2 i c p).
Qed.

Lemma heap_ok_hole (heap : list A) (pos : nat) :
  Forall P heap → heap_ok lt heap → hole_ok lt heap pos.
Proof.
  intros HP Hok. split.
  - intros i c p Hi _ _ Hc Hp. by apply (Hok i c p).
  - intros i c p Hpos Hpar Hi Hc Hp.
    destruct (heap !! pos) as [m|] eqn:Hm.
    + apply (le_trans p m c).
      * eapply Forall_lookup_1; eauto.
      * eapply Forall_lookup_1; eauto.
      * eapply Forall_lookup_1; eauto.
      * by apply (Hok pos m p).
      * apply (Hok i c m); [done | done |]. by rewrite Hpar.
    + apply lookup_ge_None in Hm. apply lookup_lt_Some in Hc. dlia.
Qed.

Lemma siftdown_loop_length (steps : nat) :
  ∀ heap startpos pos newitem,
  length (siftdown_loop lt steps heap startpos pos newitem) = length heap.
Proof.
  induction steps as [|steps IH]; intros heap startpos pos newitem; simpl.
  - by rewrite length_insert.
  - case_bool_decide; [| by rewrite length_insert].
    destruct (heap !! _) as [parent|]; [| by rewrite length_insert].
    destruct (lt newitem parent); [| by rewrite length_insert].
    by rewrite IH, length_insert.
Qed.

Lemma elem_of_insert_move (heap : list A) (i j : nat) (a b x : A) :
  i ≠ j → (i < length heap)%nat → heap !! j = Some b →
  x ∈ <[j := a]> (<[i := b]> heap) ↔ x ∈ <[i := a]> heap.
Proof.
  intros Hne Hi Hj. pose proof (lookup_lt_Some _ _ _ Hj) as Hjlt.
  rewrite !list_elem_of_lookup. split; intros [k Hk].
  - destruct (decide (k = j)) as [-> | Hkj].
    + rewrite list_lookup_insert_eq in Hk by (by rewrite length_insert).
      injection Hk as <-. exists i. by rewrite list_lookup_insert_eq.
    + rewrite list_lookup_insert_ne in Hk by done.
      destruct (decide (k = i)) as [-> | Hki].
      * rewrite list_lookup_insert_eq in Hk by done. injection Hk as <-.
        exists j. by rewrite list_lookup_insert_ne.
      * rewrite list_lookup_insert_ne in Hk by done.
        exists k. by rewrite list_lookup_insert_ne.
  - destruct (decide (k = i)) as [-> | Hki].
    + rewrite list_lookup_insert_eq in Hk by done. injection Hk as <-.
      exists j. by rewrite list_lookup_insert_eq by (by rewrite length_insert).
    + rewrite list_lookup_insert_ne in Hk by done.
      destruct (decide (k = j)) as [-> | Hkj].
      * rewrite Hj in Hk. injection Hk as <-. exists i.
        rewrite list_lookup_insert_ne by done.
        by rewrite list_lookup_insert_eq.
      * exists k. by rewrite !list_lookup_insert_ne.
Qed.

Lemma siftdown_loop_elem_of (steps : nat) :
  ∀ heap startpos pos newitem x,
  (pos < length heap)%nat →
  x ∈ siftdown_loop lt steps heap startpos pos newitem
  ↔ x ∈ <[pos := newitem]> heap.
Proof.
  induction steps as [|steps IH]; intros heap startpos pos newitem x Hpos;
    cbn [siftdown_loop]; [done |].
  case_bool_decide as Hlt; [| done].
  destruct (heap !! ((pos - 1) / 2)%nat) as [parent|] eqn:Hp; [| done].
  destruct (lt newitem parent); [| done].
  rewrite IH by (rewrite length_insert; dlia).
  apply elem_of_insert_move; [dlia | done | done].
Qed.

Lemma place_ok (heap : list A) (pos : nat) (newitem : A) :
  hole_ok lt heap pos →
  (∀ i c, ((i - 1) / 2)%nat = pos → (1 ≤ i)%nat → heap !! i = Some c →
          lt c newitem = false) →
  (∀ p, (1 ≤ pos)%nat → heap !! ((pos - 1) / 2)%nat = Some p →
        lt newitem p = false) →
  heap_ok lt (<[pos := newitem]> heap).
Proof.
  intros [H1 H2] Hchildren Hparent i c p Hi Hc Hp.
  destruct (decide (i = pos)) as [-> | Hne].
  - assert (pos < length heap)%nat as Hlen.
    { apply lookup_lt_Some in Hc. by rewrite length_insert in Hc. }
    rewrite list_lookup_insert_eq in Hc by done. injection Hc as <-.
    rewrite list_lookup_insert_ne in Hp by dlia. by apply Hparent.
  - rewrite list_lookup_insert_ne in Hc by done.
    destruct (decide (((i - 1) / 2)%nat = pos)) as [Hpar | Hpar].
    + rewrite Hpar in Hp.
      assert (pos < length heap)%nat as Hlen.
      { apply lookup_lt_Some in Hp. by rewrite length_insert in Hp. }
      rewrite list_lookup_insert_eq in Hp by done. injection Hp as <-.
      by apply (Hchildren i).
    + rewrite list_lookup_insert_ne in Hp by done. by apply (H1 i c p).
Qed.

Lemma siftdown_loop_ok (steps : nat) :
  ∀ heap pos newitem,
  (pos ≤ steps)%nat → (pos < length heap)%nat →
  Forall P heap → P newitem → hole_ok lt heap pos →
  (∀ i c, ((i - 1) / 2)%nat = pos → (1 ≤ i)%nat → heap !! i = Some c →
          lt c newitem = false) →
  heap_ok lt (siftdown_loop lt steps heap 0 pos newitem).
Proof.
  induction steps as [|steps IH];
    intros heap pos newitem Hsteps Hlen HP HPn Hhole Hchildren;
    cbn [siftdown_loop].
  - apply place_ok; [done | done |]. intros p Hpos. lia.
  - case_bool_decide as Hpos;
      [| apply place_ok; [done | done | intros p ?; lia]].
    destruct (heap !! ((pos - 1) / 2)%nat) as [parent|] eqn:Hp.
    2: { apply lookup_ge_None in Hp. dlia. }
    assert (P parent) as HPp by (eapply Forall_lookup_1; eauto).
    destruct (lt newitem parent) eqn:Hlt.
    2: { apply place_ok; [done | done |]. intros p _ Hp'. congruence. }
    destruct Hhole as [H1 H2].
    apply IH.
    + dlia.
    + rewrite length_insert. dlia.
    + apply Forall_insert; done.
    + done.
    + split.
      * intros i c p Hi Hne Hpne Hc Hp'.
        destruct (decide (i = pos)) as [-> | Hipos]; [done |].
        rewrite list_lookup_insert_ne in Hc by done.
        destruct (decide (((i - 1) / 2)%nat = pos)) as [Hpar | Hpar].
        -- rewrite Hpar, list_lookup_insert_eq in Hp' by done.
           injection Hp' as <-. by apply (H2 i c parent).
        -- rewrite list_lookup_insert_ne in Hp' by done. by apply (H1 i c p).
      * intros i c p Hppos Hpar Hi Hc Hp'.
        rewrite list_lookup_insert_ne in Hp' by dlia.
        assert (lt parent p = false) as Hpp.
        { apply (H1 ((pos - 1) / 2)%nat parent p); try done; dlia. }
        destruct (decide (i = pos)) as [-> | Hipos].
        -- rewrite list_lookup_insert_eq in Hc by done. by injection Hc as <-.
        -- rewrite list_lookup_insert_ne in Hc by done.
           apply (le_trans p parent c); try done.
           ++ eapply Forall_lookup_1; eauto.
           ++ eapply Forall_lookup_1; eauto.
           ++ apply (H1 i c parent);
                [done | done | dlia | done | by rewrite Hpar].
    + intros i c Hpar Hi Hc.
      destruct (decide (i = pos)) as [-> | Hipos].
      * rewrite list_lookup_insert_eq in Hc by done. injection Hc as <-.
        by apply lt_asym.
      * rewrite list_lookup_insert_ne in Hc by done.
        apply (le_trans newitem parent c); try done.
        -- eapply Forall_lookup_1; eauto.
        -- by apply lt_asym.
        -- apply (H1 i c parent);
             [done | done | dlia | done | by rewrite Hpar].
Qed.

Lemma siftup_loop_ok (steps : nat) :
  ∀ heap pos heap' leaf,
  siftup_loop lt steps heap pos = (heap', leaf) →
  (length heap ≤ steps + pos)%nat → (pos < length heap)%nat →
  Forall P heap → hole_ok lt heap pos →
  length heap' = length heap ∧ (leaf < length heap')%nat ∧
  Forall P heap' ∧ hole_ok lt heap' leaf ∧
  (length heap' ≤ 2 * leaf + 1)%nat ∧
  (∀ newitem x, x ∈ <[leaf := newitem]> heap' ↔ x ∈ <[pos := newitem]> heap).
Proof.
  induction steps as [|steps IH]; intros heap pos heap' leaf;
    cbn [siftup_loop]; [intros; lia |].
  case_bool_decide as Hchild.
  2: { intros [= <- <-] _ Hlen HP Hhole.
       split; [done |]. split; [done |]. split; [done |]. split; [done |].
       split; [lia | done]. }
  intros Hloop Hsteps Hlen HP [H1 H2]. revert Hloop.
  set (childpos := (2 * pos + 1)%nat) in *.
  destruct (heap !! childpos) as [l|] eqn:Hl.
  2: { apply lookup_ge_None in Hl. lia. }
  set (chosen := match heap !! (childpos + 1)%nat with
                 | Some r => if negb (lt l r) then (childpos + 1)%nat
                             else childpos
                 | None => childpos
                 end).
  assert (∃ c, heap !! chosen = Some c ∧
               (chosen = childpos ∨ chosen = (childpos + 1)%nat) ∧
               ∀ i s, ((i - 1) / 2)%nat = pos → (1 ≤ i)%nat → i ≠ chosen →
                      heap !! i = Some s → lt s c = false)
    as (c & Hc & Hchosen & Hother).
  { subst chosen. destruct (heap !! (childpos + 1)%nat) as [r|] eqn:Hr.
    - destruct (lt l r) eqn:Hlr; cbn [negb].
      + exists l. split; [done |]. split; [by left |].
        intros i s Hpar Hi Hne Hs.
        assert (i = (childpos + 1)%nat) as -> by (subst childpos; dlia).
        rewrite Hr in Hs. injection Hs as <-.
        apply lt_asym; [| | done]; eapply Forall_lookup_1; eauto.
      + exists r. split; [done |]. split; [by right |].
        intros i s Hpar Hi Hne Hs.
        assert (i = childpos) as -> by (subst childpos; dlia).
        rewrite Hl in Hs. by injection Hs as <-.
    - exists l. split; [done |]. split; [by left |].
      intros i s Hpar Hi Hne Hs.
      assert (i = (childpos + 1)%nat) as -> by (subst childpos; dlia).
      congruence. }
  rewrite Hc. intros Hloop.
  assert (P c) as HPc by (eapply Forall_lookup_1; eauto).
  apply IH in Hloop.
  - destruct Hloop as (Hlen' & Hleaf & HP' & Hhole' & Hnochild & Hmem).
    rewrite length_insert in Hlen'.
    split; [done |]. split; [done |]. split; [done |]. split; [done |].
    split; [done |]. intros newitem x. rewrite Hmem.
    apply elem_of_insert_move; [subst childpos; lia | done | done].
  - rewrite length_insert. subst childpos. lia.
  - rewrite length_insert. by apply lookup_lt_Some in Hc.
  - by apply Forall_insert.
  - split.
    + intros i s p Hi Hne Hpne Hs Hp.
      destruct (decide (i = pos)) as [-> | Hipos].
      * rewrite list_lookup_insert_eq in Hs by done. injection Hs as <-.
        rewrite list_lookup_insert_ne in Hp by dlia.
        apply (H2 chosen c p); try done; subst childpos; dlia.
      * rewrite list_lookup_insert_ne in Hs by done.
        destruct (decide (((i - 1) / 2)%nat = pos)) as [Hpar | Hpar].
        -- rewrite Hpar, list_lookup_insert_eq in Hp by done.
           injection Hp as <-. by apply (Hother i s).
        -- rewrite list_lookup_insert_ne in Hp by done.
           by apply (H1 i s p).
    + intros i s p Hch Hpar Hi Hs Hp.
      assert (((chosen - 1) / 2)%nat = pos) as Hcp by (subst childpos; dlia).
      rewrite Hcp, list_lookup_insert_eq in Hp by done. injection Hp as <-.
      rewrite list_lookup_insert_ne in Hs by (subst childpos; dlia).
      apply (H1 i s c); try done; [subst childpos; dlia | | by rewrite Hpar].
      rewrite Hpar. subst childpos. dlia.
Qed.

Lemma heap_root_min (heap : list A) (root : A) :
  Forall P heap → heap_ok lt heap → heap !! 0%nat = Some root →
  ∀ i x, heap !! i = Some x → lt x root = false.
Proof.
  intros HP Hok Hroot i. induction i as [i IH] using lt_wf_ind. intros x Hx.
  destruct (decide (i = 0%nat)) as [-> | Hi].
  - rewrite Hroot in Hx. injection Hx as <-.
    destruct (lt root root) eqn:E; [| done].
    assert (P root) by (eapply Forall_lookup_1; eauto).
    by rewrite (lt_asym root root) in E.
  - destruct (heap !! ((i - 1) / 2)%nat) as [p|] eqn:Hp.
    2: { apply lookup_ge_None in Hp. apply lookup_lt_Some in Hx. dlia. }
    apply (le_trans root p x).
    + eapply Forall_lookup_1; eauto.
    + eapply Forall_lookup_1; eauto.
    + eapply Forall_lookup_1; eauto.
    + apply (IH ((i - 1) / 2)%nat); [dlia | done].
    + apply (Hok i x p); [lia | done | done].
Qed.

Lemma siftdown_spec (heap : list A) (pos : nat) (newitem : A) :
  heap !! pos = Some newitem → Forall P heap → hole_ok lt heap pos →
  (length heap ≤ 2 * pos + 1)%nat →
  heap_ok lt (siftdown lt heap 0 pos) ∧
  length (siftdown lt heap 0 pos) = length heap ∧
  (∀ x, x ∈ siftdown lt heap 0 pos ↔ x ∈ heap).
Proof.
  intros Hpos HP Hhole Hleaf. unfold siftdown. rewrite Hpos.
  pose proof (lookup_lt_Some _ _ _ Hpos) as Hlen.
  split; [| split].
  - apply siftdown_loop_ok; try done.
    + eapply Forall_lookup_1; eauto.
    + intros i c Hpar Hi Hc. apply lookup_lt_Some in Hc. dlia.
  - apply siftdown_loop_length.
  - intros x. rewrite siftdown_loop_elem_of by done.
    by rewrite list_insert_id.
Qed.

Lemma siftup_spec (heap : list A) (root : A) :
  heap !! 0%nat = Some root → Forall P heap → hole_ok lt heap 0 →
  heap_ok lt (siftup lt heap 0) ∧
  length (siftup lt heap 0) = length heap ∧
  (∀ x, x ∈ siftup lt heap 0 ↔ x ∈ heap).
Proof.
  intros Hroot HP Hhole. unfold siftup. rewrite Hroot.
  pose proof (lookup_lt_Some _ _ _ Hroot) as Hlen.
  destruct (siftup_loop lt (length heap) heap 0) as [heap' leaf] eqn:Hloop.
  pose proof (siftup_loop_ok _ _ _ _ _ Hloop ltac:(lia) Hlen HP Hhole)
    as (Hlen' & Hleaf & HP' & Hhole' & Hnochild & Hmem).
  assert (P root) as HPr by (by apply (Forall_lookup_1 P heap 0%nat root)).
  destruct (siftdown_spec (<[leaf := root]> heap') leaf root)
    as (Hok & Hl & Hm).
  - by apply list_lookup_insert_eq.
  - by apply Forall_insert.
  - by apply hole_ok_insert.
  - by rewrite length_insert.
  - split; [done |]. split.
    + by rewrite Hl, length_insert.
    + intros x. rewrite Hm, Hmem. by rewrite list_insert_id.
Qed.

Lemma heappush_spec (heap : list A) (item : A) :
  Forall P heap → P item → heap_ok lt heap →
  heap_ok lt (heappush lt heap item) ∧
  Forall P (heappush lt heap item) ∧
  length (heappush lt heap item) = S (length heap) ∧
  (∀ x, x ∈ heappush lt heap item ↔ x = item ∨ x ∈ heap).
Proof.
  intros HP HPi Hok. unfold heappush.
  assert (Forall P (heap ++ [item])) as HP'.
  { apply Forall_app. split; [done |]. by apply Forall_singleton. }
  destruct (siftdown_spec (heap ++ [item]) (length heap) item)
    as (Hok' & Hlen & Hmem).
  - by apply list_lookup_middle.
  - done.
  - split.
    + intros i c p Hi Hne Hpne Hc Hp.
      pose proof (lookup_lt_Some _ _ _ Hc) as Hilt.
      rewrite length_app in Hilt. simpl in Hilt.
      rewrite lookup_app_l in Hc by lia.
      rewrite lookup_app_l in Hp by dlia. by apply (Hok i c p).
    + intros i c p Hpos Hpar Hi Hc Hp.
      apply lookup_lt_Some in Hc. rewrite length_app in Hc. simpl in Hc.
      dlia.
  - rewrite length_app. simpl. lia.
  - split; [done |]. split; [| split].
    + apply Forall_forall. intros x Hx. apply Hmem in Hx.
      by eapply Forall_forall in HP'.
    + rewrite Hlen, length_app. simpl. lia.
    + intros x. rewrite Hmem, elem_of_app, list_elem_of_singleton. tauto.
Qed.

Lemma removelast_last (heap : list A) (lastelt : A) :
  last heap = Some lastelt → heap = removelast heap ++ [lastelt].
Proof.
  induction heap as [|a heap IH]; [done |].
  destruct heap as [|b heap]; [by intros [= ->] |].
  rewrite last_cons_cons. intros Hl. cbn [removelast app].
  f_equal. by apply IH.
Qed.

Lemma heappop_spec (heap : list A) (item : A) (heap' : list A) :
  Forall P heap → heap_ok lt heap → heappop lt heap = Some (item, heap') →
  heap_ok lt heap' ∧ Forall P heap' ∧ P item ∧
  length heap = S (length heap') ∧
  (∀ x, x ∈ heap ↔ x = item ∨ x ∈ heap') ∧
  (∀ x, x ∈ heap' → lt x item = false).
Proof.
  intros HP Hok. unfold heappop.
  destruct (last heap) as [lastelt|] eqn:Hlast; [| done].
  pose proof (removelast_last heap lastelt Hlast) as Hheap.
  destruct (removelast heap) as [|returnitem rest] eqn:Hrem.
  - intros [= <- <-]. rewrite Hheap. simpl.
    split; [intros i c p _ Hc; by destruct i |].
    split; [constructor |]. split.
    + rewrite Hheap in HP. simpl in HP. by apply Forall_cons in HP as [? _].
    + split; [done |]. split; [| intros x Hx; by apply elem_of_nil in Hx].
      intros x. rewrite list_elem_of_singleton, elem_of_nil. tauto.
  - intros [= <- <-].
    assert (Forall P (lastelt :: rest)) as HP'.
    { rewrite Hheap in HP. apply Forall_app in HP as [HP1 HP2].
      apply Forall_cons in HP1 as [_ HP1]. apply Forall_cons in HP2 as [? _].
      by apply Forall_cons. }
    assert (P returnitem) as HPr.
    { rewrite Hheap in HP. apply Forall_app in HP as [HP1 _].
      by apply Forall_cons in HP1 as [? _]. }
    destruct (siftup_spec (lastelt :: rest) lastelt) as (Hok' & Hlen & Hmem).
    + done.
    + done.
    + split.
      * intros i c p Hi Hne Hpne Hc Hp.
        pose proof (lookup_lt_Some _ _ _ Hc) as Hilt. simpl in Hilt.
        apply (Hok i c p); [done | |].
        -- rewrite Hheap. destruct i as [|i]; [lia |].
           simpl in Hc |- *. by apply lookup_app_l_Some.
        -- rewrite Hheap. destruct ((i - 1) / 2)%nat as [|j] eqn:Hj; [done |].
           simpl in Hp |- *. by apply lookup_app_l_Some.
      * intros i c p Hpos. lia.
    + split; [done |]. split; [| split; [done |]]; [| split; [| split]].
      * apply Forall_forall. intros x Hx. apply Hmem in Hx.
        by eapply Forall_forall in HP'.
      * rewrite Hlen, Hheap. simpl. rewrite length_app. simpl. lia.
      * intros x. rewrite Hmem, Hheap. cbn [app].
        rewrite !elem_of_cons, elem_of_app, list_elem_of_singleton. tauto.
      * intros x Hx. apply Hmem in Hx.
        assert (x ∈ heap) as Hin.
        { rewrite Hheap. cbn [app]. apply elem_of_cons in Hx as [-> | Hx].
          - right. apply elem_of_app. right. by apply list_elem_of_singleton.
          - right. apply elem_of_app. by left. }
        apply list_elem_of_lookup in Hin as [i Hi].
        apply (heap_root_min heap returnitem HP Hok) with i; [| done].
        by rewrite Hheap.
Qed.
End heapq_properties.

(** Shape of the heap operations, whatever the comparison. *)
Section heapq_shape.
Context {A : Type} (lt : A → A → bool).

Lemma siftup_loop_shape (steps : nat) :
  ∀ heap pos heap' leaf,
  siftup_loop lt steps heap pos = (heap', leaf) →
  (pos < length heap)%nat →
  length heap' = length heap ∧ (leaf < length heap')%nat ∧
  (∀ newitem x, x ∈ <[leaf := newitem]> heap' ↔ x ∈ <[pos := newitem]> heap).
Proof.
  induction steps as [|steps IH]; intros heap pos heap' leaf;
    cbn [siftup_loop]; [by intros [= <- <-] |].
  case_bool_decide as Hchild; [| by intros [= <- <-]].
  set (chosen := match heap !! (2 * pos + 1)%nat,
                       heap !! (2 * pos + 1 + 1)%nat with
                 | Some l, Some r =>
                     if negb (lt l r) then (2 * pos + 1 + 1)%nat
                     else (2 * pos + 1)%nat
                 | _, _ => (2 * pos + 1)%nat
                 end).
  assert (pos < chosen)%nat as Hchosen.
  { subst chosen. destruct (heap !! (2 * pos + 1)%nat); [| lia].
    destruct (heap !! (2 * pos + 1 + 1)%nat); [| lia].
    destruct (negb _); lia. }
  destruct (heap !! chosen) as [c|] eqn:Hc; [| by intros [= <- <-]].
  intros Hloop Hlen. apply IH in Hloop.
  - destruct Hloop as (Hlen' & Hleaf & Hmem). rewrite length_insert in Hlen'.
    split; [done |]. split; [done |]. intros newitem x. rewrite Hmem.
    apply elem_of_insert_move; [lia | done | done].
  - rewrite length_insert. by apply lookup_lt_Some in Hc.
Qed.

Lemma siftdown_shape (heap : list A) (startpos pos : nat) :
  length (siftdown lt heap startpos pos) = length heap ∧
  ∀ x, x ∈ siftdown lt heap startpos pos ↔ x ∈ heap.
Proof.
  unfold siftdown. destruct (heap !! pos) as [newitem|] eqn:Hpos; [| done].
  split; [apply siftdown_loop_length |].
  intros x. rewrite siftdown_loop_elem_of by (by apply lookup_lt_Some in Hpos).
  by rewrite list_insert_id.
Qed.

Lemma siftup_shape (heap : list A) (pos : nat) :
  length (siftup lt heap pos) = length heap ∧
  ∀ x, x ∈ siftup lt heap pos ↔ x ∈ heap.
Proof.
  unfold siftup. destruct (heap !! pos) as [newitem|] eqn:Hpos; [| done].
  destruct (siftup_loop lt (length heap) heap pos) as [heap' leaf] eqn:Hloop.
  apply siftup_loop_shape in Hloop as (Hlen & Hleaf & Hmem);
    [| by apply lookup_lt_Some in Hpos].
  destruct (siftdown_shape (<[leaf := newitem]> heap') pos leaf) as [Hl Hm].
  split; [by rewrite Hl, length_insert |].
  intros x. rewrite Hm, Hmem. by rewrite list_insert_id.
Qed.

Lemma heappush_shape (heap : list A) (item : A) :
  length (heappush lt heap item) = S (length heap) ∧
  ∀ x, x ∈ heappush lt heap item ↔ x = item ∨ x ∈ heap.
Proof.
  unfold heappush.
  destruct (siftdown_shape (heap ++ [item]) 0 (length heap)) as [Hl Hm].
  split; [rewrite Hl, length_app; simpl; lia |].
  intros x. rewrite Hm, elem_of_app, list_elem_of_singleton. tauto.
Qed.

Lemma heappop_shape (heap : list A) (item : A) (heap' : list A) :
  heappop lt heap = Some (item, heap') →
  length heap = S (length heap') ∧
  ∀ x, x ∈ heap ↔ x = item ∨ x ∈ heap'.
Proof.
  unfold heappop.
  destruct (last heap) as [lastelt|] eqn:Hlast; [| done].
  pose proof (removelast_last heap lastelt Hlast) as Hheap.
  destruct (removelast heap) as [|returnitem rest] eqn:Hrem.
  - intros [= <- <-]. rewrite Hheap. split; [done |].
    intros x. cbn [app]. rewrite list_elem_of_singleton, elem_of_nil. tauto.
  - intros [= <- <-].
    destruct (siftup_shape (lastelt :: rest) 0) as [Hl Hm].
    split.
    + rewrite Hl, Hheap. cbn [app length]. rewrite length_app. simpl. lia.
    + intros x. rewrite Hm, Hheap. cbn [app].
      rewrite !elem_of_cons, elem_of_app, list_elem_of_singleton. tauto.
Qed.
End heapq_shape.

(** ** Search nodes and walks *)

Lemma entry_lt_int_asym (a b : Key * SearchNode) :
  int_keyed a → int_keyed b → entry_lt a b = true → entry_lt b a = false.
Proof.
  destruct a as [ka na], b as [kb nb]. intros [x Hx] [y Hy]. simpl in *.
  subst. unfold entry_lt. simpl.
  destruct (Z.eqb_spec x y) as [-> | Hne].
  - rewrite Z.eqb_refl. lia.
  - destruct (Z.eqb_spec y x) as [-> | _]; [done |]. lia.
Qed.

Lemma entry_lt_int_trans (a b c : Key * SearchNode) :
  int_keyed a → int_keyed b → int_keyed c →
  entry_lt b a = false → entry_lt c b = false → entry_lt c a = false.
Proof.
  destruct a as [ka na], b as [kb nb], c as [kc nc].
  intros [x Hx] [y Hy] [z Hz]. simpl in *. subst. unfold entry_lt. simpl.
  destruct (Z.eqb_spec y x), (Z.eqb_spec z y), (Z.eqb_spec z x); lia.
Qed.

Lemma entry_lt_int_false (x y : Z) (n m : SearchNode) :
  entry_lt (KInt x, n) (KInt y, m) = false → y ≤ x.
Proof.
  unfold entry_lt. simpl. destruct (Z.eqb_spec x y); lia.
Qed.

Lemma cells_cost_app (e : GridEnvironment) (a b : list Position) :
  cells_cost e (a ++ b) = cells_cost e a + cells_cost e b.
Proof.
  unfold cells_cost. induction a as [|[x y] a IH]; simpl; [done |].
  rewrite IH. lia.
Qed.

Lemma path_to_root_length (n : SearchNode) : (1 ≤ length (path_to_root n))%nat.
Proof. destruct n as [c p t [parent|] a d]; simpl; lia. Qed.

Lemma reconstruct_path_child (c : Z) (p : Position) (t : Z)
    (parent : SearchNode) (a : option Direction) (d : gset Z) :
  reconstruct_path (mkSearchNode c p t (Some parent) a d)
  = reconstruct_path parent ++ [p].
Proof. unfold reconstruct_path. simpl. by rewrite reverse_cons. Qed.

Lemma node_ok_reach (e : GridEnvironment) (start : Position) (n : SearchNode) :
  node_ok e start n →
  reach e start (Node.position n) (Node.cost n) ∧
  route_cost e (reconstruct_path n) = Node.cost n ∧
  head (reconstruct_path n) = Some start ∧
  last (reconstruct_path n) = Some (Node.position n).
Proof.
  induction n as [c p t a d | c p t parent a d IH] using SearchNode_chain_ind.
  - intros [-> ->]. simpl. split; [constructor | done].
  - intros (Hparent & Hadj & Hpass & ->).
    destruct (IH Hparent) as (Hreach & Hcost & Hhead & Hlast).
    rewrite reconstruct_path_child. simpl. split; [| split; [| split]].
    + by econstructor.
    + unfold route_cost in *.
      assert (1 ≤ length (reconstruct_path parent))%nat as Hlen.
      { unfold reconstruct_path. rewrite length_reverse.
        apply path_to_root_length. }
      rewrite drop_app_le by done. rewrite cells_cost_app, Hcost.
      unfold cells_cost. destruct p. simpl. lia.
    + rewrite head_app. by rewrite Hhead.
    + by rewrite last_snoc.
Qed.

Lemma get_terrain_cost_positive (e : GridEnvironment) (x y : Z) :
  (∀ x y, 1 ≤ grid e y x) → 1 ≤ get_terrain_cost e x y.
Proof.
  intros Hg. unfold get_terrain_cost.
  destruct (negb (is_within_bounds e x y)); [lia | apply Hg].
Qed.

Lemma reach_cost_nonneg (e : GridEnvironment) (start q : Position) (c : Z) :
  (∀ x y, 1 ≤ grid e y x) → reach e start q c → 0 ≤ c.
Proof.
  intros Hg. induction 1 as [|q q' c _ IH _ _]; [lia |].
  pose proof (get_terrain_cost_positive e q'.1 q'.2 Hg). lia.
Qed.

Lemma static_env_ok (e : GridEnvironment) : dynamic_obstacles e = [] → env_ok e.
Proof.
  intros Hs nm o Hin. rewrite Hs in Hin. by apply elem_of_nil in Hin.
Qed.

Lemma is_obstructed_static (e : GridEnvironment) (x y time : Z) :
  dynamic_obstacles e = [] →
  is_obstructed e x y time
  = Returned (bool_decide ((x, y) ∈ static_obstacles e)).
Proof.
  intros Hs. unfold is_obstructed. rewrite Hs. simpl. by case_bool_decide.
Qed.

(** On a grid without dynamic obstacles the successors of a node are its
    passable neighbours, each entered at its terrain cost. *)
Lemma get_successors_static (e : GridEnvironment) (start : Position)
    (n : SearchNode) :
  dynamic_obstacles e = [] →
  ∃ successors, get_successors e n = Returned successors ∧
    (∀ s, s ∈ successors →
       adjacent (Node.position n) (Node.position s) ∧
       passable e (Node.position s) ∧
       Node.cost s
       = Node.cost n
         + get_terrain_cost e (Node.position s).1 (Node.position s).2 ∧
       (node_ok e start n → node_ok e start s)) ∧
    (∀ q, adjacent (Node.position n) q → passable e q →
          ∃ s, s ∈ successors ∧ Node.position s = q).
Proof.
  intros Hs. unfold get_successors.
  destruct (Node.position n) as [x y] eqn:Hpos.
  destruct (valid_moves_from_spec e [UP; DOWN; LEFT; RIGHT] x y (Node.time n)
              (static_env_ok e Hs)) as (moves & Hmoves & Hspec).
  unfold get_valid_moves. rewrite Hmoves. simpl. eexists. split; [done |].
  assert (∀ nx ny,
    (∃ d, d ∈ [UP; DOWN; LEFT; RIGHT] ∧
          nx = x + (value d).1 ∧ ny = y + (value d).2) ↔
    adjacent (x, y) (nx, ny)) as Hdirs.
  { intros nx ny. unfold adjacent. simpl. rewrite !elem_of_cons. split.
    - intros (d & Hd & -> & ->). rewrite !elem_of_cons in Hd.
      destruct Hd as [-> | [-> | [-> | [-> | Hd]]]]; simpl;
        [| | | | by apply elem_of_nil in Hd].
      + left. f_equal; lia.
      + right; left. f_equal; lia.
      + right; right; left. f_equal; lia.
      + right; right; right; left. f_equal; lia.
    - intros [[= -> ->] | [[= -> ->] | [[= -> ->] | [[= -> ->] | H]]]];
        [| | | | by apply elem_of_nil in H].
      + exists UP. rewrite !elem_of_cons. simpl. split; [tauto | lia].
      + exists DOWN. rewrite !elem_of_cons. simpl. split; [tauto | lia].
      + exists LEFT. rewrite !elem_of_cons. simpl. split; [tauto | lia].
      + exists RIGHT. rewrite !elem_of_cons. simpl. split; [tauto | lia]. }
  split.
  - intros s Hin. apply list_elem_of_fmap in Hin as ([[nx ny] c] & -> & Hin).
    apply Hspec in Hin as (Hd & Hb & Hfree & ->). simpl.
    apply Hdirs in Hd. rewrite is_obstructed_static in Hfree by done.
    injection Hfree as Hfree. apply bool_decide_eq_false in Hfree.
    split; [done |]. split; [done |]. split; [done |].
    intros Hn. rewrite Hpos. done.
  - intros [nx ny] Hadj [Hb Hfree]. simpl in Hb.
    eexists. split.
    + apply list_elem_of_fmap. exists (nx, ny, get_terrain_cost e nx ny).
      split; [done |]. apply Hspec. split; [by apply Hdirs |].
      split; [done |]. split; [| done].
      rewrite is_obstructed_static by done. f_equal.
      by apply bool_decide_eq_false.
    + done.
Qed.

(** ** A* on a static grid with an integer heuristic *)

Section astar_properties.
Variables (e : GridEnvironment) (heuristic : string) (start goal : Position).
Hypothesis Hstatic : dynamic_obstacles e = [].
Hypothesis Hcost : ∀ x y, 1 ≤ grid e y x.
Hypothesis Hint : heuristic ≠ "euclidean"%string.

Abbreviation hz := (heuristic_value heuristic goal).
Abbreviation entry_ok := (astar_entry_ok e heuristic start goal).
Abbreviation inv := (astar_inv e heuristic start goal).

Lemma calculate_heuristic_int (p : Position) :
  calculate_heuristic heuristic p goal = KInt (hz p).
Proof.
  unfold heuristic_value, calculate_heuristic.
  destruct p as [x1 y1], goal as [x2 y2].
  destruct (String.eqb heuristic "manhattan"); [done |].
  destruct (String.eqb_spec heuristic "euclidean"); [done |].
  by destruct (String.eqb heuristic "chebyshev").
Qed.

Lemma heuristic_value_step (q q' : Position) :
  adjacent q q' → hz q ≤ 1 + hz q'.
Proof.
  unfold adjacent, heuristic_value, calculate_heuristic.
  destruct q as [x y], q' as [x' y'], goal as [gx gy]. simpl.
  rewrite !elem_of_cons, elem_of_nil.
  intros Hadj.
  assert (Z.abs (x - x') + Z.abs (y - y') = 1) as Hd.
  { destruct Hadj as [[= -> ->] | [[= -> ->] | [[= -> ->] | [[= -> ->] | []]]]];
      lia. }
  destruct (String.eqb heuristic "manhattan"); [lia |].
  destruct (String.eqb heuristic "euclidean"); [lia |].
  destruct (String.eqb heuristic "chebyshev"); lia.
Qed.

Lemma entry_ok_int_keyed (entry : Key * SearchNode) :
  entry_ok entry → int_keyed entry.
Proof. intros [_ Hk]. by eexists. Qed.

Lemma entry_ok_asym (a b : Key * SearchNode) :
  entry_ok a → entry_ok b → entry_lt a b = true → entry_lt b a = false.
Proof. intros Ha Hb. apply entry_lt_int_asym; by apply entry_ok_int_keyed. Qed.

Lemma entry_ok_trans (a b c : Key * SearchNode) :
  entry_ok a → entry_ok b → entry_ok c →
  entry_lt b a = false → entry_lt c b = false → entry_lt c a = false.
Proof.
  intros Ha Hb Hc. apply entry_lt_int_trans; by apply entry_ok_int_keyed.
Qed.

Lemma node_ok_cost_nonneg (n : SearchNode) : node_ok e start n → 0 ≤ Node.cost n.
Proof.
  intros Hn. apply node_ok_reach in Hn as [Hr _].
  by eapply reach_cost_nonneg.
Qed.

(** Every walk from the start ends in a closed cell or is matched by a
    frontier entry whose priority does not exceed the cost of the walk plus
    the heuristic value of its end. *)
Lemma frontier_bound (frontier : list (Key * SearchNode))
    (g_costs : gmap Position Z) (visited : gset Position) (q : Position)
    (c : Z) :
  inv frontier g_costs visited → reach e start q c →
  q ∈ visited ∨ ∃ k n, (KInt k, n) ∈ frontier ∧ k ≤ c + hz q.
Proof.
  intros Hinv. induction 1 as [|q q' c Hreach IH Hadj Hpass].
  - destruct (decide (start ∈ visited)) as [? | Hopen]; [by left | right].
    destruct (inv_start _ _ _ _ _ _ _ Hinv) as [? | Hg]; [done |].
    destruct (inv_open _ _ _ _ _ _ _ Hinv start 0 Hopen Hg) as (n & Hin & _).
    by exists (0 + hz start), n.
  - destruct (decide (q' ∈ visited)) as [? | Hopen]; [by left | right].
    pose proof (get_terrain_cost_positive e q'.1 q'.2 Hcost) as Hpos.
    destruct IH as [Hclosed | (k & n & Hin & Hk)].
    + destruct (inv_closed _ _ _ _ _ _ _ Hinv q Hclosed) as (X & HX & Hnb).
      destruct (Hnb q' Hadj Hpass Hopen) as (c' & Hg & Hc').
      destruct (inv_open _ _ _ _ _ _ _ Hinv q' c' Hopen Hg) as (n & Hin & _).
      exists (c' + hz q'), n. split; [done |].
      specialize (HX c Hreach). lia.
    + exists k, n. split; [done |].
      pose proof (heuristic_value_step q q' Hadj). lia.
Qed.

(** The loop over the successors of the node that was just closed. *)
Lemma astar_visit_inv (current : SearchNode) (visited : gset Position)
    (successors : list SearchNode) :
  node_ok e start current →
  (∀ s, s ∈ successors →
     node_ok e start s ∧
     Node.cost s
     = Node.cost current
       + get_terrain_cost e (Node.position s).1 (Node.position s).2) →
  ∀ frontier g_costs frontier' g_costs',
  astar_visit e heuristic goal current visited successors frontier g_costs
  = (frontier', g_costs') →
  heap_ok entry_lt frontier → Forall entry_ok frontier →
  (∀ p c, p ∉ visited → g_costs !! p = Some c →
     ∃ n, (KInt (c + hz p), n) ∈ frontier ∧
          Node.position n = p ∧ Node.cost n = c) →
  heap_ok entry_lt frontier' ∧ Forall entry_ok frontier' ∧
  (∀ p c, p ∉ visited → g_costs' !! p = Some c →
     ∃ n, (KInt (c + hz p), n) ∈ frontier' ∧
          Node.position n = p ∧ Node.cost n = c) ∧
  (∀ p c, g_costs !! p = Some c → ∃ c', g_costs' !! p = Some c' ∧ c' ≤ c) ∧
  (∀ s, s ∈ successors → Node.position s ∉ visited →
     ∃ c', g_costs' !! Node.position s = Some c' ∧ c' ≤ Node.cost s) ∧
  (g_costs !! start = Some 0 → g_costs' !! start = Some 0).
Proof.
  intros Hcur. induction successors as [|s rest IH];
    intros Hsucc frontier g_costs frontier' g_costs'; cbn [astar_visit].
  - intros [= <- <-] Hheap Hentries Hopen.
    split; [done |]. split; [done |]. split; [done |].
    split; [intros p c Hg; exists c; split; [done | lia] |].
    split; [| done]. intros s Hin. by apply elem_of_nil in Hin.
  - assert (∀ s', s' ∈ rest →
              node_ok e start s' ∧
              Node.cost s'
              = Node.cost current
                + get_terrain_cost e (Node.position s').1
                    (Node.position s').2) as Hrest.
    { intros s' Hin. apply Hsucc. by right. }
    destruct (Hsucc s) as [Hs Hscost]; [by left |].
    case_bool_decide as Hvis.
    { intros Hvisit Hheap Hentries Hopen.
      destruct (IH Hrest _ _ _ _ Hvisit Hheap Hentries Hopen)
        as (H1 & H2 & H3 & H4 & H5 & H6).
      split; [done |]. split; [done |]. split; [done |]. split; [done |].
      split; [| done]. intros s' Hin Hs'.
      apply elem_of_cons in Hin as [-> | Hin]; [done | by apply H5]. }
    rewrite <- Hscost.
    set (better := match g_costs !! Node.position s with
                   | Some c => Node.cost s <? c
                   | None => true
                   end).
    destruct better eqn:Hbetter.
    + rewrite calculate_heuristic_int. cbn [Key_add].
      intros Hvisit Hheap Hentries Hopen.
      assert (entry_ok (KInt (Node.cost s + hz (Node.position s)), s))
        as Hentry by done.
      destruct (heappush_spec entry_lt entry_ok entry_ok_asym entry_ok_trans
                  frontier _ Hentries Hentry Hheap)
        as (Hheap1 & Hentries1 & _ & Hmem1).
      destruct (IH Hrest _ _ _ _ Hvisit Hheap1 Hentries1)
        as (H1 & H2 & H3 & H4 & H5 & H6).
      { intros p c Hp Hg.
        destruct (decide (p = Node.position s)) as [-> | Hne].
        - rewrite lookup_insert_eq in Hg. injection Hg as <-.
          exists s. split; [| done]. apply Hmem1. by left.
        - rewrite lookup_insert_ne in Hg by done.
          destruct (Hopen p c Hp Hg) as (n & Hin & Hn).
          exists n. split; [| done]. apply Hmem1. by right. }
      split; [done |]. split; [done |]. split; [done |]. split; [| split].
      * intros p c Hg.
        destruct (decide (p = Node.position s)) as [-> | Hne].
        -- destruct (H4 (Node.position s) (Node.cost s)) as (c' & Hg' & Hc');
             [by rewrite lookup_insert_eq |].
           exists c'. split; [done |].
           subst better. rewrite Hg in Hbetter. lia.
        -- apply H4. by rewrite lookup_insert_ne.
      * intros s' Hin Hs'. apply elem_of_cons in Hin as [-> | Hin];
          [| by apply H5].
        apply H4. by rewrite lookup_insert_eq.
      * intros Hg. apply H6.
        destruct (decide (start = Node.position s)) as [Heq | Hne];
          [| by rewrite lookup_insert_ne].
        subst better. rewrite <- Heq, Hg in Hbetter.
        pose proof (node_ok_cost_nonneg s Hs). lia.
    + intros Hvisit Hheap Hentries Hopen.
      destruct (IH Hrest _ _ _ _ Hvisit Hheap Hentries Hopen)
        as (H1 & H2 & H3 & H4 & H5 & H6).
      split; [done |]. split; [done |]. split; [done |]. split; [done |].
      split; [| done]. intros s' Hin Hs'.
      apply elem_of_cons in Hin as [-> | Hin]; [| by apply H5].
      subst better. destruct (g_costs !! Node.position s) as [c|] eqn:Hg;
        [| done].
      destruct (H4 _ _ Hg) as (c' & Hg' & Hc'). exists c'.
      split; [done |]. lia.
Qed.

Lemma astar_loop_optimal (fuel : nat) :
  ∀ frontier g_costs visited path,
  inv frontier g_costs visited →
  astar_loop fuel e heuristic goal frontier g_costs visited
  = Returned (Some path) →
  ∃ n, path = reconstruct_path n ∧ node_ok e start n ∧
       Node.position n = goal ∧
       ∀ c, reach e start goal c → Node.cost n ≤ c.
Proof.
  induction fuel as [|fuel IH]; intros frontier g_costs visited path Hinv;
    cbn [astar_loop]; [done |].
  destruct (heappop entry_lt frontier) as [[[current_f current] frontier']|]
    eqn:Hpop; [| done].
  destruct (heappop_spec entry_lt entry_ok entry_ok_asym entry_ok_trans
              frontier _ _ (inv_entries _ _ _ _ _ _ _ Hinv)
              (inv_heap _ _ _ _ _ _ _ Hinv) Hpop)
    as (Hheap' & Hentries' & [Hcur Hkey] & _ & Hmem & Hmin).
  simpl in Hcur, Hkey. subst current_f.
  case_bool_decide as Hvis.
  { apply IH. constructor; try done.
    - intros p c Hp Hg.
      destruct (inv_open _ _ _ _ _ _ _ Hinv p c Hp Hg) as (n & Hin & Hn & Hc).
      exists n. split; [| done].
      apply Hmem in Hin as [[= _ ->] | Hin]; [congruence | done].
    - apply (inv_closed _ _ _ _ _ _ _ Hinv).
    - apply (inv_start _ _ _ _ _ _ _ Hinv). }
  assert (∀ c, reach e start (Node.position current) c → Node.cost current ≤ c)
    as Hopt.
  { intros c Hreach.
    destruct (frontier_bound _ _ _ _ _ Hinv Hreach)
      as [? | (k & n & Hin & Hk)]; [done |].
    apply Hmem in Hin as [[= -> ->] | Hin]; [lia |].
    apply Hmin, entry_lt_int_false in Hin. lia. }
  destruct (Position_eqb (Node.position current) goal) eqn:Hgoal.
  { apply Position_eqb_eq in Hgoal. intros [= <-].
    exists current. by rewrite <- Hgoal. }
  destruct (get_successors_static e start current Hstatic)
    as (successors & -> & Hsucc & Hcover). cbn [obind].
  destruct (astar_visit e heuristic goal current
              ({[Node.position current]} ∪ visited) successors frontier'
              g_costs) as [frontier'' g_costs''] eqn:Hvisit.
  assert (∀ s, s ∈ successors →
            node_ok e start s ∧
            Node.cost s
            = Node.cost current
              + get_terrain_cost e (Node.position s).1 (Node.position s).2)
    as Hsuccok.
  { intros s Hin. destruct (Hsucc s Hin) as (_ & _ & Hc & Hok). auto. }
  assert (∀ p c, p ∉ {[Node.position current]} ∪ visited →
            g_costs !! p = Some c →
            ∃ n, (KInt (c + hz p), n) ∈ frontier' ∧
                 Node.position n = p ∧ Node.cost n = c) as Hopen'.
  { intros p c Hp Hg.
    destruct (inv_open _ _ _ _ _ _ _ Hinv p c) as (n & Hin & Hn & Hc);
      [set_solver | done |].
    exists n. split; [| done].
    apply Hmem in Hin as [[= _ ->] | Hin]; [set_solver | done]. }
  pose proof (astar_visit_inv current _ successors Hcur Hsuccok _ _ _ _
                Hvisit Hheap' Hentries' Hopen')
    as (H1 & H2 & H3 & H4 & H5 & H6).
  apply IH. constructor; try done.
  - intros q Hq. apply elem_of_union in Hq as [Hq | Hq].
    + apply elem_of_singleton in Hq as ->.
      exists (Node.cost current). split; [done |].
      intros q' Hadj Hpass Hq'.
      destruct (Hcover q' Hadj Hpass) as (s & Hin & <-).
      destruct (H5 s Hin Hq') as (c' & Hg & Hc'). exists c'.
      split; [done |]. destruct (Hsucc s Hin) as (_ & _ & -> & _) in Hc'. lia.
    + destruct (inv_closed _ _ _ _ _ _ _ Hinv q Hq) as (X & HX & Hnb).
      exists X. split; [done |]. intros q' Hadj Hpass Hq'.
      destruct (Hnb q' Hadj Hpass) as (c' & Hg & Hc'); [set_solver |].
      destruct (H4 _ _ Hg) as (c'' & Hg' & Hc''). exists c''.
      split; [done | lia].
  - destruct (inv_start _ _ _ _ _ _ _ Hinv) as [? | Hg];
      [left; set_solver | right; by apply H6].
Qed.

(** A* returns a path of least cost. *)
Lemma astar_search_optimal (fuel : nat) (path : list Position) :
  AStarSearch_search fuel e heuristic start goal = Returned (Some path) →
  reach e start goal (route_cost e path) ∧
  head path = Some start ∧ last path = Some goal ∧
  ∀ c, reach e start goal c → route_cost e path ≤ c.
Proof.
  unfold AStarSearch_search. intros Hloop.
  apply astar_loop_optimal in Hloop.
  - destruct Hloop as (n & -> & Hn & Hpos & Hopt).
    destruct (node_ok_reach e start n Hn) as (Hreach & -> & Hhead & Hlast).
    rewrite Hpos in *. done.
  - rewrite calculate_heuristic_int.
    assert (entry_ok (KInt (hz start), SearchNode_start start)) as Hentry.
    { by split. }
    destruct (heappush_spec entry_lt entry_ok entry_ok_asym entry_ok_trans
                [] (KInt (hz start), SearchNode_start start))
      as (Hheap & Hentries & _ & Hmem); [constructor | done | |].
    { intros i c p _ Hc. by destruct i. }
    constructor; try done.
    + intros p c _ Hg. apply lookup_singleton_Some in Hg as [<- <-].
      exists (SearchNode_start start). split; [| done].
      apply Hmem. by left.
    + right. by rewrite lookup_singleton_eq.
Qed.
End astar_properties.

(** ** Uniform-cost search on a static grid *)

Section ucs_properties.
Variables (e : GridEnvironment) (start goal : Position).
Hypothesis Hstatic : dynamic_obstacles e = [].

Abbreviation uentry_ok := (ucs_entry_ok e start).





End ucs_properties.

(** ** Termination of breadth-first search and of A* *)

Lemma valid_moves_from_length (e : GridEnvironment) (dirs : list Direction)
    (x y time : Z) (moves : list (Z * Z * Z)) :
  valid_moves_from e dirs x y time = Returned moves →
  (length moves ≤ length dirs)%nat.
Proof.
  revert moves. induction dirs as [|d dirs IH]; intros moves; simpl.
  - by intros [= <-].
  - destruct (is_within_bounds e _ _).
    + destruct (is_obstructed e _ _ time) as [blocked| |]; simpl; try done.
      destruct (valid_moves_from e dirs x y time) as [ms| |]; simpl; try done.
      intros [= <-]. specialize (IH ms eq_refl).
      destruct blocked; simpl; lia.
    + intros H. specialize (IH moves H). lia.
Qed.

Section search_termination.
Variable e : GridEnvironment.
Hypothesis Hok : env_ok e.

Lemma get_successors_returns (n : SearchNode) :
  ∃ successors, get_successors e n = Returned successors ∧
    (length successors ≤ 4)%nat ∧
    ∀ s, s ∈ successors → Node.position s ∈ grid_cells e.
Proof.
  unfold get_successors. destruct (Node.position n) as [x y].
  destruct (valid_moves_from_spec e [UP; DOWN; LEFT; RIGHT] x y (Node.time n)
              Hok) as (moves & Hmoves & Hspec).
  unfold get_valid_moves. rewrite Hmoves. cbn [obind].
  eexists. split; [done |]. split.
  - rewrite length_map. by apply valid_moves_from_length in Hmoves.
  - intros s Hin. apply list_elem_of_fmap in Hin as ([[nx ny] c] & -> & Hin).
    apply Hspec in Hin as (_ & Hb & _). simpl. by apply elem_of_grid_cells.
Qed.

Lemma bfs_visit_measure (successors : list SearchNode) :
  (∀ s, s ∈ successors → Node.position s ∈ grid_cells e) →
  ∀ queue visited queue' visited',
  bfs_visit successors queue visited = (queue', visited') →
  (size (grid_cells e ∖ visited') + length queue'
   ≤ size (grid_cells e ∖ visited) + length queue)%nat.
Proof.
  induction successors as [|s rest IH]; intros Hcells queue visited queue'
    visited'; cbn [bfs_visit].
  - intros [= <- <-]. lia.
  - assert (∀ s', s' ∈ rest → Node.position s' ∈ grid_cells e) as Hrest.
    { intros s' Hin. apply Hcells. by right. }
    case_bool_decide as Hvis; [by apply IH |].
    intros Hvisit. apply (IH Hrest) in Hvisit.
    rewrite length_app in Hvisit. simpl in Hvisit.
    pose proof (size_unvisited_insert (grid_cells e) visited
                  (Node.position s)) as Hlt.
    specialize (Hlt (Hcells s ltac:(by left)) Hvis).
    etrans; [exact Hvisit |].
    match goal with
    | |- (?b + _ ≤ _)%nat =>
        change (b < size (grid_cells e ∖ visited))%nat in Hlt
    end.
    lia.
Qed.

Lemma bfs_loop_returns (goal : Position) (fuel : nat) :
  ∀ queue visited,
  (size (grid_cells e ∖ visited) + length queue < fuel)%nat →
  ∃ r, bfs_loop fuel e goal queue visited = Returned r.
Proof.
  induction fuel as [|fuel IH]; intros queue visited Hfuel; [lia |].
  cbn [bfs_loop]. destruct queue as [|current queue]; [by eexists |].
  destruct (Position_eqb (Node.position current) goal); [by eexists |].
  destruct (get_successors_returns current) as (successors & -> & _ & Hcells).
  cbn [obind].
  destruct (bfs_visit successors queue visited) as [queue' visited'] eqn:Hv.
  apply bfs_visit_measure in Hv; [| done].
  apply IH. simpl in Hfuel. lia.
Qed.

Lemma BFS_search_returns (fuel : nat) (start goal : Position) :
  (search_fuel e ≤ fuel)%nat →
  ∃ r, BFS_search fuel e start goal = Returned r.
Proof.
  intros Hfuel. unfold BFS_search. apply bfs_loop_returns.
  unfold search_fuel in Hfuel. simpl.
  assert (size (grid_cells e ∖ {[start]}) ≤ size (grid_cells e))%nat
    by (apply subseteq_size; set_solver).
  lia.
Qed.

Lemma astar_visit_measure (heuristic : string) (goal : Position)
    (current : SearchNode) (visited : gset Position) (cells : gset Position)
    (successors : list SearchNode) :
  (∀ s, s ∈ successors → Node.position s ∈ cells) →
  ∀ frontier g_costs frontier' g_costs',
  astar_visit e heuristic goal current visited successors frontier g_costs
  = (frontier', g_costs') →
  (∀ entry, entry ∈ frontier → Node.position entry.2 ∈ cells) →
  (length frontier' ≤ length frontier + length successors)%nat ∧
  (∀ entry, entry ∈ frontier' → Node.position entry.2 ∈ cells).
Proof.
  induction successors as [|s rest IH]; intros Hcells frontier g_costs
    frontier' g_costs'; cbn [astar_visit].
  - intros [= <- <-] Hin. split; [simpl; lia | done].
  - assert (∀ s', s' ∈ rest → Node.position s' ∈ cells) as Hrest.
    { intros s' Hin. apply Hcells. by right. }
    case_bool_decide as Hvis.
    { intros Hv Hin. destruct (IH Hrest _ _ _ _ Hv Hin) as [Hl Hm].
      split; [simpl; lia | done]. }
    destruct (match g_costs !! Node.position s with
              | Some c => _ <? c
              | None => true
              end).
    + intros Hv Hin.
      match type of Hv with
      | astar_visit _ _ _ _ _ _ (heappush _ _ ?item) _ = _ =>
          destruct (heappush_shape entry_lt frontier item) as [Hlen Hmem]
      end.
      apply (IH Hrest) in Hv.
      * destruct Hv as [Hl Hm]. split; [simpl; lia | done].
      * intros entry Hentry. apply Hmem in Hentry as [-> | Hentry].
        -- simpl. apply Hcells. by left.
        -- by apply Hin.
    + intros Hv Hin. destruct (IH Hrest _ _ _ _ Hv Hin) as [Hl Hm].
      split; [simpl; lia | done].
Qed.

Lemma astar_loop_returns (heuristic : string) (goal : Position)
    (cells : gset Position) (fuel : nat) :
  grid_cells e ⊆ cells →
  ∀ frontier g_costs visited,
  (∀ entry, entry ∈ frontier → Node.position entry.2 ∈ cells) →
  (length frontier + 5 * size (cells ∖ visited) < fuel)%nat →
  ∃ r, astar_loop fuel e heuristic goal frontier g_costs visited = Returned r.
Proof.
  intros Hcells. induction fuel as [|fuel IH];
    intros frontier g_costs visited Hin Hfuel; [lia |].
  cbn [astar_loop].
  destruct (heappop entry_lt frontier) as [[[current_f current] frontier']|]
    eqn:Hpop; [| by eexists].
  apply heappop_shape in Hpop as [Hlen Hmem].
  assert (∀ entry, entry ∈ frontier' → Node.position entry.2 ∈ cells) as Hin'.
  { intros entry Hentry. apply Hin, Hmem. by right. }
  case_bool_decide as Hvis; [apply IH; [done | lia] |].
  destruct (Position_eqb (Node.position current) goal); [by eexists |].
  destruct (get_successors_returns current)
    as (successors & -> & Hfour & Hsucc). cbn [obind].
  destruct (astar_visit e heuristic goal current
              ({[Node.position current]} ∪ visited) successors frontier'
              g_costs) as [frontier'' g_costs''] eqn:Hv.
  apply (astar_visit_measure heuristic goal current _ cells) in Hv
    as [Hl Hm]; [| set_solver | done].
  apply IH; [done |].
  assert (Node.position current ∈ cells) as Hcur.
  { apply (Hin (current_f, current)), Hmem. by left. }
  pose proof (size_unvisited_insert cells visited (Node.position current)
                Hcur Hvis) as Hlt.
  match goal with
  | |- (_ + 5 * ?b < _)%nat => change (b < size (cells ∖ visited))%nat in Hlt
  end.
  lia.
Qed.

Lemma AStarSearch_search_returns (fuel : nat) (heuristic : string)
    (start goal : Position) :
  (search_fuel e ≤ fuel)%nat →
  ∃ r, AStarSearch_search fuel e heuristic start goal = Returned r.
Proof.
  intros Hfuel. unfold AStarSearch_search.
  match goal with
  | |- context [heappush entry_lt [] ?item] =>
      destruct (heappush_shape entry_lt [] item) as [Hlen Hmem]
  end.
  apply (astar_loop_returns heuristic goal ({[start]} ∪ grid_cells e));
    [set_solver | |].
  - intros entry Hentry. apply Hmem in Hentry as [-> | Hentry].
    + simpl. set_solver.
    + by apply elem_of_nil in Hentry.
  - rewrite Hlen. unfold search_fuel in Hfuel. simpl length.
    assert (size (({[start]} ∪ grid_cells e) ∖ ∅) ≤ S (size (grid_cells e)))%nat.
    { rewrite difference_empty_L, size_union_alt, size_singleton.
      assert (size (grid_cells e ∖ {[start]}) ≤ size (grid_cells e))%nat
        by (apply subseteq_size; set_solver).
      lia. }
    lia.
Qed.
End search_termination.


(** ** Termination of uniform-cost search *)

Lemma sum_list_with_lower {B : Type} `{EqDecision B} (f f' : B → nat)
    (l : list B) (p : B) :
  NoDup l → p ∈ l → (f' p < f p)%nat → (∀ q, q ≠ p → f' q = f q) →
  (sum_list_with f' l < sum_list_with f l)%nat.
Proof.
  intros Hnd Hin Hp Hother. induction Hnd as [|x l Hx Hnd IH]; simpl.
  - by apply elem_of_nil in Hin.
  - destruct (decide (x = p)) as [-> | Hne].
    + assert (sum_list_with f' l = sum_list_with f l) as ->; [| lia].
      clear IH Hin. induction l as [|y l IHl]; simpl; [done |].
      rewrite Hother by (intros ->; apply Hx; by left).
      rewrite IHl; [done | | by inversion Hnd].
      intros Hin. apply Hx. by right.
    + rewrite (Hother x Hne). apply elem_of_cons in Hin as [-> | Hin]; [done |].
      specialize (IH Hin). lia.
Qed.

Lemma sum_list_with_bound {B : Type} (f : B → nat) (l : list B) (m : nat) :
  (∀ x, x ∈ l → f x ≤ m)%nat → (sum_list_with f l ≤ length l * m)%nat.
Proof.
  induction l as [|x l IH]; intros Hf; simpl; [lia |].
  pose proof (Hf x ltac:(by left)).
  assert (sum_list_with f l ≤ length l * m)%nat
    by (apply IH; intros y Hy; apply Hf; by right).
  lia.
Qed.

Section ucs_termination.
Variables (e : GridEnvironment) (start : Position) (cmax : Z).
Hypothesis Hok : env_ok e.
Hypothesis Hcost : ∀ x y, 0 ≤ grid e y x.
Hypothesis Hcmax0 : 0 ≤ cmax.
Hypothesis Hcmax : ∀ x y, is_within_bounds e x y = true → grid e y x ≤ cmax.

Abbreviation chain_ok := (ucs_chain_ok e start cmax).
Abbreviation cells := (ucs_cells e start).
Abbreviation bound := (ucs_cost_bound e cmax).
Abbreviation weight := (ucs_weight e cmax).

Abbreviation state_ok := (ucs_state_ok e start cmax).
Abbreviation measure := (ucs_measure e start cmax).

Lemma chain_ok_facts (visited_costs : gmap Position Z) (n : SearchNode) :
  chain_ok visited_costs n →
  NoDup (path_to_root n) ∧
  (∀ q, q ∈ path_to_root n → q ∈ cells) ∧
  (∀ q, q ∈ path_to_root n →
        ∃ c, visited_costs !! q = Some c ∧ c ≤ Node.cost n) ∧
  0 ≤ Node.cost n ∧
  Node.cost n ≤ (Z.of_nat (length (path_to_root n)) - 1) * cmax.
Proof.
  induction n as [c p t a d | c p t parent a d IH] using SearchNode_chain_ind.
  - intros (-> & -> & Hvc). simpl.
    split; [apply NoDup_singleton |]. split; [| split; [| lia]].
    + intros q Hq. apply list_elem_of_singleton in Hq as ->.
      unfold ucs_cells. set_solver.
    + intros q Hq. by apply list_elem_of_singleton in Hq as ->.
  - intros (Hparent & Hcell & Hc & Hvc & Hfresh).
    destruct (IH Hparent) as (Hnd & Hin & Hanc & Hpos & Hle).
    cbn [path_to_root Node.cost length].
    split; [by constructor |]. split; [| split; [| split]].
    + intros q Hq. apply elem_of_cons in Hq as [-> | Hq]; [| by apply Hin].
      unfold ucs_cells. set_solver.
    + intros q Hq. apply elem_of_cons in Hq as [-> | Hq]; [done |].
      destruct (Hanc q Hq) as (c' & Hq' & Hc'). exists c'. split; [done | lia].
    + lia.
    + pose proof (path_to_root_length parent). nia.
Qed.

Lemma chain_ok_cost_bound (visited_costs : gmap Position Z) (n : SearchNode) :
  chain_ok visited_costs n → 0 ≤ Node.cost n ≤ bound.
Proof.
  intros Hn. destruct (chain_ok_facts _ _ Hn) as (Hnd & Hin & _ & Hpos & Hle).
  split; [done |].
  assert (length (path_to_root n) ≤ size cells)%nat as Hlen.
  { unfold size, set_size. simpl. apply submseteq_length, NoDup_submseteq;
      [done |]. intros q Hq. apply elem_of_elements. by apply Hin. }
  assert (size cells ≤ S (size (grid_cells e)))%nat as Hsize.
  { unfold ucs_cells. rewrite size_union_alt, size_singleton.
    assert (size (grid_cells e ∖ {[start]}) ≤ size (grid_cells e))%nat
      by (apply subseteq_size; set_solver).
    lia. }
  unfold ucs_cost_bound.
  pose proof (path_to_root_length n). nia.
Qed.

Lemma chain_ok_mono (vc vc' : gmap Position Z) (n : SearchNode) :
  (∀ p c, vc !! p = Some c → ∃ c', vc' !! p = Some c' ∧ c' ≤ c) →
  chain_ok vc n → chain_ok vc' n.
Proof.
  intros Hle.
  induction n as [c p t a d | c p t parent a d IH] using SearchNode_chain_ind.
  - intros (-> & -> & c' & Hvc & Hc').
    destruct (Hle _ _ Hvc) as (c'' & Hvc' & Hc'').
    split; [done |]. split; [done |]. exists c''. split; [done | lia].
  - intros (Hparent & Hcell & Hc & (c' & Hvc & Hc') & Hfresh).
    destruct (Hle _ _ Hvc) as (c'' & Hvc' & Hc'').
    split; [by apply IH |]. split; [done |]. split; [done |].
    split; [| done]. exists c''. split; [done | lia].
Qed.

Lemma ucs_successors (n : SearchNode) :
  ∃ successors, get_successors e n = Returned successors ∧
    ∀ s, s ∈ successors →
      ∃ c p t a d, s = mkSearchNode c p t (Some n) a d ∧
                   p ∈ grid_cells e ∧
                   Node.cost n ≤ c ≤ Node.cost n + cmax.
Proof.
  unfold get_successors. destruct (Node.position n) as [x y].
  destruct (valid_moves_from_spec e [UP; DOWN; LEFT; RIGHT] x y (Node.time n)
              Hok) as (moves & Hmoves & Hspec).
  unfold get_valid_moves. rewrite Hmoves. cbn [obind].
  eexists. split; [done |].
  intros s Hin. apply list_elem_of_fmap in Hin as ([[nx ny] c] & -> & Hin).
  apply Hspec in Hin as (_ & Hb & _ & ->).
  eexists _, _, _, _, _. split; [done |].
  split; [by apply elem_of_grid_cells |].
  unfold get_terrain_cost. rewrite Hb. simpl.
  specialize (Hcost nx ny). specialize (Hcmax nx ny Hb). lia.
Qed.

Lemma ucs_visit_measure (current : SearchNode)
    (successors : list SearchNode) :
  (∀ s, s ∈ successors →
     ∃ c p t a d, s = mkSearchNode c p t (Some current) a d ∧
                  p ∈ grid_cells e ∧
                  Node.cost current ≤ c ≤ Node.cost current + cmax) →
  ∀ frontier visited_costs frontier' visited_costs',
  ucs_visit successors frontier visited_costs = (frontier', visited_costs') →
  chain_ok visited_costs current →
  state_ok frontier visited_costs →
  state_ok frontier' visited_costs' ∧
  (measure frontier' visited_costs'
   ≤ measure frontier visited_costs)%nat.
Proof.
  induction successors as [|s rest IH]; intros Hsucc frontier visited_costs
    frontier' visited_costs'; cbn [ucs_visit].
  - intros [= <- <-] _ Hstate. split; [done | lia].
  - assert (∀ s', s' ∈ rest →
              ∃ c p t a d, s' = mkSearchNode c p t (Some current) a d ∧
                           p ∈ grid_cells e ∧
                           Node.cost current ≤ c ≤ Node.cost current + cmax)
      as Hrest.
    { intros s' Hin. apply Hsucc. by right. }
    destruct (Hsucc s) as (c & p & t & a & d & -> & Hcell & Hc); [by left |].
    cbn [Node.position Node.cost].
    destruct (match visited_costs !! p with
              | Some c0 => c <? c0
              | None => true
              end) eqn:Hbetter; [| by apply IH].
    intros Hvisit Hcur [Hentries Hrange].
    set (vc' := <[p := c]> visited_costs) in *.
    assert (∀ q cq, visited_costs !! q = Some cq →
                    ∃ cq', vc' !! q = Some cq' ∧ cq' ≤ cq) as Hmono.
    { intros q cq Hq. subst vc'.
      destruct (decide (q = p)) as [-> | Hne].
      - rewrite lookup_insert_eq. exists c. split; [done |].
        rewrite Hq in Hbetter. lia.
      - rewrite lookup_insert_ne by done. exists cq. split; [done | lia]. }
    assert (chain_ok vc' (mkSearchNode c p t (Some current) a d)) as Hs.
    { split; [by eapply chain_ok_mono |]. split; [done |]. split; [done |].
      split; [exists c; subst vc'; by rewrite lookup_insert_eq |].
      intros Hin.
      destruct (chain_ok_facts _ _ Hcur) as (_ & _ & Hanc & _).
      destruct (Hanc p Hin) as (c0 & Hp & Hc0).
      rewrite Hp in Hbetter. lia. }
    pose proof (chain_ok_cost_bound _ _ Hs) as Hbound.
    cbn [Node.cost] in Hbound.
    match type of Hvisit with
    | ucs_visit _ (heappush _ _ ?item) _ = _ =>
        destruct (heappush_shape entry_lt frontier item) as [Hlen Hmem]
    end.
    apply IH in Hvisit; [| done | by eapply chain_ok_mono |].
    + destruct Hvisit as [Hstate' Hmeasure]. split; [done |].
      etrans; [exact Hmeasure |]. unfold ucs_measure. rewrite Hlen.
      assert (sum_list_with (weight vc') (elements cells)
              < sum_list_with (weight visited_costs) (elements cells))%nat;
        [| lia].
      apply (sum_list_with_lower _ _ _ p).
      * apply NoDup_elements.
      * apply elem_of_elements. unfold ucs_cells. set_solver.
      * unfold ucs_weight. subst vc'. rewrite lookup_insert_eq.
        destruct (visited_costs !! p) as [c0|]; lia.
      * intros q Hne. unfold ucs_weight. subst vc'.
        by rewrite lookup_insert_ne.
    + split.
      * apply Forall_forall. intros entry Hentry.
        apply Hmem in Hentry as [-> | Hentry]; [done |].
        eapply chain_ok_mono; [exact Hmono |].
        rewrite Forall_forall in Hentries. by apply Hentries.
      * intros q cq Hq. subst vc'.
        destruct (decide (q = p)) as [-> | Hne].
        -- rewrite lookup_insert_eq in Hq. injection Hq as <-.
           split; [unfold ucs_cells; set_solver | done].
        -- rewrite lookup_insert_ne in Hq by done. by apply Hrange.
Qed.

Lemma ucs_loop_returns (goal : Position) (fuel : nat) :
  ∀ frontier visited_costs,
  state_ok frontier visited_costs →
  (measure frontier visited_costs < fuel)%nat →
  ∃ r, ucs_loop fuel e goal frontier visited_costs = Returned r.
Proof.
  induction fuel as [|fuel IH]; intros frontier visited_costs Hstate Hfuel;
    [lia |].
  cbn [ucs_loop].
  destruct (heappop entry_lt frontier) as [[[current_cost current] frontier']|]
    eqn:Hpop; [| by eexists].
  apply heappop_shape in Hpop as [Hlen Hmem].
  destruct Hstate as [Hentries Hrange].
  rewrite Forall_forall in Hentries.
  assert (chain_ok visited_costs current) as Hcur.
  { apply (Hentries (current_cost, current)), Hmem. by left. }
  assert (state_ok frontier' visited_costs) as Hstate'.
  { split; [| done]. apply Forall_forall. intros entry Hentry.
    apply Hentries, Hmem. by right. }
  assert (measure frontier' visited_costs < fuel)%nat as Hfuel'.
  { unfold ucs_measure in *. lia. }
  destruct (match visited_costs !! Node.position current with
            | Some c => Key_ltb (KInt c) current_cost
            | None => false
            end); [by apply IH |].
  destruct (Position_eqb (Node.position current) goal); [by eexists |].
  destruct (ucs_successors current) as (successors & -> & Hsucc).
  cbn [obind].
  destruct (ucs_visit successors frontier' visited_costs)
    as [frontier'' visited_costs''] eqn:Hvisit.
  destruct (ucs_visit_measure current successors Hsucc _ _ _ _ Hvisit Hcur
              Hstate') as [Hstate'' Hmeasure].
  apply IH; [done | lia].
Qed.

Lemma UniformCostSearch_search_returns (fuel : nat) (goal : Position) :
  (ucs_fuel e cmax ≤ fuel)%nat →
  ∃ r, UniformCostSearch_search fuel e start goal = Returned r.
Proof.
  intros Hfuel. unfold UniformCostSearch_search.
  match goal with
  | |- context [heappush entry_lt [] ?item] =>
      destruct (heappush_shape entry_lt [] item) as [Hlen Hmem]
  end.
  assert (0 ≤ bound) as Hbound by (unfold ucs_cost_bound; nia).
  apply ucs_loop_returns.
  - split.
    + apply Forall_forall. intros entry Hentry.
      apply Hmem in Hentry as [-> | Hentry]; [| by apply elem_of_nil in Hentry].
      simpl. split; [done |]. split; [done |]. exists 0.
      by rewrite lookup_singleton_eq.
    + intros p c Hp. apply lookup_singleton_Some in Hp as [<- <-].
      split; [unfold ucs_cells; set_solver | lia].
  - unfold ucs_measure. rewrite Hlen. simpl length.
    assert (sum_list_with (weight {[start := 0%Z]}) (elements cells)
            ≤ length (elements cells) * S (Z.to_nat bound))%nat as Hsum.
    { apply sum_list_with_bound. intros q _. unfold ucs_weight.
      destruct (decide (q = start)) as [-> | Hne].
      - rewrite lookup_singleton_eq. lia.
      - rewrite lookup_singleton_ne by done. lia. }
    assert (length (elements cells) ≤ S (size (grid_cells e)))%nat as Hsize.
    { change (size cells ≤ S (size (grid_cells e)))%nat.
      unfold ucs_cells. rewrite size_union_alt, size_singleton.
      assert (size (grid_cells e ∖ {[start]}) ≤ size (grid_cells e))%nat
        by (apply subseteq_size; set_solver).
      lia. }
    unfold ucs_fuel in Hfuel. nia.
Qed.
End ucs_termination.
(** ** Route planning *)

(** Without packages the planned route is empty, so it has no first
    element. *)
Lemma plan_delivery_route_no_packages :
  ¬ (∀ fuel e a algorithm heuristic route,
       plan_delivery_route fuel e a algorithm heuristic = Returned route →
       head route = Some (agent_position a)).
Proof.
  intros H.
  specialize (H 100%nat road_env (DeliveryAgent_init road_env 1000)
                "astar"%string "manhattan"%string [] eq_refl).
  discriminate H.
Qed.

Lemma packages_lookup_keys (pkgs : list (Z * Position)) (k : Z) :
  k ∈ pkgs.*1 → is_Some (packages_lookup pkgs k).
Proof.
  induction pkgs as [|[k' v] pkgs IH]; simpl.
  - intros Hin. by apply elem_of_nil in Hin.
  - intros Hin. destruct (Z.eqb_spec k' k) as [-> | Hne]; [by eexists |].
    apply IH. apply elem_of_cons in Hin as [-> | Hin]; done.
Qed.

Lemma dict_keys_keys (pkgs : list (Z * Position)) :
  ∀ seen k, k ∈ dict_keys pkgs seen → k ∈ pkgs.*1.
Proof.
  induction pkgs as [|[k' v] pkgs IH]; intros seen k; simpl.
  - done.
  - case_bool_decide.
    + intros Hin. right. by eapply IH.
    + intros Hin. apply elem_of_cons in Hin as [-> | Hin]; [by left |].
      right. by eapply IH.
Qed.

Lemma length_filter_remove (remaining : list Z) (k : Z) :
  k ∈ remaining →
  (length (filter (fun k' => k' ≠ k) remaining) < length remaining)%nat.
Proof.
  induction remaining as [|k' remaining IH]; intros Hin.
  - by apply elem_of_nil in Hin.
  - rewrite filter_cons. destruct (decide (k' ≠ k)) as [Hne | Heq].
    + simpl. apply elem_of_cons in Hin as [-> | Hin]; [done |].
      specialize (IH Hin). lia.
    + pose proof (length_filter (fun k' => k' ≠ k) remaining). simpl. lia.
Qed.

Section planning_termination.
Variables (e : GridEnvironment) (fuel : nat) (algorithm heuristic : string).
Hypothesis Hfind :
  ∀ start goal, ∃ r, find_path fuel e start goal algorithm heuristic
                     = Returned r.

Lemma nearest_package_returns (current_pos : Position) (remaining : list Z) :
  (∀ k, k ∈ remaining → k ∈ (packages e).*1) →
  ∀ nearest,
  ∃ r, nearest_package fuel e current_pos algorithm heuristic remaining
         nearest = Returned r ∧
       (r = nearest ∨ ∃ k d path, r = Some (k, d, path) ∧ k ∈ remaining).
Proof.
  induction remaining as [|pkg_id rest IH]; intros Hkeys nearest;
    cbn [nearest_package].
  - exists nearest. split; [done | by left].
  - destruct (packages_lookup_keys (packages e) pkg_id) as [goal_pos ->].
    { apply Hkeys. by left. }
    destruct (Hfind current_pos goal_pos) as [path ->]. cbn [obind].
    match goal with
    | |- context [nearest_package _ _ _ _ _ rest ?nearest'] =>
        destruct (IH (fun k Hk => Hkeys k (list_elem_of_further _ _ _ Hk))
                     nearest') as (r & Hr & Hcases);
        assert (nearest' = nearest ∨
                ∃ d p, nearest' = Some (pkg_id, d, p)) as Hn
    end.
    { match goal with |- context [if ?b then _ else _] => destruct b end;
        [right; by eexists _, _ | by left]. }
    exists r. split; [done |].
    destruct Hcases as [-> | (k & d & p & -> & Hk)].
    + destruct Hn as [-> | (d & p & ->)]; [by left | right].
      exists pkg_id, d, p. split; [done | by left].
    + right. exists k, d, p. split; [done | by right].
Qed.

Lemma plan_loop_returns (rounds : nat) :
  ∀ current_pos remaining full_route,
  (∀ k, k ∈ remaining → k ∈ (packages e).*1) →
  (length remaining ≤ rounds)%nat →
  ∃ r, plan_loop rounds fuel e algorithm heuristic current_pos remaining
         full_route = Returned r.
Proof.
  induction rounds as [|rounds IH];
    intros current_pos remaining full_route Hkeys Hlen.
  - destruct remaining; [by eexists | simpl in Hlen; lia].
  - destruct remaining as [|k0 remaining']; [by eexists |].
    cbn [plan_loop].
    destruct (nearest_package_returns current_pos (k0 :: remaining') Hkeys
                None) as (r & -> & Hcases). cbn [obind].
    destruct Hcases as [-> | (k & d & path & -> & Hk)]; [by eexists |].
    destruct (negb (k =? 0) && negb (bool_decide (path = [])));
      [| by eexists].
    destruct (packages_lookup_keys (packages e) k (Hkeys k Hk))
      as [goal_pos ->].
    apply IH.
    + intros k' Hk'. apply Hkeys.
      by apply list_elem_of_filter in Hk' as [_ ?].
    + pose proof (length_filter_remove (k0 :: remaining') k Hk).
      simpl in *. lia.
Qed.

Lemma plan_delivery_route_returns (a : DeliveryAgent) :
  ∃ planned,
    plan_delivery_route fuel e a algorithm heuristic = Returned planned.
Proof.
  unfold plan_delivery_route. destruct (packages e) as [|pkg pkgs] eqn:Hp;
    [by eexists |].
  rewrite <- Hp.
  destruct (plan_loop_returns
              (length (filter (fun k => k ∉ packages_delivered a)
                              (dict_keys (packages e) ∅)))
              (agent_position a)
              (filter (fun k => k ∉ packages_delivered a)
                      (dict_keys (packages e) ∅)) [])
    as [full_route ->]; [| done | by eexists].
  intros k Hk. apply list_elem_of_filter in Hk as [_ Hk].
  by eapply dict_keys_keys.
Qed.
End planning_termination.

Lemma find_path_returns (e : GridEnvironment) (fuel : nat)
    (algorithm heuristic : string) (start goal : Position) :
  env_ok e → (search_fuel e ≤ fuel)%nat → algorithm ≠ "ucs"%string →
  ∃ r, find_path fuel e start goal algorithm heuristic = Returned r.
Proof.
  intros Hok Hfuel Halg. unfold find_path.
  destruct (String.eqb algorithm "bfs"); [by apply BFS_search_returns |].
  destruct (String.eqb_spec algorithm "ucs"); [done |].
  by apply AStarSearch_search_returns.
Qed.

Lemma find_path_returns_bounded (e : GridEnvironment) (cmax : Z) (fuel : nat)
    (algorithm heuristic : string) (start goal : Position) :
  env_ok e → (∀ x y, 0 ≤ grid e y x) → 0 ≤ cmax →
  (∀ x y, is_within_bounds e x y = true → grid e y x ≤ cmax) →
  (plan_fuel e cmax ≤ fuel)%nat →
  ∃ r, find_path fuel e start goal algorithm heuristic = Returned r.
Proof.
  intros Hok Hcost Hcmax0 Hcmax Hfuel. unfold plan_fuel in Hfuel.
  destruct (String.eqb_spec algorithm "ucs") as [-> | Halg].
  - unfold find_path. simpl.
    apply (UniformCostSearch_search_returns e start cmax); try done. lia.
  - apply find_path_returns; [done | lia | done].
Qed.

(** C10: when the environment has no package [plan_delivery_route]
    returns the empty route; when it has one, a returned route starts with
    the position of the agent.  The call returns, on an environment whose
    obstacles are well formed: with breadth-first search or A* and the fuel
    [search_fuel], and with every strategy and the fuel [plan_fuel] when the
    terrain costs lie between 0 and a bound. *)
Theorem plan_delivery_route_first (fuel : nat) (e : GridEnvironment)
    (a : DeliveryAgent) (algorithm heuristic : string) :
  (env_ok e → (search_fuel e ≤ fuel)%nat → algorithm ≠ "ucs"%string →
   ∃ planned,
     plan_delivery_route fuel e a algorithm heuristic = Returned planned) ∧
  (∀ cmax,
     env_ok e → (∀ x y, 0 ≤ grid e y x) → 0 ≤ cmax →
     (∀ x y, is_within_bounds e x y = true → grid e y x ≤ cmax) →
     (plan_fuel e cmax ≤ fuel)%nat →
     ∃ planned,
       plan_delivery_route fuel e a algorithm heuristic = Returned planned) ∧
  ∀ planned,
    plan_delivery_route fuel e a algorithm heuristic = Returned planned →
    (packages e = [] → planned = []) ∧
    (packages e ≠ [] → head planned = Some (agent_position a)).
Proof.
  split; [| split].
  - intros Hok Hfuel Halg. apply plan_delivery_route_returns.
    intros start goal. by apply find_path_returns.
  - intros cmax Hok Hcost Hcmax0 Hcmax Hfuel.
    apply plan_delivery_route_returns.
    intros start goal. by apply (find_path_returns_bounded e cmax).
  - intros planned. unfold plan_delivery_route.
    destruct (packages e) as [|pkg pkgs].
    + intros [= <-]. done.
    + destruct (plan_loop _ _ _ _ _ _ _ _) as [full_route| |]; simpl;
        [| done | done].
      intros [= <-]. done.
Qed.

Lemma plan_delivery_route_first_witness :
  match plan_delivery_route 100 parcel_env (DeliveryAgent_init parcel_env 1000)
          "astar" "manhattan" with
  | Returned planned => head planned = Some (0, 0)
  | _ => False
  end.
Proof.
  destruct (plan_delivery_route 100 parcel_env
              (DeliveryAgent_init parcel_env 1000) "astar" "manhattan")
    as [planned| |] eqn:E.
  - refine (proj2 (proj2 (proj2 (plan_delivery_route_first _ _ _ _ _)) _ E) _).
    done.
  - vm_compute in E. discriminate E.
  - vm_compute in E. discriminate E.
Defined.

(** The greedy plan on the grid with three packages: to (1,0) for package 1,
    where package 2 is due as well, then to (4,4). *)
Example plan_delivery_route_parcels :
  plan_delivery_route 100 parcel_env (DeliveryAgent_init parcel_env 1000)
    "astar" "manhattan"
  = Returned [(0, 0); (1, 0); (1, 1); (1, 2); (2, 2); (2, 3); (2, 4); (3, 4);
              (4, 4)].
Proof. vm_compute. reflexivity. Qed.

(** ** Moving obstacles: the moves made and the moves predicted *)

Lemma replay_app (pat : list Direction) (a b : nat) :
  ∀ i p,
  replay pat (a + b) i p
  = let* q := replay pat a i p in replay pat b (i + Z.of_nat a) q.
Proof.
  induction a as [|a IH]; intros i p; simpl.
  - by rewrite Z.add_0_r.
  - destruct (pattern_at pat _) as [d| |]; simpl; [| done | done].
    rewrite IH. replace (i + 1 + Z.of_nat a) with (i + Z.pos (Pos.of_succ_nat a)) by lia.
    done.
Qed.

Lemma replay_index_cycle (pat : list Direction) (count : nat) :
  ∀ i p, replay pat count (i + Z.of_nat (length pat)) p = replay pat count i p.
Proof.
  induction count as [|count IH]; intros i p; simpl; [done |].
  destruct (decide (length pat = 0%nat)) as [E | E].
  - rewrite E. simpl. by rewrite Z.add_0_r.
  - replace ((i + Z.of_nat (length pat)) `mod` Z.of_nat (length pat))
      with (i `mod` Z.of_nat (length pat)).
    2:{ rewrite <- (Z.mul_1_l (Z.of_nat (length pat))) at 2.
        rewrite Z.mod_add by lia. done. }
    destruct (pattern_at pat _) as [d| |]; simpl; [| done | done].
    replace (i + Z.of_nat (length pat) + 1) with (i + 1 + Z.of_nat (length pat))
      by lia.
    apply IH.
Qed.

Lemma shift_translate (p v : Position) (d : Direction) :
  shift (translate p v) d = translate (shift p d) v.
Proof. unfold shift, translate. simpl. f_equal; lia. Qed.

Lemma replay_translate (pat : list Direction) (count : nat) (v : Position) :
  ∀ i p q, replay pat count i p = Returned q →
           replay pat count i (translate p v) = Returned (translate q v).
Proof.
  induction count as [|count IH]; intros i p q; simpl.
  - by intros [= ->].
  - destruct (pattern_at pat _) as [d| |]; simpl; [| done | done].
    intros H. rewrite shift_translate. by apply IH.
Qed.

Lemma foldl_shift_translate (pat : list Direction) :
  ∀ p, foldl shift p pat = translate p (foldl shift (0, 0) pat).
Proof.
  assert (∀ p v, foldl shift (translate p v) pat = translate (foldl shift p pat) v)
    as H.
  { induction pat as [|d pat IH]; intros p v; simpl; [done |].
    by rewrite shift_translate, IH. }
  intros p. transitivity (foldl shift (translate (0, 0) p) pat).
  { f_equal. unfold translate. destruct p. done. }
  rewrite H. unfold translate. simpl. f_equal; lia.
Qed.

(** One pass through the pattern, from any index of it to its end. *)
Lemma replay_pass_from (pat : list Direction) (k : nat) :
  ∀ p, (k ≤ length pat)%nat →
  replay pat (length pat - k) (Z.of_nat k) p
  = Returned (foldl shift p (drop k pat)).
Proof.
  intros p Hk. remember (length pat - k)%nat as n eqn:Hn.
  revert k p Hk Hn. induction n as [|n IH]; intros k p Hk Hn; simpl.
  - rewrite drop_ge by lia. done.
  - assert (k < length pat)%nat as Hlt by lia.
    rewrite Z.mod_small by lia. unfold pattern_at. rewrite Nat2Z.id.
    destruct (lookup_lt_is_Some_2 pat k Hlt) as [d Hd]. rewrite Hd. simpl.
    rewrite (drop_S _ _ _ Hd). simpl.
    replace (Z.of_nat k + 1) with (Z.of_nat (S k)) by lia.
    apply IH; lia.
Qed.

Lemma replay_pass (pat : list Direction) (p : Position) :
  replay pat (length pat) 0 p = Returned (foldl shift p pat).
Proof.
  pose proof (replay_pass_from pat 0 p ltac:(lia)) as H.
  rewrite Nat.sub_0_r in H. exact H.
Qed.

Lemma replay_snoc (pat : list Direction) (count : nat) (p : Position) :
  replay pat (S count) 0 p
  = let* q := replay pat count 0 p in
    let* d := pattern_at pat (Z.of_nat count `mod` Z.of_nat (length pat)) in
    Returned (shift q d).
Proof.
  replace (S count) with (count + 1)%nat by lia. rewrite replay_app.
  destruct (replay pat count 0 p) as [q| |]; simpl; [| done | done].
  destruct (pattern_at pat _) as [d| |]; done.
Qed.

Lemma move_state_tick (o : DynamicObstacle) (time : Z) :
  0 < interval o → pattern o ≠ [] →
  move_state o time =
    if time `mod` interval o =? 0 then
      match pattern o !! Z.to_nat ((time `div` interval o)
                                     `mod` Z.of_nat (length (pattern o))) with
      | Some d =>
          {| name := name o; position := shift (position o) d;
             pattern := pattern o; interval := interval o;
             step_count := step_count o;
             history := history o ++ [shift (position o) d] |}
      | None => o
      end
    else o.
Proof.
  intros Hiv Hpat. unfold move_state, move.
  destruct (interval o =? 0) eqn:E; [lia |].
  destruct (time `mod` interval o =? 0); [| done].
  destruct (Z.of_nat (length (pattern o)) =? 0) eqn:E2.
  { destruct (pattern o); [done | simpl in E2; lia]. }
  unfold pattern_at. destruct (pattern o !! _); done.
Qed.

Lemma run_moves_ticks (nm : string) (start_pos : Position)
    (pat : list Direction) (iv : Z) (m : nat) :
  0 < iv → pat ≠ [] →
  let o' := run_moves (DynamicObstacle_init nm start_pos pat iv)
              (seqZ 0 (Z.of_nat m)) in
  pattern o' = pat ∧ interval o' = iv ∧
  replay pat (Z.to_nat ((Z.of_nat m - 1) `div` iv + 1)) 0 start_pos
  = Returned (position o') ∧
  last (history o') = Some (position o') ∧
  length (history o') = Z.to_nat ((Z.of_nat m - 1) `div` iv + 2).
Proof.
  intros Hiv Hpat. induction m as [|m IH].
  - cbv zeta. change (Z.of_nat 0) with 0.
    assert ((0 - 1) `div` iv = -1) as ->
      by (Z.to_euclidean_division_equations; nia).
    done.
  - destruct IH as (Hp & Hi & Hr & Hl & Hn).
    replace (Z.of_nat (S m)) with (Z.of_nat m + 1) by lia.
    rewrite seqZ_app by lia. unfold run_moves in *.
    rewrite fold_left_app.
    assert (seqZ (0 + Z.of_nat m) 1 = [Z.of_nat m]) as ->
      by (cbn; f_equal; lia).
    simpl.
    set (o' := fold_left move_state (seqZ 0 (Z.of_nat m))
                 (DynamicObstacle_init nm start_pos pat iv)) in *.
    rewrite move_state_tick by (rewrite ?Hi, ?Hp; done).
    rewrite Hi, Hp. replace (Z.of_nat m + 1 - 1) with (Z.of_nat m) by lia.
    destruct (Z.of_nat m `mod` iv =? 0) eqn:Em.
    + assert (Z.of_nat m `div` iv = (Z.of_nat m - 1) `div` iv + 1) as Ediv.
      { apply Z.eqb_eq in Em. Z.to_euclidean_division_equations. nia. }
      assert (0 ≤ Z.of_nat m `div` iv) as Hnn by (apply Z.div_pos; lia).
      assert (0 < Z.of_nat (length pat)) as Hlen.
      { destruct pat; [done | simpl; lia]. }
      destruct (pat !! _) as [d|] eqn:Ed.
      2:{ apply lookup_ge_None in Ed.
          pose proof (Z.mod_pos_bound (Z.of_nat m `div` iv)
                        (Z.of_nat (length pat)) Hlen). lia. }
      simpl. split; [done |]. split; [done |].
      split; [| split].
      * replace (Z.to_nat (Z.of_nat m `div` iv + 1))
          with (S (Z.to_nat (Z.of_nat m `div` iv))) by lia.
        rewrite replay_snoc.
        replace (Z.to_nat (Z.of_nat m `div` iv))
          with (Z.to_nat ((Z.of_nat m - 1) `div` iv + 1)) by lia.
        rewrite Hr. simpl. unfold pattern_at.
        rewrite Z2Nat.id by lia. rewrite <- Ediv, Ed. done.
      * by rewrite last_snoc.
      * rewrite length_app, Hn. simpl. lia.
    + assert (Z.of_nat m `div` iv = (Z.of_nat m - 1) `div` iv) as Ediv.
      { apply Z.eqb_neq in Em. Z.to_euclidean_division_equations. nia. }
      rewrite Ediv. done.
Qed.

(** X1: for an obstacle with a positive interval and a non-empty pattern,
    the position predicted for a time [t >= 0] is the position the obstacle
    has after [move] was called at the times 0, 1, ..., t; that position is
    the last entry of its history, which holds the start and one entry for
    every multiple of the interval up to [t]. *)
Theorem move_realizes_prediction (nm : string) (start_pos : Position)
    (pat : list Direction) (iv t : Z) :
  0 < iv → pat ≠ [] → 0 ≤ t →
  get_position_at_time (DynamicObstacle_init nm start_pos pat iv) t
  = Returned (position (run_moves (DynamicObstacle_init nm start_pos pat iv)
                          (seqZ 0 (t + 1)))) ∧
  last (history (run_moves (DynamicObstacle_init nm start_pos pat iv)
                   (seqZ 0 (t + 1))))
  = Some (position (run_moves (DynamicObstacle_init nm start_pos pat iv)
                      (seqZ 0 (t + 1)))) ∧
  length (history (run_moves (DynamicObstacle_init nm start_pos pat iv)
                     (seqZ 0 (t + 1))))
  = Z.to_nat (t `div` iv + 2).
Proof.
  intros Hiv Hpat Ht.
  pose proof (run_moves_ticks nm start_pos pat iv (Z.to_nat (t + 1)) Hiv Hpat)
    as H. cbv zeta in H. rewrite Z2Nat.id in H by lia.
  replace (t + 1 - 1) with t in H by lia.
  destruct H as (_ & _ & Hr & Hl & Hn). split; [| done].
  unfold get_position_at_time. simpl.
  destruct (iv =? 0) eqn:E; [lia |].
  destruct (Z.of_nat (length pat) =? 0) eqn:E2.
  { destruct pat; [done | simpl in E2; lia]. }
  exact Hr.
Qed.

Lemma move_realizes_prediction_witness :
  get_position_at_time
    (DynamicObstacle_init "patrol" (2, 2) [RIGHT; DOWN; LEFT; UP] 2) 5
  = Returned
      (position
         (run_moves
            (DynamicObstacle_init "patrol" (2, 2) [RIGHT; DOWN; LEFT; UP] 2)
            (seqZ 0 (5 + 1)))).
Proof.
  exact (proj1 (move_realizes_prediction "patrol" (2, 2)
                  [RIGHT; DOWN; LEFT; UP] 2 5
                  ltac:(lia) ltac:(done) ltac:(lia))).
Defined.

(** X2: with a positive interval the prediction for a negative time is the
    start position, the prediction for the times before the first interval
    has passed is already one pattern step away from the start, and adding
    one interval to the time advances the prediction by the next step of the
    pattern, taken cyclically. *)
Theorem get_position_at_time_step (o : DynamicObstacle) (t : Z) :
  0 < interval o → pattern o ≠ [] → history o ≠ [] →
  ∃ start_pos,
    history o !! 0%nat = Some start_pos ∧
    (t < 0 → get_position_at_time o t = Returned start_pos) ∧
    (0 ≤ t < interval o →
     ∃ d, pattern o !! 0%nat = Some d ∧
          get_position_at_time o t = Returned (shift start_pos d)) ∧
    (- interval o ≤ t →
     ∃ p d,
       get_position_at_time o t = Returned p ∧
       pattern o !! Z.to_nat ((t `div` interval o + 1)
                                `mod` Z.of_nat (length (pattern o)))
       = Some d ∧
       get_position_at_time o (t + interval o) = Returned (shift p d)).
Proof.
  intros Hiv Hpat Hhist.
  destruct (history o) as [|start_pos rest] eqn:Eh; [done |].
  exists start_pos. split; [done |].
  assert (0 < Z.of_nat (length (pattern o))) as Hlen.
  { destruct (pattern o); [done | simpl; lia]. }
  assert (∀ t', get_position_at_time o t'
                = replay (pattern o) (Z.to_nat (t' `div` interval o + 1)) 0
                    start_pos) as Hg.
  { intros t'. unfold get_position_at_time.
    destruct (interval o =? 0) eqn:E; [lia |].
    destruct (Z.of_nat (length (pattern o)) =? 0) eqn:E2; [lia |].
    rewrite Eh. done. }
  split; [| split].
  - intros Ht. rewrite Hg.
    assert (t `div` interval o + 1 ≤ 0) as Hc
      by (Z.to_euclidean_division_equations; nia).
    replace (Z.to_nat (t `div` interval o + 1)) with 0%nat by lia. done.
  - intros Ht. rewrite Hg, Z.div_small by lia. simpl.
    rewrite Z.mod_0_l by lia. unfold pattern_at. simpl.
    destruct (pattern o) as [|d pat]; [done |]. exists d. done.
  - intros Ht. rewrite !Hg.
    assert ((t + interval o) `div` interval o = t `div` interval o + 1) as ->.
    { replace (t + interval o) with (t + 1 * interval o) by lia.
      rewrite Z.div_add by lia. done. }
    assert (0 ≤ t `div` interval o + 1) as Hc
      by (Z.to_euclidean_division_equations; nia).
    replace (Z.to_nat (t `div` interval o + 1 + 1))
      with (S (Z.to_nat (t `div` interval o + 1))) by lia.
    rewrite replay_snoc.
    destruct (replay_returns (pattern o) (Z.to_nat (t `div` interval o + 1))
                Hpat 0 start_pos) as [p Hp].
    rewrite Hp. simpl. rewrite Z2Nat.id by lia.
    destruct (pattern_at_in_range (pattern o) (t `div` interval o + 1) Hpat)
      as [d Hd].
    rewrite Hd. simpl. exists p, d. split; [done |]. split; [| done].
    unfold pattern_at in Hd. destruct (pattern o !! _); [| done].
    by injection Hd as ->.
Qed.

Lemma get_position_at_time_step_witness :
  ∃ p d,
    get_position_at_time patrol 3 = Returned p ∧
    pattern patrol !! Z.to_nat ((3 `div` interval patrol + 1)
                                  `mod` Z.of_nat (length (pattern patrol)))
    = Some d ∧
    get_position_at_time patrol (3 + interval patrol) = Returned (shift p d).
Proof.
  destruct (get_position_at_time_step patrol 3) as (s & _ & _ & _ & H);
    [simpl; lia | done | done |].
  apply H. simpl. lia.
Defined.

(** X3: adding one full cycle (the interval times the length of the
    pattern) to the time moves the predicted position by the displacement of
    one pass through the pattern; for a pattern that returns to its origin
    the prediction is periodic. *)
Theorem get_position_at_time_cycle (o : DynamicObstacle) (t : Z)
    (p : Position) :
  0 < interval o → - interval o ≤ t →
  get_position_at_time o t = Returned p →
  get_position_at_time o (t + interval o * Z.of_nat (length (pattern o)))
  = Returned (translate p (pattern_displacement (pattern o))) ∧
  (pattern_displacement (pattern o) = (0, 0) →
   get_position_at_time o (t + interval o * Z.of_nat (length (pattern o)))
   = Returned p).
Proof.
  intros Hiv Ht Hp.
  assert (get_position_at_time o
            (t + interval o * Z.of_nat (length (pattern o)))
          = Returned (translate p (pattern_displacement (pattern o)))) as H.
  { unfold get_position_at_time in *.
    destruct (interval o =? 0) eqn:E; [lia |].
    destruct (Z.of_nat (length (pattern o)) =? 0) eqn:E2; [done |].
    destruct (history o !! 0%nat) as [start_pos|]; [| done].
    rewrite (Z.mul_comm (interval o)), Z.div_add by lia.
    assert (0 ≤ t `div` interval o + 1) as Hc
      by (Z.to_euclidean_division_equations; nia).
    replace (Z.to_nat (t `div` interval o + Z.of_nat (length (pattern o)) + 1))
      with (length (pattern o) + Z.to_nat (t `div` interval o + 1))%nat by lia.
    rewrite replay_app, replay_pass. simpl.
    rewrite (replay_index_cycle (pattern o) _ 0).
    rewrite foldl_shift_translate. by apply replay_translate. }
  split; [done |]. intros Hd. rewrite H, Hd. f_equal.
  unfold translate. destruct p. simpl. f_equal; lia.
Qed.

Lemma get_position_at_time_cycle_witness :
  get_position_at_time patrol (3 + interval patrol
                                   * Z.of_nat (length (pattern patrol)))
  = Returned (3, 3).
Proof.
  refine (proj2 (get_position_at_time_cycle patrol 3 (3, 3) _ _ _) _);
    [simpl; lia | simpl; lia | reflexivity | reflexivity].
Defined.

(** ** The paths the searches return *)

Lemma valid_moves_from_sound (e : GridEnvironment) (dirs : list Direction)
    (x y time : Z) :
  ∀ moves, valid_moves_from e dirs x y time = Returned moves →
  ∀ nx ny c, (nx, ny, c) ∈ moves →
    (∃ d, d ∈ dirs ∧ nx = x + fst (value d) ∧ ny = y + snd (value d)) ∧
    is_within_bounds e nx ny = true ∧
    is_obstructed e nx ny time = Returned false ∧
    c = get_terrain_cost e nx ny.
Proof.
  induction dirs as [|d dirs IH]; intros moves; simpl.
  - intros [= <-] nx ny c Hin. by apply elem_of_nil in Hin.
  - destruct (is_within_bounds e _ _) eqn:Hb.
    + destruct (is_obstructed e _ _ time) as [blocked| |] eqn:Ho; simpl;
        [| done | done].
      destruct (valid_moves_from e dirs x y time) as [moves'| |] eqn:Hm;
        simpl; [| done | done].
      intros [= <-] nx ny c Hin.
      assert ((nx, ny, c) ∈ moves' →
              (∃ d0, d0 ∈ d :: dirs ∧ nx = x + (value d0).1
                     ∧ ny = y + (value d0).2) ∧
              is_within_bounds e nx ny = true ∧
              is_obstructed e nx ny time = Returned false ∧
              c = get_terrain_cost e nx ny) as Hrest.
      { intros Hin'. destruct (IH moves' eq_refl nx ny c Hin')
          as ((d0 & Hd0 & Hx) & Hrest).
        split; [| done]. exists d0. split; [by right | done]. }
      destruct blocked; [by apply Hrest |].
      apply elem_of_cons in Hin as [[= -> -> ->] | Hin]; [| by apply Hrest].
      split; [| done]. exists d. split; [by left | done].
    + intros Hm nx ny c Hin.
      destruct (IH moves Hm nx ny c Hin) as ((d0 & Hd0 & Hx) & Hrest).
      split; [| done]. exists d0. split; [by right | done].
Qed.

Lemma adjacent_direction (x y : Z) (d : Direction) :
  d ∈ [UP; DOWN; LEFT; RIGHT] →
  adjacent (x, y) (x + (value d).1, y + (value d).2).
Proof.
  intros Hd. unfold adjacent. simpl.
  repeat (apply elem_of_cons in Hd as [-> | Hd]); simpl.
  - replace (x + 0) with x by lia. replace (y + -1) with (y - 1) by lia.
    apply list_elem_of_here.
  - replace (x + 0) with x by lia.
    apply list_elem_of_further, list_elem_of_here.
  - replace (y + 0) with y by lia. replace (x + -1) with (x - 1) by lia.
    do 2 apply list_elem_of_further. apply list_elem_of_here.
  - replace (y + 0) with y by lia.
    do 3 apply list_elem_of_further. apply list_elem_of_here.
  - by apply elem_of_nil in Hd.
Qed.

Lemma get_successors_walk (e : GridEnvironment) (start : Position)
    (n : SearchNode) (successors : list SearchNode) :
  get_successors e n = Returned successors → node_walk e start n →
  ∀ s, s ∈ successors →
    node_walk e start s ∧ Node.parent s = Some n ∧
    Node.cost s = Node.cost n
                  + get_terrain_cost e (Node.position s).1 (Node.position s).2.
Proof.
  unfold get_successors. destruct (Node.position n) as [x y] eqn:Hpos.
  unfold get_valid_moves.
  destruct (valid_moves_from e _ x y (Node.time n)) as [moves| |] eqn:Hm;
    simpl; [| done | done].
  intros [= <-] Hn s Hs.
  apply list_elem_of_fmap in Hs as ([[nx ny] c] & -> & Hin).
  destruct (valid_moves_from_sound _ _ _ _ _ _ Hm nx ny c Hin)
    as ((d & Hd & -> & ->) & Hb & Ho & ->).
  simpl. split; [| done]. split; [done |]. rewrite Hpos.
  split; [by apply adjacent_direction |]. done.
Qed.

Lemma node_walk_path (e : GridEnvironment) (start : Position)
    (n : SearchNode) :
  node_walk e start n →
  head (reconstruct_path n) = Some start ∧
  last (reconstruct_path n) = Some (Node.position n) ∧
  0 ≤ Node.time n ∧
  length (reconstruct_path n) = S (Z.to_nat (Node.time n)) ∧
  timed_walk e (reconstruct_path n) ∧
  route_cost e (reconstruct_path n) = Node.cost n.
Proof.
  induction n as [c p t a d | c p t parent a d IH] using SearchNode_chain_ind.
  - simpl. intros (-> & -> & ->). unfold reconstruct_path. simpl.
    split; [done |]. split; [done |]. split; [done |]. split; [done |].
    split; [| done]. intros i p q Hp Hq. destruct i; done.
  - simpl. intros (Hpar & Hadj & Hb & Ho & -> & ->).
    destruct (IH Hpar) as (Hh & Hl & Ht & Hlen & Hw & Hc).
    rewrite reconstruct_path_child.
    assert (reconstruct_path parent ≠ []) as Hne.
    { intros E. rewrite E in Hh. done. }
    split; [| split; [| split; [| split; [| split]]]].
    + destruct (reconstruct_path parent); [done | done].
    + by rewrite last_snoc.
    + lia.
    + rewrite length_app, Hlen. simpl. lia.
    + intros i p' q Hp Hq.
      destruct (decide (S i < length (reconstruct_path parent))%nat) as [Hi | Hi].
      * rewrite lookup_app_l in Hp by lia. rewrite lookup_app_l in Hq by lia.
        by apply (Hw i).
      * assert (S i = length (reconstruct_path parent)) as Hi'.
        { apply lookup_lt_Some in Hq. rewrite length_app in Hq. simpl in Hq.
          lia. }
        rewrite lookup_app_l in Hp by lia.
        rewrite lookup_app_r in Hq by lia.
        rewrite Hi', Nat.sub_diag in Hq. injection Hq as <-.
        rewrite last_lookup in Hl.
        replace (pred (length (reconstruct_path parent))) with i in Hl by lia.
        rewrite Hp in Hl. injection Hl as ->.
        split; [done |]. split; [done |].
        replace (Z.of_nat i) with (Node.time parent) by lia. done.
    + unfold route_cost in *.
      destruct (reconstruct_path parent) as [|p0 rest] eqn:E; [done |].
      change (cells_cost e (rest ++ [p])
              = Node.cost parent + get_terrain_cost e p.1 p.2).
      change (cells_cost e rest = Node.cost parent) in Hc.
      rewrite cells_cost_app, Hc. unfold cells_cost. simpl.
      destruct p. simpl. lia.
Qed.

Lemma node_walk_search_path (e : GridEnvironment) (start goal : Position)
    (n : SearchNode) :
  node_walk e start n → Node.position n = goal →
  search_path_ok e start goal (reconstruct_path n).
Proof.
  intros Hn <-. destruct (node_walk_path e start n Hn) as (? & ? & _ & _ & ? & _).
  done.
Qed.

Lemma Forall_heappush {A : Type} (lt : A → A → bool) (P : A → Prop)
    (heap : list A) (item : A) :
  Forall P heap → P item → Forall P (heappush lt heap item).
Proof.
  rewrite !Forall_forall. intros Hheap Hitem x Hx.
  apply (heappush_shape lt heap item) in Hx as [-> | Hx]; [done |].
  by apply Hheap.
Qed.

Lemma Forall_heappop {A : Type} (lt : A → A → bool) (P : A → Prop)
    (heap heap' : list A) (item : A) :
  Forall P heap → heappop lt heap = Some (item, heap') →
  P item ∧ Forall P heap'.
Proof.
  rewrite !Forall_forall. intros Hheap Hpop.
  destruct (heappop_shape lt heap item heap' Hpop) as [_ Hmem].
  split; [apply Hheap, Hmem; by left |].
  intros x Hx. apply Hheap, Hmem. by right.
Qed.

Lemma path_to_root_child (s n : SearchNode) :
  Node.parent s = Some n →
  path_to_root s = Node.position s :: path_to_root n.
Proof. destruct s as [c p t [par|] a d]; simpl; [by intros [= ->] | done]. Qed.

Lemma path_to_root_head (n : SearchNode) :
  head (path_to_root n) = Some (Node.position n).
Proof. by destruct n as [c p t [par|] a d]. Qed.

Lemma NoDup_reconstruct_path (n : SearchNode) :
  NoDup (path_to_root n) → NoDup (reconstruct_path n).
Proof. intros H. unfold reconstruct_path. by rewrite reverse_Permutation. Qed.

(** *** Breadth-first search *)

Lemma bfs_node_ok_mono (e : GridEnvironment) (start : Position)
    (visited visited' : gset Position) (n : SearchNode) :
  visited ⊆ visited' → bfs_node_ok e start visited n →
  bfs_node_ok e start visited' n.
Proof.
  intros Hsub (Hw & Hnd & Hin). split; [done |]. split; [done |].
  intros p Hp. apply Hsub. by apply Hin.
Qed.

Lemma bfs_visit_ok (e : GridEnvironment) (start : Position)
    (current : SearchNode) (successors : list SearchNode) :
  (∀ s, s ∈ successors → node_walk e start s ∧ Node.parent s = Some current) →
  ∀ queue visited queue' visited',
  bfs_visit successors queue visited = (queue', visited') →
  bfs_node_ok e start visited current →
  Forall (bfs_node_ok e start visited) queue →
  visited ⊆ visited' ∧ Forall (bfs_node_ok e start visited') queue'.
Proof.
  induction successors as [|s successors IH];
    intros Hsucc queue visited queue' visited'; simpl.
  - intros [= <- <-] _ Hq. done.
  - intros Hv Hcur Hq.
    assert (∀ s', s' ∈ successors →
                  node_walk e start s' ∧ Node.parent s' = Some current)
      as Hsucc' by (intros s' Hs'; apply Hsucc; by right).
    destruct (bool_decide (Node.position s ∈ visited)) eqn:Hin.
    + by apply (IH Hsucc' _ _ _ _ Hv).
    + apply bool_decide_eq_false in Hin.
      assert (visited ⊆ {[Node.position s]} ∪ visited) as Hsub
        by set_solver.
      destruct (Hsucc s ltac:(by left)) as [Hws Hpar].
      destruct (IH Hsucc' _ _ _ _ Hv) as [Hsub' Hq'].
      * by apply (bfs_node_ok_mono _ _ visited).
      * apply Forall_app. split.
        -- eapply Forall_impl; [exact Hq |]. intros n.
           by apply bfs_node_ok_mono.
        -- apply Forall_cons. split; [| constructor].
           destruct Hcur as (Hwc & Hndc & Hinc).
           split; [done |]. rewrite (path_to_root_child s current Hpar).
           split.
           ++ apply NoDup_cons. split; [| done].
              intros Hmem. apply Hin. by apply Hinc.
           ++ intros p Hp. apply elem_of_cons in Hp as [-> | Hp];
                [set_solver |]. apply Hsub. by apply Hinc.
      * split; [| done]. etrans; [exact Hsub | exact Hsub'].
Qed.

Lemma bfs_loop_path (e : GridEnvironment) (start goal : Position)
    (fuel : nat) :
  ∀ queue visited path,
  Forall (bfs_node_ok e start visited) queue →
  bfs_loop fuel e goal queue visited = Returned (Some path) →
  ∃ n, path = reconstruct_path n ∧ node_walk e start n ∧
       Node.position n = goal ∧ NoDup (path_to_root n).
Proof.
  induction fuel as [|fuel IH]; intros queue visited path Hq; simpl;
    [done |].
  destruct queue as [|current queue']; [done |].
  apply Forall_cons in Hq as [Hcur Hq].
  destruct (Position_eqb (Node.position current) goal) eqn:Hg.
  - intros [= <-]. apply Position_eqb_eq in Hg. exists current.
    destruct Hcur as (Hw & Hnd & _). done.
  - destruct (get_successors e current) as [successors| |] eqn:Hs; simpl;
      [| done | done].
    destruct (bfs_visit successors queue' visited) as [queue'' visited']
      eqn:Hv.
    intros Hl. apply (IH queue'' visited'); [| done].
    eapply (bfs_visit_ok e start current successors); [| exact Hv | done | done].
    intros s Hin.
    destruct (get_successors_walk e start current successors Hs
                (proj1 Hcur) s Hin) as (? & ? & _). done.
Qed.

(** X4: a path returned by breadth-first search, in any environment, starts
    at [start], ends at [goal], visits no cell twice, and each of its steps
    leads to a neighbouring cell in bounds that is not obstructed at the time
    the step starts (cell number [i + 1] at time [i]). *)
Theorem BFS_search_path (fuel : nat) (e : GridEnvironment)
    (start goal : Position) (path : list Position) :
  BFS_search fuel e start goal = Returned (Some path) →
  search_path_ok e start goal path ∧ NoDup path.
Proof.
  unfold BFS_search. intros Hl.
  apply (bfs_loop_path e start goal) in Hl as (n & -> & Hw & Hg & Hnd).
  - split; [by apply node_walk_search_path | by apply NoDup_reconstruct_path].
  - apply Forall_cons. split; [| constructor].
    split; [done |]. split; [apply NoDup_singleton |].
    intros p Hp. simpl in Hp. set_solver.
Qed.

(** *** A* *)

Lemma astar_node_ok_mono (e : GridEnvironment) (start : Position)
    (visited visited' : gset Position) (entry : Key * SearchNode) :
  visited ⊆ visited' → astar_node_ok e start visited entry →
  astar_node_ok e start visited' entry.
Proof.
  intros Hsub (Hw & Hnd & Hin). split; [done |]. split; [done |].
  intros p Hp. apply Hsub. by apply Hin.
Qed.

Lemma astar_visit_path (e : GridEnvironment) (heuristic : string)
    (start goal : Position) (current : SearchNode) (visited : gset Position)
    (successors : list SearchNode) :
  node_walk e start current → NoDup (path_to_root current) →
  (∀ p, p ∈ path_to_root current → p ∈ visited) →
  (∀ s, s ∈ successors → node_walk e start s ∧ Node.parent s = Some current) →
  ∀ frontier g_costs frontier' g_costs',
  astar_visit e heuristic goal current visited successors frontier g_costs
  = (frontier', g_costs') →
  Forall (astar_node_ok e start visited) frontier →
  Forall (astar_node_ok e start visited) frontier'.
Proof.
  intros Hwc Hndc Hinc.
  induction successors as [|s successors IH];
    intros Hsucc frontier g_costs frontier' g_costs'; simpl.
  - by intros [= <- <-].
  - assert (∀ s', s' ∈ successors →
                  node_walk e start s' ∧ Node.parent s' = Some current)
      as Hsucc' by (intros s' Hs'; apply Hsucc; by right).
    destruct (bool_decide (Node.position s ∈ visited)) eqn:Hin;
      [by apply IH |].
    apply bool_decide_eq_false in Hin.
    destruct (match g_costs !! Node.position s with
              | Some c => _
              | None => true
              end); [| by apply IH].
    intros Hv Hf. apply (IH Hsucc' _ _ _ _ Hv).
    apply Forall_heappush; [done |].
    destruct (Hsucc s ltac:(by left)) as [Hws Hpar].
    split; [done |]. simpl. rewrite (path_to_root_child s current Hpar).
    split; [| done]. apply NoDup_cons. split; [| done].
    intros Hmem. apply Hin. by apply Hinc.
Qed.

Lemma astar_loop_path (e : GridEnvironment) (heuristic : string)
    (start goal : Position) (fuel : nat) :
  ∀ frontier g_costs visited path,
  Forall (astar_node_ok e start visited) frontier →
  astar_loop fuel e heuristic goal frontier g_costs visited
  = Returned (Some path) →
  ∃ n, path = reconstruct_path n ∧ node_walk e start n ∧
       Node.position n = goal ∧ NoDup (path_to_root n).
Proof.
  induction fuel as [|fuel IH]; intros frontier g_costs visited path Hf;
    simpl; [done |].
  destruct (heappop entry_lt frontier) as [[[current_f current] frontier']|]
    eqn:Hpop; [| done].
  destruct (Forall_heappop _ _ _ _ _ Hf Hpop) as [(Hwc & Hndc & Hinc) Hf'].
  simpl in Hwc, Hndc, Hinc.
  destruct (bool_decide (Node.position current ∈ visited)) eqn:Hin;
    [by apply IH |].
  destruct (Position_eqb (Node.position current) goal) eqn:Hg.
  - intros [= <-]. apply Position_eqb_eq in Hg. by exists current.
  - destruct (get_successors e current) as [successors| |] eqn:Hs; simpl;
      [| done | done].
    destruct (astar_visit e heuristic goal current _ successors frontier'
                g_costs) as [frontier'' g_costs'] eqn:Hv.
    apply IH.
    eapply (astar_visit_path e heuristic start goal current); [done | done | |
      | exact Hv |].
    + intros p Hp.
      pose proof (path_to_root_head current) as Hh.
      destruct (path_to_root current) as [|p0 rest]; [done |].
      injection Hh as ->.
      apply elem_of_cons in Hp as [-> | Hp]; [set_solver |].
      apply elem_of_union_r. by apply Hinc.
    + intros s Hin'.
      destruct (get_successors_walk e start current successors Hs Hwc s Hin')
        as (? & ? & _). done.
    + eapply Forall_impl; [exact Hf' |]. intros entry.
      apply astar_node_ok_mono. set_solver.
Qed.

(** X6: a path returned by A*, with any heuristic and in any environment,
    starts at [start], ends at [goal], visits no cell twice, and each of its
    steps leads to a neighbouring cell in bounds that is not obstructed at
    the time the step starts. *)
Theorem AStarSearch_search_path (fuel : nat) (e : GridEnvironment)
    (heuristic : string) (start goal : Position) (path : list Position) :
  AStarSearch_search fuel e heuristic start goal = Returned (Some path) →
  search_path_ok e start goal path ∧ NoDup path.
Proof.
  unfold AStarSearch_search. intros Hl.
  apply (astar_loop_path e heuristic start goal) in Hl
    as (n & -> & Hw & Hg & Hnd).
  - split; [by apply node_walk_search_path | by apply NoDup_reconstruct_path].
  - apply Forall_heappush; [constructor |].
    split; [done |]. split; [apply NoDup_singleton |].
    intros p Hp. simpl in Hp. set_solver.
Qed.

(** *** Uniform-cost search *)

Lemma ucs_visit_path (e : GridEnvironment) (start : Position)
    (successors : list SearchNode) :
  (∀ s, s ∈ successors → node_walk e start s) →
  ∀ frontier visited_costs frontier' visited_costs',
  ucs_visit successors frontier visited_costs = (frontier', visited_costs') →
  Forall (fun entry => node_walk e start entry.2) frontier →
  Forall (fun entry => node_walk e start entry.2) frontier'.
Proof.
  induction successors as [|s successors IH];
    intros Hsucc frontier visited_costs frontier' visited_costs'; simpl.
  - by intros [= <- <-].
  - assert (∀ s', s' ∈ successors → node_walk e start s')
      as Hsucc' by (intros s' Hs'; apply Hsucc; by right).
    destruct (match visited_costs !! Node.position s with
              | Some c => _
              | None => true
              end); [| by apply IH].
    intros Hv Hf. apply (IH Hsucc' _ _ _ _ Hv).
    apply Forall_heappush; [done |]. simpl. apply Hsucc. by left.
Qed.

Lemma ucs_loop_path (e : GridEnvironment) (start goal : Position)
    (fuel : nat) :
  ∀ frontier visited_costs path,
  Forall (fun entry => node_walk e start entry.2) frontier →
  ucs_loop fuel e goal frontier visited_costs = Returned (Some path) →
  ∃ n, path = reconstruct_path n ∧ node_walk e start n ∧
       Node.position n = goal.
Proof.
  induction fuel as [|fuel IH]; intros frontier visited_costs path Hf;
    simpl; [done |].
  destruct (heappop entry_lt frontier) as [[[current_cost current] frontier']|]
    eqn:Hpop; [| done].
  destruct (Forall_heappop _ _ _ _ _ Hf Hpop) as [Hwc Hf'].
  simpl in Hwc.
  destruct (match visited_costs !! Node.position current with
            | Some c => _
            | None => false
            end); [by apply IH |].
  destruct (Position_eqb (Node.position current) goal) eqn:Hg.
  - intros [= <-]. apply Position_eqb_eq in Hg. by exists current.
  - destruct (get_successors e current) as [successors| |] eqn:Hs; simpl;
      [| done | done].
    destruct (ucs_visit successors frontier' visited_costs)
      as [frontier'' visited_costs'] eqn:Hv.
    apply IH.
    eapply (ucs_visit_path e start successors); [| exact Hv | done].
    intros s Hin.
    by destruct (get_successors_walk e start current successors Hs Hwc s Hin).
Qed.

(** X5: a path returned by uniform-cost search, in any environment, starts
    at [start], ends at [goal], and each of its steps leads to a
    neighbouring cell in bounds that is not obstructed at the time the step
    starts. *)
Theorem UniformCostSearch_search_path (fuel : nat) (e : GridEnvironment)
    (start goal : Position) (path : list Position) :
  UniformCostSearch_search fuel e start goal = Returned (Some path) →
  search_path_ok e start goal path.
Proof.
  unfold UniformCostSearch_search. intros Hl.
  apply (ucs_loop_path e start goal) in Hl as (n & -> & Hw & Hg).
  - by apply node_walk_search_path.
  - apply Forall_heappush; [constructor | done].
Qed.

Lemma BFS_search_path_witness :
  match BFS_search 100 cart_env (1, 3) (0, 2) with
  | Returned (Some path) =>
      search_path_ok cart_env (1, 3) (0, 2) path ∧ NoDup path
  | _ => False
  end.
Proof.
  destruct (BFS_search 100 cart_env (1, 3) (0, 2)) as [[path|]| |] eqn:E.
  - exact (BFS_search_path _ _ _ _ _ E).
  - vm_compute in E. discriminate E.
  - vm_compute in E. discriminate E.
  - vm_compute in E. discriminate E.
Defined.

Lemma UniformCostSearch_search_path_witness :
  match UniformCostSearch_search 100 cart_env (1, 3) (0, 2) with
  | Returned (Some path) => search_path_ok cart_env (1, 3) (0, 2) path
  | _ => False
  end.
Proof.
  destruct (UniformCostSearch_search 100 cart_env (1, 3) (0, 2))
    as [[path|]| |] eqn:E.
  - exact (UniformCostSearch_search_path _ _ _ _ _ E).
  - vm_compute in E. discriminate E.
  - vm_compute in E. discriminate E.
  - vm_compute in E. discriminate E.
Defined.

Lemma AStarSearch_search_path_witness :
  match AStarSearch_search 100 cart_env "euclidean" (1, 3) (0, 2) with
  | Returned (Some path) =>
      search_path_ok cart_env (1, 3) (0, 2) path ∧ NoDup path
  | _ => False
  end.
Proof.
  destruct (AStarSearch_search 100 cart_env "euclidean" (1, 3) (0, 2))
    as [[path|]| |] eqn:E.
  - exact (AStarSearch_search_path _ _ _ _ _ _ E).
  - vm_compute in E. discriminate E.
  - vm_compute in E. discriminate E.
  - vm_compute in E. discriminate E.
Defined.

(** ** Breadth-first search on a grid without moving obstacles *)

Lemma static_walk_lookup (e : GridEnvironment) (path : list Position) :
  (∀ (i : nat) p q, path !! i = Some p → path !! S i = Some q →
                    adjacent p q ∧ passable e q) →
  static_walk e path.
Proof.
  induction path as [|p [|q rest] IH]; intros H; [done | done |].
  destruct (H 0%nat p q eq_refl eq_refl) as [Hadj Hpass].
  split; [done |]. split; [done |]. apply IH.
  intros i p' q' Hp Hq. by apply (H (S i)).
Qed.

Lemma timed_walk_static (e : GridEnvironment) (path : list Position) :
  dynamic_obstacles e = [] → timed_walk e path → static_walk e path.
Proof.
  intros Hstatic Hw. apply static_walk_lookup. intros i p q Hp Hq.
  destruct (Hw i p q Hp Hq) as (Hadj & Hb & Ho). split; [done |].
  split; [done |]. rewrite is_obstructed_static in Ho by done.
  injection Ho as Ho. apply bool_decide_eq_false in Ho. by destruct q.
Qed.

Lemma search_path_ok_connects (e : GridEnvironment) (start goal : Position)
    (path : list Position) :
  dynamic_obstacles e = [] → search_path_ok e start goal path →
  connects e start goal path.
Proof.
  intros Hstatic (Hh & Hl & Hw). split; [done |]. split; [done |].
  by apply timed_walk_static.
Qed.

Lemma node_walk_time (e : GridEnvironment) (start : Position)
    (s n : SearchNode) :
  node_walk e start s → Node.parent s = Some n →
  Node.time s = Node.time n + 1.
Proof.
  destruct s as [c p t [par|] a d]; simpl; [| done].
  intros (_ & _ & _ & _ & -> & _) [= ->]. done.
Qed.

Lemma connects_length (e : GridEnvironment) (p q : Position)
    (w : list Position) : connects e p q w → (1 ≤ length w)%nat.
Proof. intros (Hh & _ & _). destruct w; [done | simpl; lia]. Qed.

Lemma bfs_levels_front (current : SearchNode) (queue : list SearchNode) :
  bfs_levels (current :: queue) →
  ∀ m, m ∈ current :: queue →
       Node.time current ≤ Node.time m ≤ Node.time current + 1.
Proof.
  intros (t & A & B & Hq & HA & HB) m Hm.
  rewrite Forall_forall in HA, HB.
  destruct A as [|a A]; simpl in Hq.
  - subst B. rewrite (HB current) by (by left). rewrite (HB m) by done. lia.
  - injection Hq as <- ->. rewrite (HA current) by (by left).
    apply elem_of_cons in Hm as [-> | Hm].
    + rewrite (HA current) by (by left). lia.
    + apply elem_of_app in Hm as [Hm | Hm].
      * rewrite (HA m) by (by right). lia.
      * rewrite (HB m) by done. lia.
Qed.

Lemma bfs_levels_step (current : SearchNode) (queue added : list SearchNode) :
  bfs_levels (current :: queue) →
  Forall (fun s => Node.time s = Node.time current + 1) added →
  bfs_levels (queue ++ added).
Proof.
  intros (t & A & B & Hq & HA & HB) Hadd.
  destruct A as [|a A]; simpl in Hq.
  - subst B. apply Forall_cons in HB as [Ht HB].
    exists (t + 1), queue, added. split; [done |]. split; [done |].
    by rewrite <- Ht.
  - injection Hq as <- ->. apply Forall_cons in HA as [Ht HA].
    exists t, A, (B ++ added). split; [by rewrite app_assoc |].
    split; [done |]. apply Forall_app. split; [done |]. by rewrite <- Ht.
Qed.

Lemma bfs_visit_spec (successors : list SearchNode) :
  ∀ queue visited queue' visited',
  bfs_visit successors queue visited = (queue', visited') →
  ∃ added,
    queue' = queue ++ added ∧
    (∀ s, s ∈ added → s ∈ successors) ∧
    (∀ p, p ∈ visited' ↔
          p ∈ visited ∨ ∃ s, s ∈ added ∧ Node.position s = p) ∧
    (∀ s, s ∈ successors → Node.position s ∈ visited').
Proof.
  induction successors as [|s successors IH];
    intros queue visited queue' visited'; simpl.
  - intros [= <- <-]. exists []. rewrite app_nil_r. split; [done |].
    split; [by intros s Hs; apply elem_of_nil in Hs |].
    split; [| by intros s Hs; apply elem_of_nil in Hs].
    intros p. split; [by left |]. intros [H | (s & Hs & _)]; [done |].
    by apply elem_of_nil in Hs.
  - destruct (bool_decide (Node.position s ∈ visited)) eqn:Hin.
    + apply bool_decide_eq_true in Hin. intros Hv.
      destruct (IH _ _ _ _ Hv) as (added & Hq & Hsub & Hvis & Hall).
      exists added. split; [done |].
      split; [intros s' Hs'; right; by apply Hsub |]. split; [done |].
      intros s' Hs'. apply elem_of_cons in Hs' as [-> | Hs'];
        [apply Hvis; by left | by apply Hall].
    + intros Hv.
      destruct (IH _ _ _ _ Hv) as (added & Hq & Hsub & Hvis & Hall).
      exists (s :: added). split; [by rewrite Hq, <- app_assoc |].
      split.
      { intros s' Hs'. apply elem_of_cons in Hs' as [-> | Hs'];
          [by left | right; by apply Hsub]. }
      split.
      { intros p. rewrite Hvis, elem_of_union, elem_of_singleton. split.
        - intros [[-> | Hp] | (s' & Hs' & Hp)].
          + right. exists s. split; [by left | done].
          + by left.
          + right. exists s'. split; [by right | done].
        - intros [Hp | (s' & Hs' & Hp)]; [left; by right |].
          apply elem_of_cons in Hs' as [-> | Hs'].
          + left. by left.
          + right. by exists s'. }
      intros s' Hs'. apply elem_of_cons in Hs' as [-> | Hs'];
        [| by apply Hall].
      apply Hvis. left. set_solver.
Qed.

Section bfs_static.
Variables (e : GridEnvironment) (start goal : Position).
Hypothesis Hstatic : dynamic_obstacles e = [].

(** A walk that leaves an expanded cell ends in an expanded cell or passes
    a node of the queue. *)
Lemma bfs_closed_walk (queue : list SearchNode) (visited : gset Position) :
  (∀ p, p ∈ visited →
     bfs_closed e goal visited p ∨ ∃ n, n ∈ queue ∧ Node.position n = p) →
  ∀ w p q, connects e p q w → bfs_closed e goal visited p →
  bfs_closed e goal visited q ∨
  ∃ m w', m ∈ queue ∧ connects e (Node.position m) q w' ∧
          (length w' < length w)%nat.
Proof.
  intros Hvis. induction w as [|p0 w IH]; intros p q (Hh & Hl & Hw) Hp;
    [done |].
  injection Hh as ->. destruct w as [|p1 w].
  - injection Hl as ->. by left.
  - destruct Hw as (Hadj & Hpass & Hw).
    assert (connects e p1 q (p1 :: w)) as Hc.
    { split; [done |]. split; [| done]. by rewrite last_cons_cons in Hl. }
    destruct Hp as (_ & _ & Hnb).
    destruct (Hvis p1 (Hnb p1 Hadj Hpass)) as [Hcl | (n & Hn & Hpn)].
    + destruct (IH p1 q Hc Hcl) as [Hq | (m & w' & Hm & Hc' & Hlen)];
        [by left |].
      right. exists m, w'. split; [done |]. split; [done |]. simpl in *. lia.
    + right. exists n, (p1 :: w). rewrite Hpn. split; [done |].
      split; [done |]. simpl. lia.
Qed.

Lemma bfs_closed_mono (visited visited' : gset Position) (p : Position) :
  visited ⊆ visited' → bfs_closed e goal visited p →
  bfs_closed e goal visited' p.
Proof.
  intros Hsub (Hp & Hg & Hnb). split; [by apply Hsub |]. split; [done |].
  intros p' Hadj Hpass. apply Hsub. by apply Hnb.
Qed.

Lemma bfs_inv_step (current : SearchNode) (queue : list SearchNode)
    (visited : gset Position) (successors : list SearchNode)
    (queue' : list SearchNode) (visited' : gset Position) :
  bfs_inv e start goal (current :: queue) visited →
  Node.position current ≠ goal →
  get_successors e current = Returned successors →
  bfs_visit successors queue visited = (queue', visited') →
  bfs_inv e start goal queue' visited'.
Proof.
  intros [Hnodes Horder Hvis Hbound] Hgoal Hs Hv.
  apply Forall_cons in Hnodes as [[Hwc Hinc] Hnodes].
  destruct (bfs_visit_spec _ _ _ _ _ Hv) as (added & -> & Hsub & Hvis' & Hall).
  assert (visited ⊆ visited') as Hmono.
  { intros p Hp. apply Hvis'. by left. }
  assert (∀ s, s ∈ successors →
               node_walk e start s ∧ Node.time s = Node.time current + 1)
    as Hsucc.
  { intros s Hin.
    destruct (get_successors_walk e start current successors Hs Hwc s Hin)
      as (Hws & Hpar & _).
    split; [done |]. by apply (node_walk_time e start). }
  assert (bfs_closed e goal visited' (Node.position current)) as Hclosed.
  { split; [by apply Hmono |]. split; [done |]. intros p' Hadj Hpass.
    destruct (get_successors_static e start current Hstatic)
      as (successors0 & Hs0 & _ & Hcover).
    rewrite Hs in Hs0. injection Hs0 as <-.
    destruct (Hcover p' Hadj Hpass) as (s & Hin & <-). by apply Hall. }
  assert (∀ p, p ∈ visited' →
               bfs_closed e goal visited' p
               ∨ ∃ n, n ∈ queue ++ added ∧ Node.position n = p) as Hvisited.
  { intros p Hp. apply Hvis' in Hp as [Hp | (s & Hin & <-)].
    - destruct (Hvis p Hp) as [Hcl | (n & Hn & <-)].
      + left. by apply (bfs_closed_mono visited).
      + apply elem_of_cons in Hn as [-> | Hn]; [by left |].
        right. exists n. split; [| done]. apply elem_of_app. by left.
    - right. exists s. split; [| done]. apply elem_of_app. by right. }
  split.
  - apply Forall_app. split.
    + eapply Forall_impl; [exact Hnodes |]. intros n [Hw Hin].
      split; [done | by apply Hmono].
    + apply Forall_forall. intros s Hin. split.
      * by apply Hsucc, Hsub.
      * apply Hvis'. right. by exists s.
  - apply (bfs_levels_step current); [done |].
    apply Forall_forall. intros s Hin. by apply Hsucc, Hsub.
  - exact Hvisited.
  - intros w q Hc.
    destruct (Hbound w q Hc) as [Hcl | (m & w' & Hm & Hc' & Hlen)].
    { left. by apply (bfs_closed_mono visited). }
    apply elem_of_cons in Hm as [-> | Hm].
    + destruct (bfs_closed_walk _ _ Hvisited w' _ q Hc' Hclosed)
        as [Hq | (m' & w'' & Hm' & Hc'' & Hlen')]; [by left |].
      right. exists m', w''. split; [done |]. split; [done |].
      assert (Node.time m' ≤ Node.time current + 1) as Ht.
      { apply elem_of_app in Hm' as [Hm' | Hm'].
        - apply (bfs_levels_front current queue Horder). by right.
        - destruct (Hsucc m' (Hsub m' Hm')) as [_ ->]. lia. }
      destruct (node_walk_path e start current Hwc) as (_ & _ & Ht0 & _).
      lia.
    + right. exists m, w'. split; [apply elem_of_app; by left | done].
Qed.

Lemma bfs_loop_static (fuel : nat) :
  ∀ queue visited r,
  bfs_inv e start goal queue visited →
  bfs_loop fuel e goal queue visited = Returned r →
  match r with
  | Some path =>
      ∃ n, path = reconstruct_path n ∧ node_walk e start n ∧
           Node.position n = goal ∧
           ∀ w, connects e start goal w →
                (S (Z.to_nat (Node.time n)) ≤ length w)%nat
  | None => ∀ w, ¬ connects e start goal w
  end.
Proof.
  induction fuel as [|fuel IH]; intros queue visited r Hinv; simpl; [done |].
  destruct queue as [|current queue'].
  - intros [= <-] w Hc.
    destruct (bfs_bound _ _ _ _ _ Hinv w goal Hc)
      as [(_ & Hg & _) | (m & _ & Hm & _)]; [done |].
    by apply elem_of_nil in Hm.
  - destruct (Position_eqb (Node.position current) goal) eqn:Hg.
    + intros [= <-]. apply Position_eqb_eq in Hg. exists current.
      pose proof (bfs_nodes _ _ _ _ _ Hinv) as Hnodes.
      apply Forall_cons in Hnodes as [[Hwc _] _].
      split; [done |]. split; [done |]. split; [done |]. intros w Hc.
      destruct (node_walk_path e start current Hwc) as (_ & _ & Ht0 & _).
      destruct (bfs_bound _ _ _ _ _ Hinv w goal Hc)
        as [(_ & Hne & _) | (m & w' & Hm & Hc' & Hlen)]; [done |].
      pose proof (bfs_levels_front current queue'
                    (bfs_order _ _ _ _ _ Hinv) m Hm) as Ht.
      pose proof (connects_length _ _ _ _ Hc'). lia.
    + apply Position_eqb_neq in Hg.
      destruct (get_successors e current) as [successors| |] eqn:Hs; simpl;
        [| done | done].
      destruct (bfs_visit successors queue' visited) as [queue'' visited']
        eqn:Hv.
      apply IH. by apply (bfs_inv_step current queue' visited successors).
Qed.

Lemma bfs_inv_start : bfs_inv e start goal [SearchNode_start start] {[start]}.
Proof.
  split.
  - apply Forall_cons. split; [| constructor]. split; [done |]. set_solver.
  - exists 0, [SearchNode_start start], []. split; [done |].
    split; [| constructor]. apply Forall_cons. split; [done | constructor].
  - intros p Hp. apply elem_of_singleton in Hp as ->. right.
    exists (SearchNode_start start). split; [by left | done].
  - intros w q Hc. right. exists (SearchNode_start start), w.
    split; [by left |]. split; [done |]. simpl. lia.
Qed.
End bfs_static.

(** X7: on a grid without moving obstacles breadth-first search returns a
    walk over passable cells from [start] to [goal] that has no more cells
    than any other such walk; it returns [None] only when no walk leads from
    [start] to [goal]; and with the fuel [search_fuel] it returns. *)
Theorem BFS_search_static (fuel : nat) (e : GridEnvironment)
    (start goal : Position) :
  dynamic_obstacles e = [] →
  (∀ path, BFS_search fuel e start goal = Returned (Some path) →
     connects e start goal path ∧
     ∀ w, connects e start goal w → (length path ≤ length w)%nat) ∧
  (BFS_search fuel e start goal = Returned None →
   ∀ w, ¬ connects e start goal w) ∧
  ((search_fuel e ≤ fuel)%nat →
   ∃ r, BFS_search fuel e start goal = Returned r).
Proof.
  intros Hstatic. split; [| split].
  - intros path Hs.
    destruct (bfs_loop_static e start goal Hstatic fuel _ _ _
                (bfs_inv_start e start goal Hstatic) Hs)
      as (n & -> & Hw & Hg & Hmin).
    split.
    + apply search_path_ok_connects; [done |].
      by apply node_walk_search_path.
    + intros w Hc.
      destruct (node_walk_path e start n Hw) as (_ & _ & _ & -> & _).
      by apply Hmin.
  - intros Hs.
    exact (bfs_loop_static e start goal Hstatic fuel _ _ _
             (bfs_inv_start e start goal Hstatic) Hs).
  - apply BFS_search_returns. by apply static_env_ok.
Qed.

Lemma BFS_search_static_witness :
  match BFS_search 200 blocked_env (0, 0) (3, 0) with
  | Returned (Some path) =>
      connects blocked_env (0, 0) (3, 0) path ∧
      ∀ w, connects blocked_env (0, 0) (3, 0) w → (length path ≤ length w)%nat
  | _ => False
  end.
Proof.
  destruct (BFS_search 200 blocked_env (0, 0) (3, 0)) as [[path|]| |] eqn:E.
  - exact (proj1 (BFS_search_static 200 blocked_env (0, 0) (3, 0) eq_refl)
             path E).
  - vm_compute in E. discriminate E.
  - vm_compute in E. discriminate E.
  - vm_compute in E. discriminate E.
Defined.

(** ** Uniform-cost search on a grid without moving obstacles *)

Lemma reach_eq (e : GridEnvironment) (start q : Position) (c c' : Z) :
  reach e start q c → c = c' → reach e start q c'.
Proof. by intros H <-. Qed.

Lemma reach_prepend (e : GridEnvironment) (p q r : Position) (c : Z) :
  adjacent p q → passable e q → reach e q r c →
  reach e p r (get_terrain_cost e q.1 q.2 + c).
Proof.
  intros Hadj Hpass Hr. induction Hr as [|r r' c Hr IH Hadj' Hpass'].
  - eapply reach_eq; [apply (reach_step e p p q 0); [constructor | done..] |].
    lia.
  - eapply reach_eq; [apply (reach_step e p r r' _ IH Hadj' Hpass') |]. lia.
Qed.

Lemma connects_reach (e : GridEnvironment) (w : list Position) :
  ∀ start goal, connects e start goal w →
  reach e start goal (route_cost e w).
Proof.
  induction w as [|p w IH]; intros start goal (Hh & Hl & Hw); [done |].
  injection Hh as ->. destruct w as [|q w].
  - injection Hl as ->. constructor.
  - destruct Hw as (Hadj & Hpass & Hw). rewrite last_cons_cons in Hl.
    pose proof (IH q goal ltac:(done)) as Hr.
    eapply reach_eq; [exact (reach_prepend e start q goal _ Hadj Hpass Hr) |].
    unfold route_cost, cells_cost. simpl. destruct q. done.
Qed.

Lemma static_walk_snoc (e : GridEnvironment) (l : list Position)
    (p q : Position) :
  static_walk e l → last l = Some p → adjacent p q → passable e q →
  static_walk e (l ++ [q]).
Proof.
  induction l as [|a [|b l] IH]; intros Hw Hl Hadj Hpass; [done | |].
  - injection Hl as ->. done.
  - destruct Hw as (Hab & Hb & Hw). rewrite last_cons_cons in Hl.
    split; [done |]. split; [done |]. by apply IH.
Qed.

Lemma node_ok_connects (e : GridEnvironment) (start : Position)
    (n : SearchNode) :
  node_ok e start n →
  connects e start (Node.position n) (reconstruct_path n).
Proof.
  induction n as [c p t a d | c p t parent a d IH] using SearchNode_chain_ind.
  - simpl. intros [-> ->]. done.
  - simpl. intros (Hpar & Hadj & Hpass & _).
    destruct (IH Hpar) as (Hh & Hl & Hw). rewrite reconstruct_path_child.
    split; [| split].
    + destruct (reconstruct_path parent); done.
    + by rewrite last_snoc.
    + by apply (static_walk_snoc e _ (Node.position parent)).
Qed.

Lemma reach_cost_nonneg0 (e : GridEnvironment) (start q : Position) (c : Z) :
  (∀ x y, 0 ≤ grid e y x) → reach e start q c → 0 ≤ c.
Proof.
  intros Hcost Hr. induction Hr as [|q q' c Hr IH Hadj Hpass]; [done |].
  pose proof (get_terrain_cost_nonneg e q'.1 q'.2 Hcost). lia.
Qed.

Lemma heappop_None {A : Type} (lt : A → A → bool) (heap : list A) :
  heappop lt heap = None → heap = [].
Proof.
  unfold heappop. destruct (last heap) eqn:E.
  - destruct (removelast heap); done.
  - intros _. by apply last_None.
Qed.

Lemma ucs_static_entry_int (e : GridEnvironment) (start : Position)
    (visited_costs : gmap Position Z) (entry : Key * SearchNode) :
  ucs_static_entry e start visited_costs entry → int_keyed entry.
Proof. intros (_ & Hk & _). by eexists. Qed.

Section ucs_static.
Variables (e : GridEnvironment) (start goal : Position).
Hypothesis Hstatic : dynamic_obstacles e = [].
Hypothesis Hcost : ∀ x y, 0 ≤ grid e y x.

Lemma ucs_done_mono (vc vc' : gmap Position Z) (p : Position) (c : Z) :
  (∀ q cq, vc !! q = Some cq → ∃ cq', vc' !! q = Some cq' ∧ cq' ≤ cq) →
  ucs_done e start goal vc p c → ucs_done e start goal vc' p c.
Proof.
  intros Hmono (Hg & Hopt & Hnb). split; [done |]. split; [done |].
  intros p' Hadj Hpass. destruct (Hnb p' Hadj Hpass) as (c' & Hc' & Hle).
  destruct (Hmono p' c' Hc') as (c'' & Hc'' & Hle'). exists c''.
  split; [done | lia].
Qed.

Lemma ucs_filed_heappush (frontier : list (Key * SearchNode))
    (item : Key * SearchNode) (p : Position) (c : Z) :
  ucs_filed frontier p c → ucs_filed (heappush entry_lt frontier item) p c.
Proof.
  intros (n & Hn & Hp). exists n. split; [| done].
  apply heappush_shape. by right.
Qed.

Lemma ucs_visit_static (skip : option Position)
    (successors : list SearchNode) :
  (∀ s, s ∈ successors → node_ok e start s) →
  ∀ frontier vc frontier' vc',
  ucs_visit successors frontier vc = (frontier', vc') →
  heap_ok entry_lt frontier →
  Forall (ucs_static_entry e start vc) frontier →
  ucs_costs_ok e start goal skip frontier vc →
  vc !! start = Some 0 →
  heap_ok entry_lt frontier' ∧
  Forall (ucs_static_entry e start vc') frontier' ∧
  ucs_costs_ok e start goal skip frontier' vc' ∧
  vc' !! start = Some 0 ∧
  (∀ q cq, vc !! q = Some cq → ∃ cq', vc' !! q = Some cq' ∧ cq' ≤ cq) ∧
  (∀ s, s ∈ successors →
        ∃ c', vc' !! Node.position s = Some c' ∧ c' ≤ Node.cost s).
Proof.
  induction successors as [|s successors IH];
    intros Hsucc frontier vc frontier' vc'; simpl.
  - intros [= <- <-] Hheap Hent Hcosts Hstart.
    split; [done |]. split; [done |]. split; [done |]. split; [done |].
    split; [intros q cq Hq; exists cq; split; [done | lia] |].
    intros s Hs. by apply elem_of_nil in Hs.
  - assert (∀ s', s' ∈ successors → node_ok e start s') as Hsucc'
      by (intros s' Hs'; apply Hsucc; by right).
    pose proof (Hsucc s ltac:(by left)) as Hs.
    destruct (match vc !! Node.position s with
              | Some c => Node.cost s <? c
              | None => true
              end) eqn:Hbetter.
    + intros Hv Hheap Hent Hcosts Hstart.
      set (item := (KInt (Node.cost s), s)) in *.
      set (vc1 := <[Node.position s := Node.cost s]> vc) in *.
      assert (∀ q cq, vc !! q = Some cq →
                      ∃ cq', vc1 !! q = Some cq' ∧ cq' ≤ cq) as Hmono1.
      { intros q cq Hq. destruct (decide (q = Node.position s)) as [-> | Hne].
        - exists (Node.cost s). unfold vc1. rewrite lookup_insert.
          rewrite decide_True by done.
          split; [done |]. rewrite Hq in Hbetter. lia.
        - exists cq. unfold vc1. rewrite lookup_insert_ne by done.
          split; [done | lia]. }
      assert (ucs_static_entry e start vc1 item) as Hitem.
      { split; [done |]. split; [done |]. exists (Node.cost s).
        unfold vc1. simpl. rewrite lookup_insert, decide_True by done.
        split; [done | lia]. }
      assert (Forall (ucs_static_entry e start vc1) frontier) as Hent1.
      { eapply Forall_impl; [exact Hent |].
        intros entry (Hn & Hk & c & Hc & Hle). split; [done |].
        split; [done |]. destruct (Hmono1 _ _ Hc) as (c' & Hc' & Hle').
        exists c'. split; [done | lia]. }
      destruct (heappush_spec entry_lt int_keyed entry_lt_int_asym
                  entry_lt_int_trans frontier item) as (Hheap1 & _ & _ & _).
      { eapply Forall_impl; [exact Hent |].
        apply ucs_static_entry_int. }
      { by eexists. }
      { done. }
      destruct (IH Hsucc' _ _ _ _ Hv Hheap1) as (H1 & H2 & H3 & H4 & H5 & H6).
      * by apply Forall_heappush.
      * intros p c Hp. destruct (decide (p = Node.position s)) as [-> | Hne].
        -- unfold vc1 in Hp. rewrite lookup_insert, decide_True in Hp by done.
           injection Hp as <-.
           split; [by apply node_ok_reach |]. right. right. exists s.
           split; [| done]. apply heappush_shape. by left.
        -- unfold vc1 in Hp. rewrite lookup_insert_ne in Hp by done.
           destruct (Hcosts p c Hp) as [Hr [Hskip | [Hdone | Hfiled]]].
           ++ split; [done |]. by left.
           ++ split; [done |]. right. left.
              by apply (ucs_done_mono vc).
           ++ split; [done |]. right. right. by apply ucs_filed_heappush.
      * unfold vc1. rewrite lookup_insert_ne; [done |].
        intros Heq. rewrite Heq, Hstart in Hbetter.
        destruct (node_ok_reach e start s Hs) as (Hr & _).
        pose proof (reach_cost_nonneg0 e start _ _ Hcost Hr). lia.
      * split; [done |]. split; [done |]. split; [done |]. split; [done |].
        split.
        -- intros q cq Hq. destruct (Hmono1 q cq Hq) as (c1 & Hc1 & Hle1).
           destruct (H5 q c1 Hc1) as (c2 & Hc2 & Hle2). exists c2.
           split; [done | lia].
        -- intros s' Hs'. apply elem_of_cons in Hs' as [-> | Hs'];
             [| by apply H6].
           destruct (H5 (Node.position s) (Node.cost s)) as (c2 & Hc2 & Hle2).
           { unfold vc1. by rewrite lookup_insert, decide_True. }
           by exists c2.
    + intros Hv Hheap Hent Hcosts Hstart.
      destruct (IH Hsucc' _ _ _ _ Hv Hheap Hent Hcosts Hstart)
        as (H1 & H2 & H3 & H4 & H5 & H6).
      split; [done |]. split; [done |]. split; [done |]. split; [done |].
      split; [done |].
      intros s' Hs'. apply elem_of_cons in Hs' as [-> | Hs']; [| by apply H6].
      destruct (vc !! Node.position s) as [c|] eqn:Hc; [| done].
      destruct (H5 _ _ Hc) as (c' & Hc' & Hle). exists c'.
      split; [done | lia].
Qed.

Lemma ucs_frontier_bound (frontier : list (Key * SearchNode))
    (vc : gmap Position Z) (q : Position) (c : Z) :
  ucs_inv e start goal frontier vc → reach e start q c →
  (∃ c', vc !! q = Some c' ∧ c' ≤ c ∧ ucs_done e start goal vc q c') ∨
  (∃ k n, (KInt k, n) ∈ frontier ∧ k ≤ c).
Proof.
  intros [Hheap Hent Hcosts Hstart] Hr.
  induction Hr as [|q q' c Hr IH Hadj Hpass].
  - destruct (Hcosts start 0 Hstart) as [_ [Hskip | [Hdone | (n & Hn & _)]]];
      [done | |].
    + left. exists 0. split; [done |]. split; [lia | done].
    + right. exists 0, n. split; [done | lia].
  - pose proof (get_terrain_cost_nonneg e q'.1 q'.2 Hcost) as Hnn.
    destruct IH as [(c1 & Hc1 & Hle1 & (_ & _ & Hnb)) | (k & n & Hn & Hle)].
    + destruct (Hnb q' Hadj Hpass) as (c' & Hc' & Hle').
      destruct (Hcosts q' c' Hc') as [_ [Hskip | [Hdone | (n & Hn & _)]]];
        [done | |].
      * left. exists c'. split; [done |]. split; [lia | done].
      * right. exists c', n. split; [done | lia].
    + right. exists k, n. split; [done | lia].
Qed.

Lemma ucs_loop_static (fuel : nat) :
  ∀ frontier vc r,
  ucs_inv e start goal frontier vc →
  ucs_loop fuel e goal frontier vc = Returned r →
  match r with
  | Some path =>
      ∃ n, path = reconstruct_path n ∧ node_ok e start n ∧
           Node.position n = goal ∧
           ∀ c, reach e start goal c → Node.cost n ≤ c
  | None => ∀ c, ¬ reach e start goal c
  end.
Proof.
  induction fuel as [|fuel IH]; intros frontier vc r Hinv; simpl; [done |].
  destruct (heappop entry_lt frontier) as [[[current_cost current] frontier']|]
    eqn:Hpop.
  2:{ apply heappop_None in Hpop as ->. intros [= <-] c Hr.
      destruct (ucs_frontier_bound [] vc goal c Hinv Hr)
        as [(c' & _ & _ & (Hg & _)) | (k & n & Hn & _)]; [done |].
      by apply elem_of_nil in Hn. }
  pose proof Hinv as [Hheap Hent Hcosts Hstart].
  destruct (heappop_spec entry_lt int_keyed entry_lt_int_asym
              entry_lt_int_trans frontier _ _
              ltac:(eapply Forall_impl; [exact Hent |];
                    apply ucs_static_entry_int) Hheap Hpop)
    as (Hheap' & _ & _ & _ & Hmem & Hmin).
  destruct (Forall_heappop _ _ _ _ _ Hent Hpop)
    as [(Hnc & Hkey & cv & Hcv & Hlecv) Hent'].
  simpl in Hnc, Hkey, Hcv, Hlecv. subst current_cost. rewrite Hcv.
  simpl.
  assert (∀ k n, (KInt k, n) ∈ frontier → Node.cost current ≤ k) as Hleast.
  { intros k n Hn. apply Hmem in Hn as [[= -> ->] | Hn]; [lia |].
    apply Hmin in Hn. by apply entry_lt_int_false in Hn. }
  destruct (cv <? Node.cost current) eqn:Hstale.
  - apply IH. split; [done | done | | done].
    intros p c Hp. destruct (Hcosts p c Hp) as [Hr [Hskip | [Hdone | Hf]]];
      [done | |].
    + split; [done |]. right. by left.
    + split; [done |]. right. right.
      destruct Hf as (n & Hn & Hpn). exists n. split; [| done].
      apply Hmem in Hn as [[= -> ->] | Hn]; [| done].
      rewrite Hpn, Hp in Hcv. injection Hcv as <-. lia.
  - assert (cv = Node.cost current) as -> by lia.
    assert (∀ c0, reach e start (Node.position current) c0 →
                  Node.cost current ≤ c0) as Hopt.
    { intros c0 Hr.
      destruct (ucs_frontier_bound frontier vc _ c0 Hinv Hr)
        as [(c' & Hc' & Hle & _) | (k & n & Hn & Hle)].
      - rewrite Hcv in Hc'. injection Hc' as <-. done.
      - pose proof (Hleast k n Hn). lia. }
    destruct (Position_eqb (Node.position current) goal) eqn:Hg.
    + intros [= <-]. apply Position_eqb_eq in Hg. exists current.
      split; [done |]. split; [done |]. split; [done |]. by rewrite <- Hg.
    + apply Position_eqb_neq in Hg.
      destruct (get_successors_static e start current Hstatic)
        as (successors & Hs & Hsucc & Hcover).
      rewrite Hs. simpl.
      destruct (ucs_visit successors frontier' vc) as [frontier'' vc']
        eqn:Hv.
      apply IH.
      destruct (ucs_visit_static (Some (Node.position current)) successors
                  ltac:(intros s Hin; by apply Hsucc) _ _ _ _ Hv Hheap'
                  Hent')
        as (H1 & H2 & H3 & H4 & H5 & H6); [| done |].
      { intros p c Hp.
        destruct (Hcosts p c Hp) as [Hr [Hskip | [Hdone | Hf]]]; [done | |].
        - split; [done |]. right. by left.
        - split; [done |]. destruct Hf as (n & Hn & Hpn).
          apply Hmem in Hn as [[= -> ->] | Hn].
          + left. by rewrite Hpn.
          + right. right. by exists n. }
      split; [done | done | | done].
      intros p c Hp. destruct (H3 p c Hp) as [Hr [Hskip | Hrest]];
        [| split; [done | by right]].
      split; [done |]. right. left. injection Hskip as <-.
      destruct (H5 _ _ Hcv) as (c' & Hc' & Hle').
      rewrite Hp in Hc'. injection Hc' as <-.
      pose proof (Hopt c Hr). assert (c = Node.cost current) as -> by lia.
      split; [done |]. split; [done |]. intros p' Hadj Hpass.
      destruct (Hcover p' Hadj Hpass) as (s & Hin & <-).
      destruct (H6 s Hin) as (c' & Hc' & Hle'').
      destruct (Hsucc s Hin) as (_ & _ & Hcs & _).
      exists c'. split; [done | lia].
Qed.

Lemma ucs_inv_start :
  ucs_inv e start goal
    (heappush entry_lt [] (KInt 0, SearchNode_start start)) {[start := 0]}.
Proof.
  split.
  - intros i c p Hi Hc Hp. apply lookup_lt_Some in Hc.
    pose proof (heappush_shape entry_lt [] (KInt 0, SearchNode_start start))
      as [Hlen _]. rewrite Hlen in Hc. simpl in Hc. lia.
  - apply Forall_heappush; [constructor |]. split; [done |].
    split; [done |]. exists 0. simpl. rewrite lookup_singleton.
    rewrite ?decide_True by done. split; [done | lia].
  - intros p c Hp. apply lookup_singleton_Some in Hp as [<- <-].
    split; [constructor |]. right. right. exists (SearchNode_start start).
    split; [| done]. apply heappush_shape. by left.
  - rewrite lookup_singleton. by rewrite ?decide_True by done.
Qed.
End ucs_static.

(** ** A* on a grid without moving obstacles: a path is found when there is
    one *)

Lemma astar_covered_mono (frontier frontier' : list (Key * SearchNode))
    (visited visited' : gset Position) (p : Position) :
  (∀ entry, entry ∈ frontier →
            entry ∈ frontier' ∨ Node.position entry.2 ∈ visited') →
  visited ⊆ visited' →
  astar_covered frontier visited p → astar_covered frontier' visited' p.
Proof.
  intros Hf Hv [Hp | (entry & Hin & <-)]; [left; by apply Hv |].
  destruct (Hf entry Hin) as [Hin' | Hin']; [right; by exists entry | by left].
Qed.

Lemma astar_visit_cover (e : GridEnvironment) (heuristic : string)
    (goal : Position) (current : SearchNode) (visited : gset Position)
    (successors : list SearchNode) :
  ∀ frontier g_costs frontier' g_costs',
  astar_visit e heuristic goal current visited successors frontier g_costs
  = (frontier', g_costs') →
  (∀ p, is_Some (g_costs !! p) → astar_covered frontier visited p) →
  (∀ p, is_Some (g_costs' !! p) → astar_covered frontier' visited p) ∧
  (∀ entry, entry ∈ frontier → entry ∈ frontier') ∧
  (∀ p, is_Some (g_costs !! p) → is_Some (g_costs' !! p)) ∧
  (∀ s, s ∈ successors → astar_covered frontier' visited (Node.position s)).
Proof.
  induction successors as [|s successors IH];
    intros frontier g_costs frontier' g_costs'; simpl.
  - intros [= <- <-] Hknown. split; [done |]. split; [done |].
    split; [done |]. intros s Hs. by apply elem_of_nil in Hs.
  - destruct (bool_decide (Node.position s ∈ visited)) eqn:Hin.
    { apply bool_decide_eq_true in Hin. intros Hv Hknown.
      destruct (IH _ _ _ _ Hv Hknown) as (H1 & H2 & H3 & H4).
      split; [done |]. split; [done |]. split; [done |].
      intros s' Hs'. apply elem_of_cons in Hs' as [-> | Hs'];
        [by left | by apply H4]. }
    destruct (match g_costs !! Node.position s with
              | Some c => _
              | None => true
              end) eqn:Hbetter.
    + intros Hv Hknown.
      destruct (IH _ _ _ _ Hv) as (H1 & H2 & H3 & H4).
      { intros p Hp. destruct (decide (p = Node.position s)) as [-> | Hne].
        - right. eexists. split; [apply heappush_shape; by left | done].
        - rewrite lookup_insert_ne in Hp by done.
          destruct (Hknown p Hp) as [Hp' | (entry & Hin' & <-)]; [by left |].
          right. exists entry. split; [| done]. apply heappush_shape.
          by right. }
      split; [done |].
      split; [intros entry Hin'; apply H2, heappush_shape; by right |].
      split.
      { intros p Hp. apply H3.
        destruct (decide (p = Node.position s)) as [-> | Hne].
        - rewrite lookup_insert, decide_True by done. done.
        - by rewrite lookup_insert_ne by done. }
      intros s' Hs'. apply elem_of_cons in Hs' as [-> | Hs'];
        [| by apply H4].
      right. eexists. split; [apply H2, heappush_shape; by left | done].
    + intros Hv Hknown.
      destruct (IH _ _ _ _ Hv Hknown) as (H1 & H2 & H3 & H4).
      split; [done |]. split; [done |]. split; [done |].
      intros s' Hs'. apply elem_of_cons in Hs' as [-> | Hs'];
        [| by apply H4].
      destruct (g_costs !! Node.position s) as [c|] eqn:Hc; [| done].
      apply H1, H3. by rewrite Hc.
Qed.

Section astar_static.
Variables (e : GridEnvironment) (heuristic : string) (start goal : Position).
Hypothesis Hstatic : dynamic_obstacles e = [].

Lemma astar_cover_reach (g_costs : gmap Position Z)
    (visited : gset Position) (q : Position) (c : Z) :
  astar_cover_inv e start goal [] g_costs visited →
  reach e start q c → q ∈ visited.
Proof.
  intros [Hclosed Hknown Hstart] Hr.
  assert (∀ p, astar_covered [] visited p → p ∈ visited) as Hcov.
  { intros p [Hp | (entry & Hin & _)]; [done |]. by apply elem_of_nil in Hin. }
  induction Hr as [|q q' c Hr IH Hadj Hpass].
  - by apply Hcov, Hknown.
  - apply Hcov. by apply (proj2 (Hclosed q IH)).
Qed.

Lemma astar_loop_complete (fuel : nat) :
  ∀ frontier g_costs visited,
  astar_cover_inv e start goal frontier g_costs visited →
  astar_loop fuel e heuristic goal frontier g_costs visited = Returned None →
  ∀ c, ¬ reach e start goal c.
Proof.
  induction fuel as [|fuel IH]; intros frontier g_costs visited Hinv; simpl;
    [done |].
  destruct (heappop entry_lt frontier) as [[[current_f current] frontier']|]
    eqn:Hpop.
  2:{ apply heappop_None in Hpop as ->. intros _ c Hr.
      pose proof (astar_cover_reach _ _ _ _ Hinv Hr) as Hg.
      by destruct (cover_closed _ _ _ _ _ _ Hinv goal Hg). }
  destruct (heappop_shape entry_lt _ _ _ Hpop) as [_ Hmem].
  destruct Hinv as [Hclosed Hknown Hstart].
  destruct (bool_decide (Node.position current ∈ visited)) eqn:Hin.
  - apply bool_decide_eq_true in Hin. apply IH.
    assert (∀ p, astar_covered frontier visited p →
                 astar_covered frontier' visited p) as Hcov.
    { intros p. apply astar_covered_mono; [| done]. intros entry Hentry.
      apply Hmem in Hentry as [-> | Hentry]; [by right | by left]. }
    split; [| by intros p Hp; apply Hcov, Hknown | done].
    intros p Hp. destruct (Hclosed p Hp) as [Hg Hnb]. split; [done |].
    intros p' Hadj Hpass. by apply Hcov, Hnb.
  - apply bool_decide_eq_false in Hin.
    destruct (Position_eqb (Node.position current) goal) eqn:Hg; [done |].
    apply Position_eqb_neq in Hg.
    destruct (get_successors_static e start current Hstatic)
      as (successors & Hs & _ & Hcover).
    rewrite Hs. simpl.
    destruct (astar_visit e heuristic goal current _ successors frontier'
                g_costs) as [frontier'' g_costs'] eqn:Hv.
    apply IH.
    set (visited' := {[Node.position current]} ∪ visited) in *.
    assert (∀ p, astar_covered frontier visited p →
                 astar_covered frontier' visited' p) as Hcov.
    { intros p. apply astar_covered_mono; [| set_solver]. intros entry Hentry.
      apply Hmem in Hentry as [-> | Hentry]; [right; set_solver | by left]. }
    destruct (astar_visit_cover _ _ _ _ _ _ _ _ _ _ Hv
                ltac:(intros p Hp; by apply Hcov, Hknown))
      as (H1 & H2 & H3 & H4).
    assert (∀ p, astar_covered frontier' visited' p →
                 astar_covered frontier'' visited' p) as Hcov'.
    { intros p. apply astar_covered_mono; [| done]. intros entry Hentry. left.
      by apply H2. }
    split; [| done | by apply H3].
    intros p Hp. apply elem_of_union in Hp as [Hp | Hp].
    + apply elem_of_singleton in Hp as ->. split; [done |].
      intros p' Hadj Hpass. destruct (Hcover p' Hadj Hpass) as (s & Hins & <-).
      by apply H4.
    + destruct (Hclosed p Hp) as [Hgp Hnb]. split; [done |].
      intros p' Hadj Hpass. by apply Hcov', Hcov, Hnb.
Qed.

Lemma astar_cover_inv_start :
  astar_cover_inv e start goal
    (heappush entry_lt [] (calculate_heuristic heuristic start goal,
                           SearchNode_start start))
    {[start := 0]} ∅.
Proof.
  split.
  - intros p Hp. by apply elem_of_empty in Hp.
  - intros p [c Hp]. apply lookup_singleton_Some in Hp as [<- _].
    right. eexists. split; [apply heappush_shape; by left | done].
  - rewrite lookup_singleton, ?decide_True by done. done.
Qed.
End astar_static.



(** ** The three searches on one static grid *)

Lemma search_found_connects (e : GridEnvironment) (start goal : Position)
    (path : list Position) :
  dynamic_obstacles e = [] →
  (∃ fuel, BFS_search fuel e start goal = Returned (Some path)) ∨
  (∃ fuel, UniformCostSearch_search fuel e start goal = Returned (Some path)) ∨
  (∃ fuel heuristic,
     AStarSearch_search fuel e heuristic start goal = Returned (Some path)) →
  connects e start goal path.
Proof.
  intros Hstatic H. apply search_path_ok_connects; [done |].
  destruct H as [[fuel H] | [[fuel H] | (fuel & heuristic & H)]].
  - apply (bfs_loop_path e start goal) in H as (n & -> & Hw & Hg & _).
    + by apply node_walk_search_path.
    + apply Forall_cons. split; [| constructor].
      split; [done |]. split; [apply NoDup_singleton |].
      intros p Hp. simpl in Hp. set_solver.
  - apply (ucs_loop_path e start goal) in H as (n & -> & Hw & Hg).
    + by apply node_walk_search_path.
    + apply Forall_heappush; [constructor | done].
  - apply (astar_loop_path e heuristic start goal) in H
      as (n & -> & Hw & Hg & _).
    + by apply node_walk_search_path.
    + apply Forall_heappush; [constructor |].
      split; [done |]. split; [apply NoDup_singleton |].
      intros p Hp. simpl in Hp. set_solver.
Qed.

Lemma search_none_unreachable (e : GridEnvironment) (start goal : Position) :
  dynamic_obstacles e = [] →
  (∃ fuel, BFS_search fuel e start goal = Returned None) ∨
  ((∀ x y, 0 ≤ grid e y x) ∧
   ∃ fuel, UniformCostSearch_search fuel e start goal = Returned None) ∨
  (∃ fuel heuristic,
     AStarSearch_search fuel e heuristic start goal = Returned None) →
  ∀ w, ¬ connects e start goal w.
Proof.
  intros Hstatic H w Hc.
  destruct H as [[fuel H] | [[Hcost [fuel H]] | (fuel & heuristic & H)]].
  - exact (bfs_loop_static e start goal Hstatic fuel _ _ _
             (bfs_inv_start e start goal Hstatic) H w Hc).
  - exact (ucs_loop_static e start goal Hstatic Hcost fuel _ _ _
             (ucs_inv_start e start goal) H _ (connects_reach e w _ _ Hc)).
  - exact (astar_loop_complete e heuristic start goal Hstatic fuel _ _ _
             (astar_cover_inv_start e heuristic start goal) H _
             (connects_reach e w _ _ Hc)).
Qed.

(** ** The integer heuristics of A* *)

Lemma heuristic_value_facts (heuristic : string) (p goal : Position) :
  0 ≤ heuristic_value heuristic goal p ∧
  heuristic_value heuristic p goal = heuristic_value heuristic goal p ∧
  heuristic_value heuristic goal goal = 0.
Proof.
  unfold heuristic_value, calculate_heuristic. destruct p as [x1 y1].
  destruct goal as [x2 y2].
  destruct (String.eqb heuristic "manhattan");
    [split; [lia |]; split; [lia | lia] |].
  destruct (String.eqb heuristic "euclidean"); [done |].
  destruct (String.eqb heuristic "chebyshev");
    [split; [lia |]; split; [lia | lia] | done].
Qed.

Lemma heuristic_value_walk (e : GridEnvironment) (heuristic : string)
    (goal : Position) (w : list Position) :
  (∀ x y, 1 ≤ grid e y x) →
  ∀ p, connects e p goal w → heuristic_value heuristic goal p ≤ route_cost e w.
Proof.
  intros Hcost. induction w as [|p0 w IH]; intros p (Hh & Hl & Hw); [done |].
  injection Hh as Hh. subst p0. destruct w as [|q w].
  - injection Hl as Hl. subst goal.
    destruct (heuristic_value_facts heuristic p p) as (_ & _ & ->). done.
  - destruct Hw as (Hadj & Hpass & Hw). rewrite last_cons_cons in Hl.
    pose proof (IH q ltac:(done)) as Hq.
    pose proof (heuristic_value_step heuristic goal p q Hadj) as Hstep.
    pose proof (get_terrain_cost_positive e q.1 q.2 Hcost) as Hc.
    unfold route_cost, cells_cost in *. simpl in *. destruct q. simpl in *.
    rewrite drop_0 in Hq. lia.
Qed.

(** X11: the heuristics other than the Euclidean one are integers that are
    not negative, symmetric in their two cells and zero at the goal; they
    change by at most 1 along a step; and where every terrain cost is at
    least 1 their value at [p] is at most the total terrain cost of any walk
    from [p] to the goal.  A heuristic name that is none of the three gives
    zero. *)
Theorem calculate_heuristic_admissible (e : GridEnvironment)
    (heuristic : string) (p goal : Position) :
  heuristic ≠ "euclidean"%string →
  ∃ z, calculate_heuristic heuristic p goal = KInt z ∧
       0 ≤ z ∧
       calculate_heuristic heuristic goal p = KInt z ∧
       calculate_heuristic heuristic goal goal = KInt 0 ∧
       (∀ q, adjacent p q →
             ∃ z', calculate_heuristic heuristic q goal = KInt z' ∧
                   z ≤ 1 + z') ∧
       ((∀ x y, 1 ≤ grid e y x) →
        ∀ w, connects e p goal w → z ≤ route_cost e w).
Proof.
  intros Hint. exists (heuristic_value heuristic goal p).
  destruct (heuristic_value_facts heuristic p goal) as (Hnn & Hsym & Hzero).
  split; [by apply calculate_heuristic_int |]. split; [done |].
  split; [rewrite <- Hsym; by apply calculate_heuristic_int |].
  split; [rewrite <- Hzero; by apply calculate_heuristic_int |].
  split.
  - intros q Hadj. exists (heuristic_value heuristic goal q).
    split; [by apply calculate_heuristic_int |].
    by apply heuristic_value_step.
  - intros Hcost w Hc. by apply (heuristic_value_walk e).
Qed.

Lemma calculate_heuristic_admissible_witness :
  ∃ z, calculate_heuristic "chebyshev" (0, 0) (4, 4) = KInt z ∧ 0 ≤ z.
Proof.
  destruct (calculate_heuristic_admissible road_env "chebyshev" (0, 0) (4, 4))
    as (z & Hz & Hnn & _); [discriminate |].
  exists z. split; [exact Hz | exact Hnn].
Defined.

(** ** The scores of hill climbing and of simulated annealing *)

Lemma hc_evaluate_from_sum (e : GridEnvironment) (cells : list Position) :
  ∀ time total z,
  hc_evaluate_from e cells time total = Returned z →
  z = total + cells_cost e cells + 1000 * obstructed_steps e cells time.
Proof.
  induction cells as [|[x y] cells IH]; intros time total z; simpl.
  - intros [= <-]. unfold cells_cost. simpl. lia.
  - destruct (is_obstructed e x y time) as [blocked| |] eqn:Ho; simpl;
      [| done | done].
    intros Hz. apply IH in Hz. unfold cells_cost in *. simpl.
    destruct blocked; lia.
Qed.

(** ** The alternative routes of hill climbing *)

Lemma chain_snoc (path : list Position) (p q : Position) :
  chain path → last path = Some p → adjacent p q → chain (path ++ [q]).
Proof.
  intros Hc Hl Hadj i a b Ha Hb.
  destruct (decide (S i < length path)%nat) as [Hi | Hi].
  - rewrite lookup_app_l in Ha by lia. rewrite lookup_app_l in Hb by lia.
    by apply (Hc i).
  - assert (S i = length path) as Hi'.
    { apply lookup_lt_Some in Hb. rewrite length_app in Hb. simpl in Hb. lia. }
    rewrite lookup_app_l in Ha by lia. rewrite lookup_app_r in Hb by lia.
    rewrite Hi', Nat.sub_diag in Hb. injection Hb as <-.
    rewrite last_lookup in Hl.
    replace (pred (length path)) with i in Hl by lia.
    rewrite Ha in Hl. by injection Hl as ->.
Qed.

Lemma far_entry_ok_mono (e : GridEnvironment) (segment : list Position)
    (start : Position) (visited visited' : gset Position)
    (entry : Position * list Position) :
  visited ⊆ visited' → far_entry_ok e segment start visited entry →
  far_entry_ok e segment start visited' entry.
Proof.
  intros Hsub (Hh & Hl & Hc & Hok & Hnd & Hin).
  split; [done |]. split; [done |]. split; [done |]. split; [done |].
  split; [done |]. intros c Hc'. apply Hsub. by apply Hin.
Qed.

Lemma far_visit_ok (e : GridEnvironment) (segment : list Position)
    (start current : Position) (path : list Position)
    (offsets : list (Z * Z)) :
  (∀ dx dy, (dx, dy) ∈ offsets →
            adjacent current (current.1 + dx, current.2 + dy)) →
  ∀ queue visited queue' visited',
  far_visit e segment current path offsets queue visited
  = Returned (queue', visited') →
  far_entry_ok e segment start visited (current, path) →
  Forall (far_entry_ok e segment start visited) queue →
  visited ⊆ visited' ∧ Forall (far_entry_ok e segment start visited') queue'.
Proof.
  induction offsets as [|[dx dy] offsets IH]; intros Hoff queue visited queue'
    visited'; simpl.
  - intros [= <- <-] _ Hq. done.
  - assert (∀ dx' dy', (dx', dy') ∈ offsets →
                       adjacent current (current.1 + dx', current.2 + dy'))
      as Hoff' by (intros dx' dy' Hin; apply Hoff; by right).
    pose proof (Hoff dx dy ltac:(by left)) as Hadj.
    set (neighbor := (current.1 + dx, current.2 + dy)) in *.
    destruct (is_within_bounds e (current.1 + dx) (current.2 + dy)
              && negb (bool_decide (neighbor ∈ visited))) eqn:Hguard;
      [| by apply IH].
    apply andb_true_iff in Hguard as [Hb Hnv].
    apply negb_true_iff, bool_decide_eq_false in Hnv.
    destruct (is_obstructed e _ _ 0) as [blocked| |] eqn:Ho; simpl;
      [| done | done].
    destruct (negb blocked && negb (bool_decide (neighbor ∈ segment)))
      eqn:Hfree; [| by apply IH].
    apply andb_true_iff in Hfree as [Hnb Hns].
    apply negb_true_iff in Hnb. subst blocked.
    apply negb_true_iff, bool_decide_eq_false in Hns.
    intros Hv Hcur Hq.
    assert (visited ⊆ {[neighbor]} ∪ visited) as Hsub by set_solver.
    destruct (IH Hoff' _ _ _ _ Hv) as [Hsub' Hq'].
    + by apply (far_entry_ok_mono _ _ _ visited).
    + apply Forall_app. split.
      * eapply Forall_impl; [exact Hq |]. intros entry.
        by apply far_entry_ok_mono.
      * apply Forall_cons. split; [| constructor].
        destruct Hcur as (Hh & Hl & Hc & Hok & Hnd & Hin). simpl in *.
        unfold far_entry_ok. simpl.
        split; [by destruct path |]. split; [by rewrite last_snoc |].
        split; [by apply (chain_snoc path current) |].
        split.
        { destruct path as [|p0 path]; [done |]. simpl in *.
          rewrite drop_0 in *. apply Forall_app. split; [done |].
          apply Forall_cons. split; [| constructor]. done. }
        split.
        { apply NoDup_app. split; [done |]. split; [| apply NoDup_singleton].
          intros c Hc1 Hc2. apply list_elem_of_singleton in Hc2 as ->.
          apply Hnv. by apply Hin. }
        intros c Hc'. apply elem_of_app in Hc' as [Hc' | Hc'].
        -- apply Hsub. by apply Hin.
        -- apply list_elem_of_singleton in Hc' as ->. set_solver.
    + split; [| done]. etrans; [exact Hsub | exact Hsub'].
Qed.

Lemma far_offsets_adjacent (current : Position) (dx dy : Z) :
  (dx, dy) ∈ [(0, 1); (1, 0); (0, -1); (-1, 0)] →
  adjacent current (current.1 + dx, current.2 + dy).
Proof.
  intros Hin. unfold adjacent. simpl.
  repeat (apply elem_of_cons in Hin as [[= -> ->] | Hin]).
  - replace (current.1 + 0) with current.1 by lia.
    apply list_elem_of_further, list_elem_of_here.
  - replace (current.2 + 0) with current.2 by lia.
    do 3 apply list_elem_of_further. apply list_elem_of_here.
  - replace (current.1 + 0) with current.1 by lia.
    replace (current.2 + -1) with (current.2 - 1) by lia.
    apply list_elem_of_here.
  - replace (current.2 + 0) with current.2 by lia.
    replace (current.1 + -1) with (current.1 - 1) by lia.
    do 2 apply list_elem_of_further. apply list_elem_of_here.
  - by apply elem_of_nil in Hin.
Qed.

Lemma far_loop_ok (e : GridEnvironment) (segment : list Position)
    (start end_ : Position) (fuel : nat) :
  ∀ queue visited alt,
  Forall (far_entry_ok e segment start visited) queue →
  far_loop fuel e end_ segment queue visited = Returned (Some alt) →
  ∃ path visited', alt = drop 1 path ∧
                   far_entry_ok e segment start visited' (end_, path).
Proof.
  induction fuel as [|fuel IH]; intros queue visited alt Hq;
    cbn -[far_visit]; [done |].
  destruct queue as [|[current path] queue']; [done |].
  apply Forall_cons in Hq as [Hcur Hq].
  destruct (Position_eqb current end_) eqn:Hend.
  - intros [= <-]. apply Position_eqb_eq in Hend as <-. by exists path, visited.
  - destruct (far_visit e segment current path
                [(0, 1); (1, 0); (0, -1); (-1, 0)] queue' visited)
      as [[queue'' visited']| |] eqn:Hv; cbn [obind]; [| done | done].
    apply IH.
    by destruct (far_visit_ok e segment start current path _
                   (far_offsets_adjacent current) _ _ _ _ Hv Hcur Hq).
Qed.

(** X13: an alternative route that [find_alternative_route] returns leads
    from [start], which it leaves out, to [end_] in steps to neighbouring
    cells; no cell occurs twice; every cell is in bounds, free at time 0 and
    outside the segment that is replaced; and it is empty exactly when
    [start] and [end_] are the same cell. *)
Theorem find_alternative_route_sound (fuel : nat) (e : GridEnvironment)
    (start end_ : Position) (original_segment alt : list Position) :
  find_alternative_route fuel e start end_ original_segment
  = Returned (Some alt) →
  last (start :: alt) = Some end_ ∧
  chain (start :: alt) ∧ NoDup (start :: alt) ∧
  Forall (far_cell_ok e original_segment) alt ∧
  (alt = [] ↔ start = end_).
Proof.
  unfold find_alternative_route. intros Hl.
  apply (far_loop_ok e original_segment start) in Hl
    as (path & visited' & -> & (Hh & Hl & Hc & Hok & Hnd & _)).
  - simpl in *. destruct path as [|p0 path]; [done |]. injection Hh as ->.
    simpl in *. rewrite drop_0 in *.
    split; [done |]. split; [done |]. split; [done |]. split; [done |].
    split.
    + intros ->. by injection Hl as ->.
    + intros <-. destruct path as [|p1 path]; [done |]. exfalso.
      apply NoDup_cons in Hnd as [Hnin _]. apply Hnin.
      rewrite last_cons_cons in Hl. apply last_Some in Hl as [l' ->].
      apply elem_of_app. right. by left.
  - apply Forall_cons. split; [| constructor]. simpl.
    split; [done |]. split; [done |].
    split; [intros i p q Hp Hq; destruct i; done |].
    split; [constructor |]. split; [apply NoDup_singleton |].
    intros c Hc. set_solver.
Qed.

Lemma find_alternative_route_sound_witness :
  match find_alternative_route 100 blocked_env (0, 0) (2, 0) [(1, 0)] with
  | Returned (Some alt) =>
      last ((0, 0) :: alt) = Some (2, 0) ∧ chain ((0, 0) :: alt)
  | _ => False
  end.
Proof.
  destruct (find_alternative_route 100 blocked_env (0, 0) (2, 0) [(1, 0)])
    as [[alt|]| |] eqn:E.
  - destruct (find_alternative_route_sound _ _ _ _ _ _ E) as (Hl & Hc & _).
    split; [exact Hl | exact Hc].
  - vm_compute in E. discriminate E.
  - vm_compute in E. discriminate E.
  - vm_compute in E. discriminate E.
Defined.

Lemma find_alternative_route_sound_last (fuel : nat) (e : GridEnvironment)
    (start end_ : Position) (segment alt : list Position) :
  find_alternative_route fuel e start end_ segment = Returned (Some alt) →
  last (start :: alt) = Some end_.
Proof.
  unfold find_alternative_route. intros Hl.
  apply (far_loop_ok e segment start) in Hl
    as (path & visited' & -> & (Hh & Hl & _)).
  - simpl in *. destruct path as [|p0 path]; [done |]. injection Hh as ->.
    simpl. by rewrite ?drop_0.
  - apply Forall_cons. split; [| constructor]. simpl.
    split; [done |]. split; [done |].
    split; [intros i p q Hp Hq; destruct i; done |].
    split; [constructor |]. split; [apply NoDup_singleton |].
    intros c Hc. set_solver.
Qed.

(** ** The neighbours of hill climbing *)

Lemma randint_inv (a b : Z) (g g' : Rng) (v : Z) :
  randint a b g = Returned (v, g') →
  a ≤ v ≤ b ∧ cursor g' = S (cursor g) ∧ tape g' = tape g.
Proof.
  unfold randint. destruct (b <? a) eqn:E; [done |].
  intros [= <- <-]. simpl. split; [| done].
  pose proof (Z.mod_pos_bound (Z.of_N (tape g (cursor g))) (b - a + 1)). lia.
Qed.

Lemma py_index_inv {A : Type} (l : list A) (i : Z) (a : A) :
  py_index l i = Returned a → 0 ≤ i ∧ l !! Z.to_nat i = Some a.
Proof.
  unfold py_index. destruct (i <? 0) eqn:E; [done |].
  destruct (l !! Z.to_nat i) eqn:El; [| done]. intros [= <-].
  split; [lia | done].
Qed.

Lemma py_slice_from_drop {A : Type} (l : list A) (i : Z) :
  0 ≤ i ≤ Z.of_nat (length l) → py_slice_from l i = drop (Z.to_nat i) l.
Proof.
  intros Hi. unfold py_slice_from, clamp_index.
  destruct (i <? 0) eqn:E; [lia |]. by rewrite Z.min_l by lia.
Qed.

(** What a call of [generate_neighbor] does to a path of more than two
    cells: a window is chosen and, when the route finder has an answer, an
    alternative is spliced in, which ends in the cell that also follows
    it. *)
Lemma hc_generate_neighbor_inv (fuel : nat) (e : GridEnvironment)
    (path : list Position) (g : Rng) (neighbor : list Position) (g' : Rng) :
  hc_generate_neighbor fuel e path g = Returned (neighbor, g') →
  (length path ≤ 2)%nat ∧ neighbor = path ∧ g' = g ∨
  (2 < length path)%nat ∧ cursor g' = S (S (cursor g)) ∧
  (neighbor = path ∨
   ∃ start_idx end_idx segment_start segment_end alt,
     1 ≤ start_idx < end_idx ∧ end_idx < Z.of_nat (length path) ∧
     path !! Z.to_nat (start_idx - 1) = Some segment_start ∧
     path !! Z.to_nat end_idx = Some segment_end ∧
     find_alternative_route fuel e segment_start segment_end
       (py_slice path start_idx end_idx) = Returned (Some alt) ∧
     alt ≠ [] ∧
     neighbor = py_slice_to path start_idx ++ alt
                ++ py_slice_from path end_idx).
Proof.
  unfold hc_generate_neighbor.
  destruct (Z.of_nat (length path) <=? 2) eqn:Hlen.
  { intros [= <- <-]. left. split; [lia | done]. }
  destruct (randint 1 (Z.of_nat (length path) - 2) g) as [[start_idx g1]| |]
    eqn:Hr1; cbn [obind]; [| done | done].
  destruct (randint 1 3 g1) as [[span g2]| |] eqn:Hr2; cbn [obind];
    [| done | done].
  apply randint_inv in Hr1 as (Hs & Hc1 & _).
  apply randint_inv in Hr2 as (Hsp & Hc2 & _).
  set (end_idx := Z.min (start_idx + span) (Z.of_nat (length path) - 1)).
  destruct (py_index path (start_idx - 1)) as [segment_start| |] eqn:Hi1;
    cbn [obind]; [| done | done].
  destruct (py_index path end_idx) as [segment_end| |] eqn:Hi2;
    cbn [obind]; [| done | done].
  apply py_index_inv in Hi1 as [_ Hi1]. apply py_index_inv in Hi2 as [_ Hi2].
  intros H. right. split; [lia |].
  assert (g' = g2 ∧
          (neighbor = path ∨
           ∃ alt, find_alternative_route fuel e segment_start segment_end
                    (py_slice path start_idx end_idx) = Returned (Some alt) ∧
                  alt ≠ [] ∧
                  neighbor = py_slice_to path start_idx ++ alt
                             ++ py_slice_from path end_idx)) as [-> Hn].
  { destruct (find_alternative_route fuel e segment_start segment_end _)
      as [[[|c alt]|]| |]; try (injection H as <- <-; split; [done | by left]);
      [| done].
    injection H as <- <-. split; [done |]. right. by exists (c :: alt). }
  split; [by rewrite Hc2, Hc1 |].
  destruct Hn as [-> | (alt & Hf & Hne & ->)]; [by left |]. right.
  exists start_idx, end_idx, segment_start, segment_end, alt.
  split; [unfold end_idx; lia |]. split; [unfold end_idx; lia |]. done.
Qed.

(** X14: [generate_neighbor] of hill climbing returns a path of at most two
    cells unchanged without drawing a random number, and otherwise draws
    two; the path it returns keeps the first and the last cell; and when an
    alternative was spliced in, the cell at the end of the window comes
    twice in a row, because the alternative ends in it and the kept suffix
    starts with it. *)
Theorem hc_generate_neighbor_splice (fuel : nat) (e : GridEnvironment)
    (path : list Position) (g : Rng) (neighbor : list Position) (g' : Rng) :
  hc_generate_neighbor fuel e path g = Returned (neighbor, g') →
  (neighbor = path ∨
   ∃ pre c post, neighbor = pre ++ c :: c :: post ∧ (2 < length path)%nat) ∧
  (path ≠ [] → same_ends path neighbor) ∧
  ((length path ≤ 2)%nat → neighbor = path ∧ g' = g) ∧
  cursor g' = (cursor g + (if bool_decide (length path ≤ 2)%nat then 0 else 2))%nat.
Proof.
  intros H. apply hc_generate_neighbor_inv in H
    as [(Hlen & -> & ->) | (Hlen & Hc & Hn)].
  - split; [by left |]. split; [by apply same_ends_refl |].
    split; [done |]. rewrite bool_decide_eq_true_2 by done. lia.
  - rewrite bool_decide_eq_false_2 by lia.
    split; [| split; [| split; [lia | lia]]].
    + destruct Hn as [-> | (start_idx & end_idx & segment_start & segment_end
                             & alt & Hs & He & Hi1 & Hi2 & Hf & Hne & ->)];
        [by left |].
      right. apply find_alternative_route_sound_last in Hf.
      destruct alt as [|c alt] using rev_ind; [done |]. clear IHalt.
      rewrite last_cons, last_snoc in Hf. injection Hf as ->.
      rewrite py_slice_from_drop by lia.
      destruct (drop (Z.to_nat end_idx) path) as [|c post] eqn:Hd.
      { apply (f_equal length) in Hd. rewrite length_drop in Hd.
        simpl in Hd. lia. }
      assert (c = segment_end) as ->.
      { pose proof (lookup_drop path (Z.to_nat end_idx) 0) as Hlk.
        rewrite Hd, Nat.add_0_r, Hi2 in Hlk. by injection Hlk. }
      exists (py_slice_to path start_idx ++ alt), segment_end, post.
      split; [| done]. by rewrite <- !app_assoc.
    + intros Hpath.
      destruct Hn as [-> | (start_idx & end_idx & segment_start & segment_end
                             & alt & Hs & He & Hi1 & Hi2 & Hf & Hne & ->)];
        [by apply same_ends_refl |].
      apply same_ends_splice; [done | lia | lia].
Qed.

Lemma hc_generate_neighbor_splice_witness :
  match hc_generate_neighbor 100 blocked_env
          [(0, 0); (1, 0); (2, 0); (3, 0)] zero_rng with
  | Returned (neighbor, _) =>
      neighbor = [(0, 0); (1, 0); (2, 0); (3, 0)] ∨
      ∃ pre c post, neighbor = pre ++ c :: c :: post ∧
                    (2 < length [(0, 0); (1, 0); (2, 0); (3, 0)])%nat
  | _ => False
  end.
Proof.
  destruct (hc_generate_neighbor 100 blocked_env
              [(0, 0); (1, 0); (2, 0); (3, 0)] zero_rng)
    as [[neighbor g']| |] eqn:E.
  - exact (proj1 (hc_generate_neighbor_splice _ _ _ _ _ _ E)).
  - vm_compute in E. discriminate E.
  - vm_compute in E. discriminate E.
Defined.

(** ** Hill climbing keeps the better path *)

Lemma Score_ltb_trans (a b c : Score) :
  Score_ltb a b = true → Score_ltb b c = true → Score_ltb a c = true.
Proof. destruct a, b, c; simpl; try done. lia. Qed.

Lemma hc_generate_neighbor_ends (fuel : nat) (e : GridEnvironment)
    (path : list Position) (g : Rng) (neighbor : list Position) (g' : Rng) :
  hc_generate_neighbor fuel e path g = Returned (neighbor, g') →
  path ≠ [] → same_ends path neighbor.
Proof.
  intros H Hpath. apply hc_generate_neighbor_inv in H
    as [(_ & -> & _) | (_ & _ & [-> | H])]; [by apply same_ends_refl.. |].
  destruct H as (start_idx & end_idx & _ & _ & alt & Hs & He & _ & _ & _ & _
                 & ->).
  apply same_ends_splice; [done | lia | lia].
Qed.

Lemma hc_inner_inv (fuel : nat) (e : GridEnvironment) (iterations : nat) :
  ∀ current_path current_score improvements g path score g',
  hc_inner iterations fuel e current_path current_score improvements g
  = Returned (path, score, g') →
  current_path ≠ [] →
  hc_evaluate_path e current_path = Returned current_score →
  hc_evaluate_path e path = Returned score ∧ same_ends current_path path.
Proof.
  induction iterations as [|iterations IH];
    intros current_path current_score improvements g path score g';
    cbn [hc_inner].
  - intros [= <- <- <-] Hne Hs. split; [done | by apply same_ends_refl].
  - destruct (hc_generate_neighbor fuel e current_path g)
      as [[neighbor g1]| |] eqn:Hn; cbn [obind]; [| done | done].
    destruct (hc_evaluate_path e neighbor) as [neighbor_score| |] eqn:Hns;
      cbn [obind]; [| done | done].
    intros H Hne Hs.
    pose proof (hc_generate_neighbor_ends _ _ _ _ _ _ Hn Hne) as Hends.
    assert (neighbor ≠ []) as Hnne by apply Hends.
    destruct (Score_ltb neighbor_score current_score).
    + destruct (10 <=? improvements + 1).
      * injection H as <- <- <-. done.
      * apply IH in H as [H1 H2]; [| done | done].
        split; [done |]. by apply (same_ends_trans _ neighbor).
    + destruct (random g1) as [r g2].
      destruct (PrimFloat.ltb r _).
      * destruct (10 <=? improvements).
        -- injection H as <- <- <-. done.
        -- apply IH in H as [H1 H2]; [| done | done].
           split; [done |]. by apply (same_ends_trans _ neighbor).
      * destruct (10 <=? improvements).
        -- injection H as <- <- <-. split; [done | by apply same_ends_refl].
        -- by apply IH in H.
Qed.

Lemma hc_restarts_inv (fuel : nat) (e : GridEnvironment)
    (start goal : Position) (restarts : nat) :
  ∀ best_path best_score g path g',
  hc_restarts restarts fuel e start goal best_path best_score g
  = Returned (path, g') →
  best_path ≠ [] →
  hc_evaluate_path e best_path = Returned best_score →
  ∃ score, hc_evaluate_path e path = Returned score ∧
           (path = best_path ∨ Score_ltb score best_score = true) ∧
           same_ends best_path path.
Proof.
  induction restarts as [|restarts IH]; intros best_path best_score g path g';
    cbn [hc_restarts].
  - intros [= <- <-] Hne Hs. exists best_score. split; [done |].
    split; [by left | by apply same_ends_refl].
  - intros H Hne Hs. destruct best_path as [|p0 best_path]; [done |].
    cbn [obind] in H. rewrite Hs in H. cbn [obind] in H.
    destruct (hc_inner 100 fuel e (p0 :: best_path) best_score 0 g)
      as [[[current_path current_score] g1]| |] eqn:Hin; cbn [obind] in H;
      [| done | done].
    apply hc_inner_inv in Hin as [Hcs Hends]; [| done | done].
    destruct (Score_ltb current_score best_score) eqn:Hlt.
    + apply IH in H as (score & Hsc & Hor & Hends'); [| apply Hends | done].
      exists score. split; [done |]. split.
      * right. destruct Hor as [-> | Hor].
        -- rewrite Hcs in Hsc. by injection Hsc as <-.
        -- by apply (Score_ltb_trans _ current_score).
      * by apply (same_ends_trans _ current_path).
    + by apply IH in H.
Qed.

(** X15: hill climbing started on a non-empty path returns that path or a
    path with a strictly smaller score, and the path it returns has the same
    first and last cell. *)
Theorem HillClimbing_search_not_worse (fuel : nat) (e : GridEnvironment)
    (start goal : Position) (initial_path : list Position) (g : Rng)
    (path : list Position) (g' : Rng) :
  initial_path ≠ [] →
  HillClimbing_search fuel e start goal (Some initial_path) g
  = Returned (path, g') →
  ∃ initial_score score,
    hc_evaluate_path e initial_path = Returned initial_score ∧
    hc_evaluate_path e path = Returned score ∧
    (path = initial_path ∨ Score_ltb score initial_score = true) ∧
    same_ends initial_path path.
Proof.
  intros Hne. unfold HillClimbing_search. cbn [or_empty].
  destruct (hc_evaluate_path e initial_path) as [initial_score| |] eqn:Hs;
    cbn [obind]; [| done | done].
  intros H. apply hc_restarts_inv in H as (score & H1 & H2 & H3);
    [| done | done].
  by exists initial_score, score.
Qed.

Lemma HillClimbing_search_not_worse_witness :
  match HillClimbing_search 100 blocked_env (0, 0) (3, 0)
          (Some [(0, 0); (1, 0); (2, 0); (3, 0)]) zero_rng with
  | Returned (path, _) => same_ends [(0, 0); (1, 0); (2, 0); (3, 0)] path
  | _ => False
  end.
Proof.
  destruct (HillClimbing_search 100 blocked_env (0, 0) (3, 0)
              (Some [(0, 0); (1, 0); (2, 0); (3, 0)]) zero_rng)
    as [[path g']| |] eqn:E.
  - destruct (HillClimbing_search_not_worse 100 blocked_env (0, 0) (3, 0)
                [(0, 0); (1, 0); (2, 0); (3, 0)] zero_rng path g'
                ltac:(discriminate) E) as (s0 & s & _ & _ & _ & H).
    exact H.
  - vm_compute in E. discriminate E.
  - vm_compute in E. discriminate E.
Defined.

(** ** The 64-bit sums of the source *)

Lemma wrap64_small (z : Z) : - 2 ^ 63 ≤ z < 2 ^ 63 → wrap64 z = z.
Proof. intros H. unfold wrap64. rewrite Z.mod_small by lia. lia. Qed.

Lemma add64_exact (a b : Z) : - 2 ^ 63 ≤ a + b < 2 ^ 63 → add64 a b = a + b.
Proof. apply wrap64_small. Qed.


Lemma get_terrain_cost_int64 (e : GridEnvironment) (x y : Z) :
  Num_value (Int64.get_terrain_cost e x y) = get_terrain_cost e x y.
Proof.
  unfold Int64.get_terrain_cost, get_terrain_cost.
  by destruct (negb (is_within_bounds e x y)).
Qed.

Lemma Num_add_exact (a b : Num) :
  - 2 ^ 63 ≤ Num_value a + Num_value b < 2 ^ 63 →
  Num_value (Num_add a b) = Num_value a + Num_value b.
Proof.
  intros H. destruct a, b; simpl in *; by rewrite ?add64_exact.
Qed.

Lemma get_terrain_cost_range (e : GridEnvironment) (cmax x y : Z) :
  (∀ x y, 0 ≤ grid e y x) →
  (∀ x y, is_within_bounds e x y = true → grid e y x ≤ cmax) →
  is_within_bounds e x y = true → 0 ≤ get_terrain_cost e x y ≤ cmax.
Proof.
  intros Hcost Hcmax Hb. unfold get_terrain_cost. rewrite Hb. simpl.
  specialize (Hcost x y). specialize (Hcmax x y Hb). lia.
Qed.

Lemma get_successors_int64 (e : GridEnvironment) (cmax : Z) (n : SearchNode) :
  (∀ x y, 0 ≤ grid e y x) →
  (∀ x y, is_within_bounds e x y = true → grid e y x ≤ cmax) →
  0 ≤ Node.cost n → Node.cost n + cmax < 2 ^ 63 →
  Int64.get_successors e n = get_successors e n.
Proof.
  intros Hcost Hcmax Hn Hfit. unfold Int64.get_successors, get_successors.
  destruct (Node.position n) as [x y]. unfold get_valid_moves.
  destruct (valid_moves_from e _ x y (Node.time n)) as [moves| |] eqn:Hm;
    simpl; [| done | done].
  f_equal. apply map_ext_in. intros [[nx ny] c] Hin.
  apply list_elem_of_In in Hin.
  destruct (valid_moves_from_sound _ _ _ _ _ _ Hm nx ny c Hin)
    as (_ & Hb & _ & ->).
  pose proof (get_terrain_cost_range e cmax nx ny Hcost Hcmax Hb).
  rewrite add64_exact by lia. done.
Qed.

Lemma get_successors_cells (e : GridEnvironment) (cmax : Z) (n : SearchNode)
    (successors : list SearchNode) :
  (∀ x y, 0 ≤ grid e y x) →
  (∀ x y, is_within_bounds e x y = true → grid e y x ≤ cmax) →
  get_successors e n = Returned successors →
  ∀ s, s ∈ successors →
    ∃ c p t a d, s = mkSearchNode c p t (Some n) a d ∧ p ∈ grid_cells e ∧
                 Node.cost n ≤ c ≤ Node.cost n + cmax.
Proof.
  intros Hcost Hcmax. unfold get_successors.
  destruct (Node.position n) as [x y]. unfold get_valid_moves.
  destruct (valid_moves_from e _ x y (Node.time n)) as [moves| |] eqn:Hm;
    simpl; [| done | done].
  intros [= <-] s Hin.
  apply list_elem_of_fmap in Hin as ([[nx ny] c] & -> & Hin).
  destruct (valid_moves_from_sound _ _ _ _ _ _ Hm nx ny c Hin)
    as (_ & Hb & _ & ->).
  pose proof (get_terrain_cost_range e cmax nx ny Hcost Hcmax Hb).
  eexists _, _, _, _, _. split; [done |].
  split; [by apply elem_of_grid_cells | lia].
Qed.

Lemma node_walk_cells (e : GridEnvironment) (start : Position) (cmax : Z)
    (n : SearchNode) :
  (∀ x y, 0 ≤ grid e y x) →
  (∀ x y, is_within_bounds e x y = true → grid e y x ≤ cmax) →
  node_walk e start n →
  ∃ l, path_to_root n = l ++ [start] ∧ (∀ q, q ∈ l → q ∈ grid_cells e) ∧
       0 ≤ Node.cost n ≤ Z.of_nat (length l) * cmax.
Proof.
  intros Hcost Hcmax.
  induction n as [c p t a d | c p t parent a d IH] using SearchNode_chain_ind.
  - simpl. intros (-> & -> & ->). exists []. split; [done |].
    split; [| simpl; lia]. intros q Hq. by apply elem_of_nil in Hq.
  - simpl. intros (Hpar & Hadj & Hb & Ho & -> & ->).
    destruct (IH Hpar) as (l & Hl & Hin & Hc). exists (p :: l).
    split; [by rewrite Hl |]. split.
    + intros q Hq. apply elem_of_cons in Hq as [-> | Hq]; [| by apply Hin].
      destruct p. by apply elem_of_grid_cells.
    + pose proof (get_terrain_cost_range e cmax p.1 p.2 Hcost Hcmax Hb).
      cbn [length]. nia.
Qed.

Lemma node_walk_cost_bound (e : GridEnvironment) (start : Position) (cmax : Z)
    (n : SearchNode) :
  (∀ x y, 0 ≤ grid e y x) →
  (∀ x y, is_within_bounds e x y = true → grid e y x ≤ cmax) → 0 ≤ cmax →
  node_walk e start n → NoDup (path_to_root n) →
  0 ≤ Node.cost n ≤ Z.of_nat (size (grid_cells e)) * cmax.
Proof.
  intros Hcost Hcmax Hcmax0 Hw Hnd.
  destruct (node_walk_cells e start cmax n Hcost Hcmax Hw)
    as (l & Hl & Hin & Hc).
  rewrite Hl in Hnd. apply NoDup_app in Hnd as (Hnd & _ & _).
  assert (length l ≤ size (grid_cells e))%nat as Hlen.
  { unfold size, set_size. simpl. apply submseteq_length, NoDup_submseteq;
      [done |]. intros q Hq. apply elem_of_elements. by apply Hin. }
  nia.
Qed.

(** *** Uniform-cost search *)

Section ucs_int64.
Variables (e : GridEnvironment) (start : Position) (cmax : Z).
Hypothesis Hok : env_ok e.
Hypothesis Hcost : ∀ x y, 0 ≤ grid e y x.
Hypothesis Hcmax : ∀ x y, is_within_bounds e x y = true → grid e y x ≤ cmax.
Hypothesis Hfit : sums_fit e cmax.

Lemma ucs_loop_int64 (goal : Position) (fuel : nat) :
  ∀ frontier visited_costs,
  ucs_state_ok e start cmax frontier visited_costs →
  Int64.ucs_loop fuel e goal frontier visited_costs
  = ucs_loop fuel e goal frontier visited_costs.
Proof.
  destruct Hfit as [Hcmax0 Hsum].
  induction fuel as [|fuel IH]; intros frontier visited_costs Hstate;
    [done |].
  cbn [ucs_loop Int64.ucs_loop].
  destruct (heappop entry_lt frontier) as [[[current_cost current] frontier']|]
    eqn:Hpop; [| done].
  apply heappop_shape in Hpop as [Hlen Hmem].
  destruct Hstate as [Hentries Hrange].
  rewrite Forall_forall in Hentries.
  assert (ucs_chain_ok e start cmax visited_costs current) as Hcur.
  { apply (Hentries (current_cost, current)), Hmem. by left. }
  assert (ucs_state_ok e start cmax frontier' visited_costs) as Hstate'.
  { split; [| done]. apply Forall_forall. intros entry Hentry.
    apply Hentries, Hmem. by right. }
  destruct (match visited_costs !! Node.position current with
            | Some c => Key_ltb (KInt c) current_cost
            | None => false
            end); [by apply IH |].
  destruct (Position_eqb (Node.position current) goal); [done |].
  pose proof (chain_ok_cost_bound e start cmax Hok Hcost Hcmax0 Hcmax _ _ Hcur)
    as Hbound.
  unfold ucs_cost_bound in Hbound.
  rewrite (get_successors_int64 e cmax) by (done || lia).
  destruct (get_successors e current) as [successors| |] eqn:Hs; [| done..].
  cbn [obind].
  destruct (ucs_visit successors frontier' visited_costs)
    as [frontier'' visited_costs''] eqn:Hvisit.
  apply IH.
  eapply (ucs_visit_measure e start cmax Hok Hcost Hcmax0 Hcmax current
            successors); [| exact Hvisit | done | done].
  by apply (get_successors_cells e cmax).
Qed.

Lemma UniformCostSearch_search_int64 (fuel : nat) (goal : Position) :
  Int64.UniformCostSearch_search fuel e start goal
  = UniformCostSearch_search fuel e start goal.
Proof.
  unfold Int64.UniformCostSearch_search, UniformCostSearch_search.
  match goal with
  | |- context [heappush entry_lt [] ?item] =>
      destruct (heappush_shape entry_lt [] item) as [Hlen Hmem]
  end.
  destruct Hfit as [Hcmax0 Hsum].
  apply ucs_loop_int64. split.
  - apply Forall_forall. intros entry Hentry.
    apply Hmem in Hentry as [-> | Hentry]; [| by apply elem_of_nil in Hentry].
    simpl. split; [done |]. split; [done |]. exists 0.
    by rewrite lookup_singleton_eq.
  - intros p c Hp. apply lookup_singleton_Some in Hp as [<- <-].
    split; [unfold ucs_cells; set_solver |]. unfold ucs_cost_bound. nia.
Qed.
End ucs_int64.

(** *** Breadth-first search and A* *)

Lemma calculate_heuristic_range (e : GridEnvironment) (heuristic : string)
    (p goal : Position) :
  is_within_bounds e p.1 p.2 = true →
  is_within_bounds e goal.1 goal.2 = true →
  match calculate_heuristic heuristic p goal with
  | KInt z => 0 ≤ z ≤ Z.max 0 (width e) + Z.max 0 (height e)
  | KFloat _ => True
  end.
Proof.
  destruct p as [x1 y1], goal as [x2 y2]. unfold is_within_bounds. simpl.
  intros Hp Hg. repeat (apply andb_prop in Hp as [Hp ?]).
  repeat (apply andb_prop in Hg as [Hg ?]).
  destruct (String.eqb heuristic "manhattan"); [lia |].
  destruct (String.eqb heuristic "euclidean"); [done |].
  destruct (String.eqb heuristic "chebyshev"); lia.
Qed.

Lemma node_walk_child_bounds (e : GridEnvironment) (start : Position)
    (s current : SearchNode) :
  node_walk e start s → Node.parent s = Some current →
  is_within_bounds e (Node.position s).1 (Node.position s).2 = true.
Proof.
  destruct s as [c p t parent a d]. simpl. intros Hw ->.
  by destruct Hw as (_ & _ & Hb & _).
Qed.

Section search_int64.
Variables (e : GridEnvironment) (start : Position) (cmax : Z).
Hypothesis Hcost : ∀ x y, 0 ≤ grid e y x.
Hypothesis Hcmax : ∀ x y, is_within_bounds e x y = true → grid e y x ≤ cmax.
Hypothesis Hfit : sums_fit e cmax.

Lemma bfs_loop_int64 (goal : Position) (fuel : nat) :
  ∀ queue visited,
  Forall (bfs_node_ok e start visited) queue →
  Int64.bfs_loop fuel e goal queue visited = bfs_loop fuel e goal queue visited.
Proof.
  destruct Hfit as [Hcmax0 Hsum].
  induction fuel as [|fuel IH]; intros queue visited Hq; [done |].
  cbn [bfs_loop Int64.bfs_loop].
  destruct queue as [|current queue']; [done |].
  apply Forall_cons in Hq as [Hcur Hq].
  destruct (Position_eqb (Node.position current) goal); [done |].
  pose proof (node_walk_cost_bound e start cmax current Hcost Hcmax Hcmax0
                (proj1 Hcur) (proj1 (proj2 Hcur))) as Hbound.
  rewrite (get_successors_int64 e cmax) by (done || nia).
  destruct (get_successors e current) as [successors| |] eqn:Hs; [| done..].
  cbn [obind].
  destruct (bfs_visit successors queue' visited) as [queue'' visited'] eqn:Hv.
  apply IH.
  eapply (bfs_visit_ok e start current successors); [| exact Hv | done | done].
  intros s Hin.
  destruct (get_successors_walk e start current successors Hs
              (proj1 Hcur) s Hin) as (? & ? & _). done.
Qed.

Lemma BFS_search_int64 (fuel : nat) (goal : Position) :
  Int64.BFS_search fuel e start goal = BFS_search fuel e start goal.
Proof.
  apply bfs_loop_int64. apply Forall_cons. split; [| constructor].
  split; [done |]. split; [apply NoDup_singleton |].
  intros p Hp. simpl in Hp. set_solver.
Qed.

Lemma astar_visit_int64 (heuristic : string) (goal : Position)
    (current : SearchNode) (visited : gset Position)
    (successors : list SearchNode) :
  is_within_bounds e goal.1 goal.2 = true →
  0 ≤ Node.cost current ≤ Z.of_nat (size (grid_cells e)) * cmax →
  (∀ s, s ∈ successors →
        is_within_bounds e (Node.position s).1 (Node.position s).2 = true) →
  ∀ frontier g_costs,
  Int64.astar_visit e heuristic goal current visited successors frontier g_costs
  = astar_visit e heuristic goal current visited successors frontier g_costs.
Proof.
  destruct Hfit as [Hcmax0 Hsum]. intros Hgoal Hcur.
  induction successors as [|s successors IH]; intros Hsucc frontier g_costs;
    [done |].
  cbn [astar_visit Int64.astar_visit].
  assert (∀ s', s' ∈ successors →
            is_within_bounds e (Node.position s').1 (Node.position s').2 = true)
    as Hsucc' by (intros s' Hs'; apply Hsucc; by right).
  destruct (bool_decide (Node.position s ∈ visited)); [by apply IH |].
  pose proof (Hsucc s ltac:(by left)) as Hb.
  pose proof (get_terrain_cost_range e cmax _ _ Hcost Hcmax Hb) as Hc.
  rewrite get_terrain_cost_int64, add64_exact by nia.
  destruct (match g_costs !! Node.position s with
            | Some c => _
            | None => true
            end); [| by apply IH].
  rewrite IH by done. do 3 f_equal.
  pose proof (calculate_heuristic_range e heuristic _ _ Hb Hgoal) as Hh.
  destruct (calculate_heuristic heuristic (Node.position s) goal) as [z | f];
    [| done].
  simpl. rewrite add64_exact by nia. done.
Qed.

Lemma astar_loop_int64 (heuristic : string) (goal : Position) (fuel : nat) :
  is_within_bounds e goal.1 goal.2 = true →
  ∀ frontier g_costs visited,
  Forall (astar_node_ok e start visited) frontier →
  Int64.astar_loop fuel e heuristic goal frontier g_costs visited
  = astar_loop fuel e heuristic goal frontier g_costs visited.
Proof.
  destruct Hfit as [Hcmax0 Hsum]. intros Hgoal.
  induction fuel as [|fuel IH]; intros frontier g_costs visited Hf; [done |].
  cbn [astar_loop Int64.astar_loop].
  destruct (heappop entry_lt frontier) as [[[current_f current] frontier']|]
    eqn:Hpop; [| done].
  destruct (Forall_heappop _ _ _ _ _ Hf Hpop) as [(Hwc & Hndc & Hinc) Hf'].
  simpl in Hwc, Hndc, Hinc.
  destruct (bool_decide (Node.position current ∈ visited)) eqn:Hin;
    [by apply IH |].
  destruct (Position_eqb (Node.position current) goal); [done |].
  pose proof (node_walk_cost_bound e start cmax current Hcost Hcmax Hcmax0
                Hwc Hndc) as Hbound.
  rewrite (get_successors_int64 e cmax) by (done || nia).
  destruct (get_successors e current) as [successors| |] eqn:Hs; [| done..].
  cbn [obind].
  assert (∀ s, s ∈ successors →
               node_walk e start s ∧ Node.parent s = Some current) as Hsucc.
  { intros s Hin'.
    destruct (get_successors_walk e start current successors Hs Hwc s Hin')
      as (? & ? & _). done. }
  rewrite astar_visit_int64; [| done | done |].
  2:{ intros s Hin'. destruct (Hsucc s Hin') as [Hws Hpar].
      by apply (node_walk_child_bounds e start s current). }
  destruct (astar_visit e heuristic goal current _ successors frontier'
              g_costs) as [frontier'' g_costs'] eqn:Hv.
  apply IH.
  eapply (astar_visit_path e heuristic start goal current); [done | done | |
    exact Hsucc | exact Hv |].
  - intros p Hp.
    pose proof (path_to_root_head current) as Hh.
    destruct (path_to_root current) as [|p0 rest]; [done |].
    injection Hh as ->.
    apply elem_of_cons in Hp as [-> | Hp]; [set_solver |].
    apply elem_of_union_r. by apply Hinc.
  - eapply Forall_impl; [exact Hf' |]. intros entry.
    apply astar_node_ok_mono. set_solver.
Qed.

Lemma AStarSearch_search_int64 (fuel : nat) (heuristic : string)
    (goal : Position) :
  is_within_bounds e goal.1 goal.2 = true →
  Int64.AStarSearch_search fuel e heuristic start goal
  = AStarSearch_search fuel e heuristic start goal.
Proof.
  intros Hgoal. apply astar_loop_int64; [done |].
  apply Forall_heappush; [constructor |].
  split; [done |]. split; [apply NoDup_singleton |].
  intros p Hp. simpl in Hp. set_solver.
Qed.
End search_int64.

(** *** A* towards a goal that is no cell of the grid *)

Lemma get_successors_int64_bounds (e : GridEnvironment) (n : SearchNode)
    (successors : list SearchNode) :
  Int64.get_successors e n = Returned successors →
  ∀ s, s ∈ successors →
    is_within_bounds e (Node.position s).1 (Node.position s).2 = true.
Proof.
  unfold Int64.get_successors. destruct (Node.position n) as [x y].
  unfold get_valid_moves.
  destruct (valid_moves_from e _ x y (Node.time n)) as [moves| |] eqn:Hm;
    simpl; [| done | done].
  intros [= <-] s Hin.
  apply list_elem_of_fmap in Hin as ([[nx ny] c] & -> & Hin).
  by destruct (valid_moves_from_sound _ _ _ _ _ _ Hm nx ny c Hin)
    as (_ & Hb & _).
Qed.

Lemma astar_visit_int64_Forall (P : Key * SearchNode → Prop)
    (e : GridEnvironment) (heuristic : string) (goal : Position)
    (current : SearchNode) (visited : gset Position)
    (successors : list SearchNode) :
  (∀ s f, s ∈ successors → P (f, s)) →
  ∀ frontier g_costs frontier' g_costs',
  Int64.astar_visit e heuristic goal current visited successors frontier
    g_costs = (frontier', g_costs') →
  Forall P frontier → Forall P frontier'.
Proof.
  induction successors as [|s successors IH];
    intros Hsucc frontier g_costs frontier' g_costs'; simpl.
  - by intros [= <- <-].
  - assert (∀ s' f, s' ∈ successors → P (f, s')) as Hsucc'
      by (intros s' f Hs'; apply Hsucc; by right).
    destruct (bool_decide (Node.position s ∈ visited)); [by apply IH |].
    destruct (match g_costs !! Node.position s with
              | Some c => _
              | None => true
              end); [| by apply IH].
    intros Hv Hf. apply (IH Hsucc' _ _ _ _ Hv).
    apply Forall_heappush; [done |]. apply Hsucc. by left.
Qed.

Lemma astar_loop_int64_found (e : GridEnvironment) (heuristic : string)
    (start goal : Position) (fuel : nat) :
  ∀ frontier g_costs visited path,
  Forall (fun entry : Key * SearchNode =>
            entry.2 = SearchNode_start start ∨
            is_within_bounds e (Node.position entry.2).1
              (Node.position entry.2).2 = true) frontier →
  Int64.astar_loop fuel e heuristic goal frontier g_costs visited
  = Returned (Some path) →
  (goal = start ∧ path = [start]) ∨ is_within_bounds e goal.1 goal.2 = true.
Proof.
  induction fuel as [|fuel IH]; intros frontier g_costs visited path Hf;
    simpl; [done |].
  destruct (heappop entry_lt frontier) as [[[current_f current] frontier']|]
    eqn:Hpop; [| done].
  destruct (Forall_heappop _ _ _ _ _ Hf Hpop) as [Hcur Hf'].
  simpl in Hcur.
  destruct (bool_decide (Node.position current ∈ visited)); [by apply IH |].
  destruct (Position_eqb (Node.position current) goal) eqn:Hg.
  - intros [= <-]. apply Position_eqb_eq in Hg. subst goal.
    destruct Hcur as [-> | Hb]; [by left | by right].
  - destruct (Int64.get_successors e current) as [successors| |] eqn:Hs;
      simpl; [| done | done].
    destruct (Int64.astar_visit e heuristic goal current _ successors
                frontier' g_costs) as [frontier'' g_costs'] eqn:Hv.
    apply IH.
    eapply astar_visit_int64_Forall; [| exact Hv | exact Hf'].
    intros s f Hin. right.
    by apply (get_successors_int64_bounds e current successors).
Qed.

Lemma AStarSearch_search_int64_found (fuel : nat) (e : GridEnvironment)
    (heuristic : string) (start goal : Position) (path : list Position) :
  Int64.AStarSearch_search fuel e heuristic start goal = Returned (Some path) →
  (goal = start ∧ path = [start]) ∨ is_within_bounds e goal.1 goal.2 = true.
Proof.
  apply astar_loop_int64_found. apply Forall_heappush; [constructor |].
  by left.
Qed.

Lemma AStarSearch_search_int64_start (fuel : nat) (e : GridEnvironment)
    (heuristic : string) (start : Position)
    (r : option (list Position)) :
  Int64.AStarSearch_search fuel e heuristic start start = Returned r →
  r = Some [start].
Proof.
  unfold Int64.AStarSearch_search. destruct fuel as [|fuel]; [done |].
  cbn [Int64.astar_loop].
  match goal with
  | |- context [heappush entry_lt [] ?item] =>
      assert (heappop entry_lt (heappush entry_lt [] item) = Some (item, []))
        as -> by reflexivity
  end.
  destruct (bool_decide _) eqn:Hin;
    [apply bool_decide_eq_true in Hin; set_solver |].
  destruct (Position_eqb _ _) eqn:Hg; [by intros [= <-] |].
  assert (Position_eqb (Node.position (SearchNode_start start)) start = true)
    as Hg' by (by apply Position_eqb_eq).
  congruence.
Qed.

Lemma reach_goal_cell (e : GridEnvironment) (start goal : Position) (c : Z) :
  reach e start goal c →
  goal = start ∨ is_within_bounds e goal.1 goal.2 = true.
Proof.
  intros Hr. destruct Hr as [|q q' c Hr Hadj [Hb _]]; [by left | by right].
Qed.

(** *** The scores *)

Lemma cells_cost_cons (e : GridEnvironment) (x y : Z)
    (cells : list Position) :
  cells_cost e ((x, y) :: cells) = get_terrain_cost e x y + cells_cost e cells.
Proof. done. Qed.

Lemma cells_cost_nonneg (e : GridEnvironment) (cells : list Position) :
  (∀ x y, 0 ≤ grid e y x) → 0 ≤ cells_cost e cells.
Proof.
  intros Hcost. induction cells as [|[x y] cells IH]; [done |].
  rewrite cells_cost_cons.
  pose proof (get_terrain_cost_nonneg e x y Hcost). lia.
Qed.

Lemma hc_evaluate_from_int64 (e : GridEnvironment) (cells : list Position) :
  (∀ x y, 0 ≤ grid e y x) →
  ∀ time total z,
  0 ≤ Num_value total →
  Num_value total + cells_cost e cells + 1000 * Z.of_nat (length cells)
  < 2 ^ 63 →
  Int64.hc_evaluate_from e cells time total = Returned z →
  Num_value z
  = Num_value total + cells_cost e cells
    + 1000 * obstructed_steps e cells time.
Proof.
  intros Hcost. induction cells as [|[x y] cells IH]; intros time total z Ht.
  - simpl. intros _ [= <-]. unfold cells_cost. simpl. lia.
  - rewrite cells_cost_cons. cbn [length Int64.hc_evaluate_from
      obstructed_steps]. intros Hfit.
    pose proof (get_terrain_cost_nonneg e x y Hcost) as Hc.
    pose proof (cells_cost_nonneg e cells Hcost) as Hcs.
    assert (Num_value (Num_add total (Int64.get_terrain_cost e x y))
            = Num_value total + get_terrain_cost e x y) as Hsum.
    { rewrite Num_add_exact; rewrite get_terrain_cost_int64; lia. }
    destruct (is_obstructed e x y time) as [blocked| |] eqn:Ho; simpl;
      [| done | done].
    intros Hz. apply IH in Hz.
    + rewrite Hz. destruct blocked.
      * rewrite Num_add_exact; simpl; lia.
      * lia.
    + destruct blocked; [rewrite Num_add_exact; simpl; lia | lia].
    + destruct blocked; [rewrite Num_add_exact; simpl; lia | lia].
Qed.

Lemma sa_sum_int64 (e : GridEnvironment) (cells : list Position) :
  (∀ x y, 0 ≤ grid e y x) →
  ∀ total, 0 ≤ Num_value total →
  Num_value total + cells_cost e cells < 2 ^ 63 →
  Num_value (foldl Num_add total
               (map (fun '(x, y) => Int64.get_terrain_cost e x y) cells))
  = Num_value total + cells_cost e cells.
Proof.
  intros Hcost. induction cells as [|[x y] cells IH]; intros total Ht.
  - simpl. unfold cells_cost. simpl. lia.
  - rewrite cells_cost_cons. cbn [map foldl]. intros Hfit.
    pose proof (get_terrain_cost_nonneg e x y Hcost) as Hc.
    pose proof (cells_cost_nonneg e cells Hcost) as Hcs.
    assert (Num_value (Num_add total (Int64.get_terrain_cost e x y))
            = Num_value total + get_terrain_cost e x y) as Hsum.
    { rewrite Num_add_exact; rewrite get_terrain_cost_int64; lia. }
    rewrite IH; lia.
Qed.

(** ** A* against uniform-cost search *)




(** ** Uniform-cost search is optimal *)

(** X8: on a grid without moving obstacles whose terrain costs are not
    negative and so small that no sum of the search leaves the 64-bit range,
    uniform-cost search returns a walk over passable cells from [start] to
    [goal] whose total terrain cost no other such walk beats; it returns
    [None] only when no walk leads from [start] to [goal]; and it returns,
    given the fuel [ucs_fuel]. *)
Theorem UniformCostSearch_search_static (fuel : nat) (e : GridEnvironment)
    (start goal : Position) (cmax : Z) :
  dynamic_obstacles e = [] → (∀ x y, 0 ≤ grid e y x) →
  (∀ x y, is_within_bounds e x y = true → grid e y x ≤ cmax) →
  sums_fit e cmax →
  (∀ path,
     Int64.UniformCostSearch_search fuel e start goal = Returned (Some path) →
     connects e start goal path ∧
     ∀ w, connects e start goal w → route_cost e path ≤ route_cost e w) ∧
  (Int64.UniformCostSearch_search fuel e start goal = Returned None →
   ∀ w, ¬ connects e start goal w) ∧
  ((ucs_fuel e cmax ≤ fuel)%nat →
   ∃ r, Int64.UniformCostSearch_search fuel e start goal = Returned r).
Proof.
  intros Hstatic Hcost Hcmax Hfit.
  rewrite (UniformCostSearch_search_int64 e start cmax
             (static_env_ok e Hstatic) Hcost Hcmax Hfit).
  split; [| split].
  - intros path Hs.
    destruct (ucs_loop_static e start goal Hstatic Hcost fuel _ _ _
                (ucs_inv_start e start goal) Hs)
      as (n & -> & Hn & Hg & Hopt).
    split; [rewrite <- Hg; by apply node_ok_connects |].
    intros w Hc. destruct (node_ok_reach e start n Hn) as (_ & -> & _).
    by apply Hopt, connects_reach.
  - intros Hs w Hc.
    exact (ucs_loop_static e start goal Hstatic Hcost fuel _ _ _
             (ucs_inv_start e start goal) Hs _ (connects_reach e w _ _ Hc)).
  - intros Hfuel.
    by apply (UniformCostSearch_search_returns e start cmax);
      [apply static_env_ok | | apply Hfit | ..].
Qed.

Lemma UniformCostSearch_search_static_witness :
  match Int64.UniformCostSearch_search 100 swamp_env (0, 0) (2, 0) with
  | Returned (Some path) =>
      connects swamp_env (0, 0) (2, 0) path ∧
      ∀ w, connects swamp_env (0, 0) (2, 0) w →
           route_cost swamp_env path ≤ route_cost swamp_env w
  | _ => False
  end.
Proof.
  assert (∀ x y, 0 ≤ grid swamp_env y x ≤ 5) as Hcost.
  { intros x y. simpl. destruct (y =? 0); [lia |].
    destruct ((x =? 1) && (y <? 3)); lia. }
  assert (sums_fit swamp_env 5) as Hfit
    by (split; [lia | vm_compute; reflexivity]).
  destruct (Int64.UniformCostSearch_search 100 swamp_env (0, 0) (2, 0))
    as [[path|]| |] eqn:E.
  - exact (proj1 (UniformCostSearch_search_static 100 swamp_env (0, 0) (2, 0)
                    5 eq_refl (fun x y => proj1 (Hcost x y))
                    (fun x y _ => proj2 (Hcost x y)) Hfit) path E).
  - vm_compute in E. discriminate E.
  - vm_compute in E. discriminate E.
  - vm_compute in E. discriminate E.
Defined.

(** ** The three searches agree *)

(** X10: on a grid without moving obstacles whose terrain costs are at
    least 1 and so small that no sum of the searches leaves the 64-bit
    range, breadth-first search, uniform-cost search and A* agree on whether
    there is a path, and with a heuristic other than the Euclidean one the
    paths of uniform-cost search and of A* have the same total terrain
    cost. *)
Theorem searches_agree_on_static_grid (e : GridEnvironment)
    (heuristic : string) (start goal : Position) (cmax : Z)
    (fuel1 fuel2 fuel3 : nat)
    (r_bfs r_ucs r_astar : option (list Position)) :
  dynamic_obstacles e = [] → (∀ x y, 1 ≤ grid e y x) →
  (∀ x y, is_within_bounds e x y = true → grid e y x ≤ cmax) →
  sums_fit e cmax →
  Int64.BFS_search fuel1 e start goal = Returned r_bfs →
  Int64.UniformCostSearch_search fuel2 e start goal = Returned r_ucs →
  Int64.AStarSearch_search fuel3 e heuristic start goal = Returned r_astar →
  (is_Some r_bfs ↔ is_Some r_ucs) ∧ (is_Some r_ucs ↔ is_Some r_astar) ∧
  (heuristic ≠ "euclidean"%string →
   ∀ path_ucs path_astar,
     r_ucs = Some path_ucs → r_astar = Some path_astar →
     route_cost e path_ucs = route_cost e path_astar).
Proof.
  intros Hstatic Hcost Hcmax Hfit Hb Hu Ha.
  assert (∀ x y, 0 ≤ grid e y x) as Hcost0.
  { intros x y. pose proof (Hcost x y). lia. }
  rewrite (BFS_search_int64 e start cmax Hcost0 Hcmax Hfit) in Hb.
  rewrite (UniformCostSearch_search_int64 e start cmax
             (static_env_ok e Hstatic) Hcost0 Hcmax Hfit) in Hu.
  pose proof (search_none_unreachable e start goal Hstatic) as Hnone.
  assert ((∃ path, connects e start goal path) →
          is_Some r_bfs ∧ is_Some r_ucs) as Hfound.
  { intros (path & Hc). split.
    - destruct r_bfs; [done |]. exfalso. apply (Hnone) with (w := path);
        [| done]. left. by exists fuel1.
    - destruct r_ucs; [done |]. exfalso. apply (Hnone) with (w := path);
        [| done]. right. left. split; [done |]. by exists fuel2. }
  assert (is_Some r_bfs → ∃ path, connects e start goal path) as Hcb.
  { intros [path ->]. exists path. apply search_found_connects; [done |].
    left. by exists fuel1. }
  assert (is_Some r_ucs → ∃ path, connects e start goal path) as Hcu.
  { intros [path ->]. exists path. apply search_found_connects; [done |].
    right. left. by exists fuel2. }
  assert (∀ path_ucs, r_ucs = Some path_ucs →
            reach e start goal (route_cost e path_ucs) ∧
            ∀ c, reach e start goal c → route_cost e path_ucs ≤ c) as Hoptu.
  { intros path_ucs ->.
    destruct (ucs_loop_static e start goal Hstatic Hcost0 fuel2 _ _ _
                (ucs_inv_start e start goal) Hu)
      as (n & -> & Hn & Hg & Hopt).
    destruct (node_ok_reach e start n Hn) as (Hru & Hcn & _).
    rewrite Hg in Hru. rewrite Hcn. done. }
  split; [split; intros H; [apply Hcb in H | apply Hcu in H];
          apply Hfound in H as (? & ?); done |].
  destruct (is_within_bounds e goal.1 goal.2) eqn:Hgoal.
  - rewrite (AStarSearch_search_int64 e start cmax Hcost0 Hcmax Hfit)
      in Ha by done.
    split.
    + split.
      * intros H. apply Hcu in H as (path & Hc).
        destruct r_astar; [done |]. exfalso. apply (Hnone) with (w := path);
          [| done]. right. right. by exists fuel3, heuristic.
      * intros [path ->]. apply Hfound. exists path.
        apply search_found_connects; [done |].
        right. right. by exists fuel3, heuristic.
    + intros Hint path_ucs path_astar -> ->.
      destruct (astar_search_optimal e heuristic start goal Hstatic Hcost Hint
                  fuel3 path_astar Ha) as (Hra & _ & _ & Hopta).
      destruct (Hoptu path_ucs eq_refl) as (Hru & Hoptu').
      pose proof (Hopta _ Hru). pose proof (Hoptu' _ Hra). lia.
  - destruct (decide (goal = start)) as [-> | Hne].
    + apply AStarSearch_search_int64_start in Ha as ->.
      assert (connects e start start [start]) as Hc by done.
      split.
      * split; [done |]. intros _. apply Hfound. by exists [start].
      * intros _ path_ucs path_astar -> [= <-].
        destruct (Hoptu path_ucs eq_refl) as (Hru & Hoptu').
        pose proof (Hoptu' 0 (reach_start e start)).
        pose proof (reach_cost_nonneg0 e start start _ Hcost0 Hru).
        change (route_cost e [start]) with 0. lia.
    + assert (r_astar = None) as ->.
      { destruct r_astar as [path|]; [| done].
        destruct (AStarSearch_search_int64_found _ _ _ _ _ _ Ha)
          as [[-> _] | Hgoal']; [done | congruence]. }
      assert (¬ is_Some r_ucs) as Hnu.
      { intros H. apply Hcu in H as (path & Hc).
        apply connects_reach, reach_goal_cell in Hc as [-> | Hgoal'];
          [done | congruence]. }
      split.
      * split; [done |]. intros [? [=]].
      * intros _ path_ucs path_astar _ [=].
Qed.

Lemma searches_agree_on_static_grid_witness :
  match Int64.UniformCostSearch_search 100 road_env (0, 0) (4, 4),
        Int64.AStarSearch_search 100 road_env "chebyshev" (0, 0) (4, 4) with
  | Returned (Some path_ucs), Returned (Some path_astar) =>
      route_cost road_env path_ucs = route_cost road_env path_astar
  | _, _ => False
  end.
Proof.
  pose proof (searches_agree_on_static_grid road_env "chebyshev" (0, 0) (4, 4)
                1 100 100 100) as H.
  assert (∀ x y, 1 ≤ grid road_env y x) as Hcost by (intros; simpl; lia).
  assert (∀ x y, is_within_bounds road_env x y = true → grid road_env y x ≤ 1)
    as Hcmax by (intros; simpl; lia).
  assert (sums_fit road_env 1) as Hfit
    by (split; [lia | vm_compute; reflexivity]).
  destruct (Int64.BFS_search 100 road_env (0, 0) (4, 4)) as [r_bfs| |] eqn:Eb;
    [| vm_compute in Eb; discriminate Eb..].
  destruct (Int64.UniformCostSearch_search 100 road_env (0, 0) (4, 4))
    as [[path_ucs|]| |] eqn:Eu; [| vm_compute in Eu; discriminate Eu..].
  destruct (Int64.AStarSearch_search 100 road_env "chebyshev" (0, 0) (4, 4))
    as [[path_astar|]| |] eqn:Ea; [| vm_compute in Ea; discriminate Ea..].
  refine (proj2 (proj2 (H r_bfs (Some path_ucs) (Some path_astar) eq_refl
                          Hcost Hcmax Hfit eq_refl eq_refl eq_refl))
            _ path_ucs path_astar eq_refl eq_refl).
  discriminate.
Defined.

(** ** The scores as the source adds them *)

(** X12: where no terrain cost is negative and the total terrain cost of a
    non-empty path plus 1000 for each of its cells stays below 2^63, the
    64-bit sums of the source do not wrap around: the score hill climbing
    gives the path is the total terrain cost of its cells after the first
    plus 1000 for each of them that is obstructed at its step (cell number
    [i] at time [i - 1]); the score of simulated annealing is the total
    terrain cost alone, so the two scores differ by 1000 for each obstructed
    cell.  The empty path scores infinity under both. *)
Theorem hc_evaluate_path_penalty (e : GridEnvironment)
    (path : list Position) (s : Score) :
  (∀ x y, 0 ≤ grid e y x) →
  route_cost e path + 1000 * Z.of_nat (length path) < 2 ^ 63 →
  Int64.hc_evaluate_path e path = Returned s →
  match path with
  | [] => s = Infinite ∧ Int64.sa_evaluate_path e path = Infinite
  | _ :: rest =>
      s = Finite (route_cost e path + 1000 * obstructed_steps e rest 0) ∧
      Int64.sa_evaluate_path e path = Finite (route_cost e path) ∧
      0 ≤ obstructed_steps e rest 0 ≤ Z.of_nat (length rest)
  end.
Proof.
  intros Hcost. destruct path as [|p rest]; cbn [Int64.hc_evaluate_path].
  - by intros _ [= <-].
  - change (route_cost e (p :: rest)) with (cells_cost e rest).
    cbn [length]. intros Hfit.
    pose proof (cells_cost_nonneg e rest Hcost) as Hnn.
    destruct (Int64.hc_evaluate_from e rest 0 (PyInt 0)) as [z| |] eqn:Hz;
      simpl; [| done | done].
    intros [= <-].
    apply (hc_evaluate_from_int64 e rest Hcost) in Hz; [| done | simpl; lia].
    split; [f_equal; simpl in Hz; lia |]. split.
    + f_equal. rewrite (sa_sum_int64 e rest Hcost); simpl; lia.
    + clear Hz Hfit. generalize 0 at 2 3. induction rest as [|[x y] rest IH];
        intros t; simpl; [lia |].
      specialize (IH (cells_cost_nonneg e rest Hcost) (t + 1)).
      destruct (is_obstructed e x y t) as [[]| |]; lia.
Qed.

Lemma hc_evaluate_path_penalty_witness :
  Int64.hc_evaluate_path blocked_env [(0, 0); (1, 0); (2, 0)]
  = Returned (Finite (route_cost blocked_env [(0, 0); (1, 0); (2, 0)]
                      + 1000 * obstructed_steps blocked_env [(1, 0); (2, 0)] 0)).
Proof.
  destruct (Int64.hc_evaluate_path blocked_env [(0, 0); (1, 0); (2, 0)])
    as [s| |] eqn:E.
  - rewrite (proj1 (hc_evaluate_path_penalty blocked_env
                      [(0, 0); (1, 0); (2, 0)] s
                      ltac:(intros; simpl; lia)
                      ltac:(vm_compute; reflexivity) E)).
    reflexivity.
  - vm_compute in E. discriminate E.
  - vm_compute in E. discriminate E.
Defined.
